(** * Hybrid-3D-Chess-Engine: the minimax engine of [ai-engine/app/engine/minimax.py]

    A shallow embedding of [MinimaxEngine] (the static evaluator [_evaluate],
    the recursive alpha-beta search [_minimax] and the root selector
    [get_best_move]) together with the properties of the engine's
    specification.

    The rules engine (python-chess) is an external collaborator: it is taken
    as an interface, [Chess], whose operations are the calls the engine makes
    on a [chess.Board]. *)

From Stdlib Require Import ZArith List String Ascii Bool Lia QArith.
Import ListNotations.
Local Open Scope Z_scope.

(** ** Scores

    [_evaluate] returns Python ints; the search seeds its running values with
    [float('-inf')] and [float('inf')].  A score is therefore an unbounded
    integer or one of the two infinities. *)

Inductive ext (A : Type) : Type :=
| NegInf
| Fin (x : A)
| PosInf.
Arguments NegInf {A}.
Arguments Fin {A} x.
Arguments PosInf {A}.

Definition score := ext Z.

(** Unary minus. *)
Definition sneg (a : score) : score :=
  match a with
  | NegInf => PosInf
  | Fin z => Fin (- z)
  | PosInf => NegInf
  end.

(** [a < b]. *)
Definition slt (a b : score) : bool :=
  match a, b with
  | NegInf, NegInf => false
  | NegInf, _ => true
  | Fin _, NegInf => false
  | Fin x, Fin y => x <? y
  | Fin _, PosInf => true
  | PosInf, _ => false
  end.

(** [a <= b]. *)
Definition sle (a b : score) : bool := negb (slt b a).

(** Python's [max(a, b)]: the first argument unless the second is greater. *)
Definition smax (a b : score) : score := if slt a b then b else a.

(** Python's [min(a, b)]: the first argument unless the second is smaller. *)
Definition smin (a b : score) : score := if slt b a then b else a.

(** [best_score / 100.0]: centipawns to pawns.  Python returns the double
    nearest to the quotient; the quotient itself is kept here, as an exact
    rational (the evaluator's scores are far from the range where the
    conversion to a float could overflow).  An infinity divided by 100.0 is
    the same infinity. *)
Definition to_pawns (a : score) : ext Q :=
  match a with
  | NegInf => NegInf
  | Fin z => Fin (z # 100)
  | PosInf => PosInf
  end.

(** Position of a score on the extended line, for arithmetic reasoning. *)
Definition rank (a : score) : Z :=
  match a with NegInf => -1 | Fin _ => 0 | PosInf => 1 end.

Definition finite_part (a : score) : Z :=
  match a with Fin z => z | _ => 0 end.

(** The result [r] of a search with window [(alpha, beta)] stands for the
    exact value [v]: equal to it inside the window, on the same side of the
    window outside. *)
Definition within (alpha beta v r : score) : Prop :=
  (sle v alpha = true -> sle r alpha = true) /\
  (sle beta v = true -> sle beta r = true) /\
  (slt alpha v = true -> slt v beta = true -> r = v).

(** ** Pieces and the evaluation tables *)

Inductive PieceType := PAWN | KNIGHT | BISHOP | ROOK | QUEEN | KING.

Definition PieceType_eqb (a b : PieceType) : bool :=
  match a, b with
  | PAWN, PAWN | KNIGHT, KNIGHT | BISHOP, BISHOP
  | ROOK, ROOK | QUEEN, QUEEN | KING, KING => true
  | _, _ => false
  end.

(** [chess.WHITE] is [True], [chess.BLACK] is [False]. *)
Definition Color := bool.
Definition WHITE : Color := true.
Definition BLACK : Color := false.

Record Piece := mkPiece { piece_type : PieceType; color : Color }.

(** Squares are the integers 0 (a1) to 63 (h8); [chess.SQUARES] lists them. *)
Definition Square := nat.
Definition SQUARES : list Square := seq 0 64.

(** A Python dict with [.get(key, default)]. *)
Fixpoint dict_get {V : Type} (d : list (PieceType * V)) (k : PieceType) (default : V) : V :=
  match d with
  | [] => default
  | (k', v) :: rest => if PieceType_eqb k k' then v else dict_get rest k default
  end.

Definition PIECE_VALUES : list (PieceType * Z) :=
  [ (PAWN, 100); (KNIGHT, 320); (BISHOP, 330);
    (ROOK, 500); (QUEEN, 900); (KING, 20000) ].

Definition PAWN_TABLE : list Z :=
  [ 0;  0;  0;  0;  0;  0;  0;  0;
    50; 50; 50; 50; 50; 50; 50; 50;
    10; 10; 20; 30; 30; 20; 10; 10;
    5;  5; 10; 25; 25; 10;  5;  5;
    0;  0;  0; 20; 20;  0;  0;  0;
    5; -5;-10;  0;  0;-10; -5;  5;
    5; 10; 10;-20;-20; 10; 10;  5;
    0;  0;  0;  0;  0;  0;  0;  0 ].

Definition KNIGHT_TABLE : list Z :=
  [ -50;-40;-30;-30;-30;-30;-40;-50;
    -40;-20;  0;  0;  0;  0;-20;-40;
    -30;  0; 10; 15; 15; 10;  0;-30;
    -30;  5; 15; 20; 20; 15;  5;-30;
    -30;  0; 15; 20; 20; 15;  0;-30;
    -30;  5; 10; 15; 15; 10;  5;-30;
    -40;-20;  0;  5;  5;  0;-20;-40;
    -50;-40;-30;-30;-30;-30;-40;-50 ].

(** [table[i]] for an index inside the table; every index the evaluator
    computes is a square or 63 minus a square, hence in 0..63. *)
Definition table_at (table : list Z) (i : nat) : Z := nth i table 0.

(** ** The rules engine

    A [chess.Board] is the position it was built from and the moves pushed on
    it since ([move_stack], last pushed move first).  [push] and [pop] are the
    only mutations the engine performs; every other call is a query. *)

Record BoardOf (P M : Type) := mkBoard { root : P; move_stack : list M }.
Arguments mkBoard {P M}.
Arguments root {P M}.
Arguments move_stack {P M}.

Class Chess := {
  Position : Type;
  Move : Type;
  (** [chess.Board(fen)]; [None] when python-chess rejects the string. *)
  from_fen : string -> option Position;
  (** [move.uci()] *)
  uci : Move -> string;
  (** [list(board.legal_moves)] *)
  legal_moves : BoardOf Position Move -> list Move;
  is_game_over : BoardOf Position Move -> bool;
  is_checkmate : BoardOf Position Move -> bool;
  is_stalemate : BoardOf Position Move -> bool;
  is_insufficient_material : BoardOf Position Move -> bool;
  (** [board.turn]: [True] when white is to move. *)
  turn : BoardOf Position Move -> Color;
  piece_at : BoardOf Position Move -> Square -> option Piece
}.

Definition Board `{Chess} : Type := BoardOf Position Move.

(** [chess.Board(fen)]: a fresh board with an empty move stack. *)
Definition new_board `{Chess} (p : Position) : Board := mkBoard p [].

(** [board.push(move)] *)
Definition push_move `{Chess} (m : Move) (b : Board) : Board :=
  mkBoard (root b) (m :: move_stack b).

(** [board.pop()]: [None] stands for the IndexError on an empty stack. *)
Definition pop_move `{Chess} (b : Board) : option (Move * Board) :=
  match move_stack b with
  | [] => None
  | m :: rest => Some (m, mkBoard (root b) rest)
  end.

(** What python-chess guarantees about its own answers: a position that is
    not over has a legal move (a position without one is checkmate or
    stalemate, and both end the game). *)
Definition oracle_consistent `{Chess} : Prop :=
  forall b : Board, is_game_over b = false -> legal_moves b <> [].

(** ** A small rules engine for concrete runs

    Positions are explicit game trees: each node carries the side to move,
    whether that side is in check, whether material is insufficient, the piece
    placement, and the legal moves with the positions they lead to.  As in
    python-chess, checkmate and stalemate are derived from the absence of
    legal moves. *)

#[warnings="-register-all"] Inductive GameTree :=
| Node (to_move : Color) (in_check : bool) (dead_material : bool)
       (placement : Square -> option Piece)
       (replies : list (string * GameTree)).

Definition replies_of (t : GameTree) : list (string * GameTree) :=
  match t with Node _ _ _ _ r => r end.

Fixpoint find_reply (m : string) (r : list (string * GameTree)) : option GameTree :=
  match r with
  | [] => None
  | (m', t) :: rest => if String.eqb m m' then Some t else find_reply m rest
  end.

(** The node reached by playing the moves of a stack (last move first). *)
Fixpoint descend (t : GameTree) (stack : list string) : option GameTree :=
  match stack with
  | [] => Some t
  | m :: earlier =>
      match descend t earlier with
      | Some t' => find_reply m (replies_of t')
      | None => None
      end
  end.

Definition tree_at (b : BoardOf GameTree string) : GameTree :=
  match descend (root b) (move_stack b) with
  | Some t => t
  | None => Node WHITE false false (fun _ => None) []
  end.

Definition tree_moves (b : BoardOf GameTree string) : list string :=
  map fst (replies_of (tree_at b)).

Definition tree_checkmate (b : BoardOf GameTree string) : bool :=
  match tree_at b with
  | Node _ chk _ _ r => match r with [] => chk | _ => false end
  end.

Definition tree_stalemate (b : BoardOf GameTree string) : bool :=
  match tree_at b with
  | Node _ chk _ _ r => match r with [] => negb chk | _ => false end
  end.

Definition tree_insufficient (b : BoardOf GameTree string) : bool :=
  match tree_at b with Node _ _ dead _ _ => dead end.

Definition tree_game_over (b : BoardOf GameTree string) : bool :=
  tree_checkmate b || tree_stalemate b || tree_insufficient b.

Definition tree_turn (b : BoardOf GameTree string) : Color :=
  match tree_at b with Node c _ _ _ _ => c end.

Definition tree_piece_at (b : BoardOf GameTree string) (sq : Square) : option Piece :=
  match tree_at b with Node _ _ _ pl _ => pl sq end.

Fixpoint lookup_fen (book : list (string * GameTree)) (fen : string) : option GameTree :=
  match book with
  | [] => None
  | (f, t) :: rest => if String.eqb fen f then Some t else lookup_fen rest fen
  end.

(** The rules engine whose only known positions are those of [book]. *)
Definition TreeChess (book : list (string * GameTree)) : Chess :=
  {| Position := GameTree;
     Move := string;
     from_fen := lookup_fen book;
     uci := fun m => m;
     legal_moves := tree_moves;
     is_game_over := tree_game_over;
     is_checkmate := tree_checkmate;
     is_stalemate := tree_stalemate;
     is_insufficient_material := tree_insufficient;
     turn := tree_turn;
     piece_at := tree_piece_at |}.

(** The standard initial placement. *)
Definition back_rank (file : nat) : PieceType :=
  nth file [ROOK; KNIGHT; BISHOP; QUEEN; KING; BISHOP; KNIGHT; ROOK] ROOK.

Definition initial_placement (sq : Square) : option Piece :=
  if (sq <? 8)%nat then Some (mkPiece (back_rank sq) WHITE)
  else if (sq <? 16)%nat then Some (mkPiece PAWN WHITE)
  else if (sq <? 48)%nat then None
  else if (sq <? 56)%nat then Some (mkPiece PAWN BLACK)
  else if (sq <? 64)%nat then Some (mkPiece (back_rank (sq - 56)) BLACK)
  else None.

Definition STARTING_FEN : string :=
  "rnbqkbnr/pppppppp/8/8/8/8/PPPPPPPP/RNBQKBNR w KQkq - 0 1"%string.

(** A placement given by the occupied squares. *)
Fixpoint placement_of (l : list (Square * Piece)) (sq : Square) : option Piece :=
  match l with
  | [] => None
  | (sq', piece) :: rest => if Nat.eqb sq sq' then Some piece else placement_of rest sq
  end.

(** A position the concrete searches below never expand: the tree is cut
    there. *)
Definition cut (to_move : Color) : GameTree :=
  Node to_move false false (fun _ => None) [].

Definition cut_after (to_move : Color) (moves : list string) : list (string * GameTree) :=
  map (fun m => (m, cut to_move)) moves.

(** The initial position with its twenty moves. *)
Definition STARTING_MOVES : list string :=
  [ "g1h3"; "g1f3"; "b1c3"; "b1a3"; "h2h3"; "g2g3"; "f2f3"; "e2e3"; "d2d3"; "c2c3";
    "b2b3"; "a2a3"; "h2h4"; "g2g4"; "f2f4"; "e2e4"; "d2d4"; "c2c4"; "b2b4"; "a2a4"
  ]%string.

Definition STARTING_TREE : GameTree :=
  Node WHITE false false initial_placement (cut_after BLACK STARTING_MOVES).

(** White mates in one with Ra8: rook a1, king h1 against king g8 and pawns
    f7, g7, h7.  After any other white move Black is not in check and has
    eight moves; after Ra8 Black is in check and has none. *)
Definition MATE_FEN : string := "6k1/5ppp/8/8/8/8/8/R6K w - - 0 1"%string.

Definition mate_placement (white_king white_rook : Square) : Square -> option Piece :=
  placement_of
    [ (white_king, mkPiece KING WHITE); (white_rook, mkPiece ROOK WHITE);
      (62%nat, mkPiece KING BLACK);
      (53%nat, mkPiece PAWN BLACK); (54%nat, mkPiece PAWN BLACK);
      (55%nat, mkPiece PAWN BLACK) ].

Arguments mate_placement (white_king white_rook)%_nat.

Definition MATE_BLACK_REPLIES : list string :=
  [ "g8h8"; "g8f8"; "h7h6"; "g7g6"; "f7f6"; "h7h5"; "g7g5"; "f7f5" ]%string.

Definition quiet_reply (white_king white_rook : Square) : GameTree :=
  Node BLACK false false (mate_placement white_king white_rook)
       (cut_after WHITE MATE_BLACK_REPLIES).

Arguments quiet_reply (white_king white_rook)%_nat.

Definition mated_reply : GameTree :=
  Node BLACK true false (mate_placement 7 56) [].

Definition MATE_TREE : GameTree :=
  Node WHITE false false (mate_placement 7 0)
    [ ("h1h2", quiet_reply 15 0); ("h1g2", quiet_reply 14 0); ("h1g1", quiet_reply 6 0);
      ("a1a8", mated_reply);
      ("a1a7", quiet_reply 7 48); ("a1a6", quiet_reply 7 40); ("a1a5", quiet_reply 7 32);
      ("a1a4", quiet_reply 7 24); ("a1a3", quiet_reply 7 16); ("a1a2", quiet_reply 7 8);
      ("a1g1", quiet_reply 7 6); ("a1f1", quiet_reply 7 5); ("a1e1", quiet_reply 7 4);
      ("a1d1", quiet_reply 7 3); ("a1c1", quiet_reply 7 2); ("a1b1", quiet_reply 7 1)
    ]%string.

(** White, a queen down, is in check and has a single legal move, Kh2: king
    g1, pawns f2, g2 against king a8 and queen a1.  After it Black has
    twenty-three moves. *)
Definition FORCED_FEN : string := "k7/8/8/8/8/8/5PP1/q5K1 w - - 0 1"%string.

Definition forced_placement (white_king : Square) : Square -> option Piece :=
  placement_of
    [ (white_king, mkPiece KING WHITE);
      (13%nat, mkPiece PAWN WHITE); (14%nat, mkPiece PAWN WHITE);
      (56%nat, mkPiece KING BLACK); (0%nat, mkPiece QUEEN BLACK) ].

Arguments forced_placement (white_king)%_nat.

Definition FORCED_BLACK_REPLIES : list string :=
  [ "a8b8"; "a8b7"; "a8a7";
    "a1h8"; "a1g7"; "a1a7"; "a1f6"; "a1a6"; "a1e5"; "a1a5"; "a1d4"; "a1a4"; "a1c3";
    "a1a3"; "a1b2"; "a1a2"; "a1h1"; "a1g1"; "a1f1"; "a1e1"; "a1d1"; "a1c1"; "a1b1"
  ]%string.

Definition FORCED_TREE : GameTree :=
  Node WHITE true false (forced_placement 6)
    [ ("g1h2"%string,
       Node BLACK false false (forced_placement 15) (cut_after WHITE FORCED_BLACK_REPLIES)) ].

(** A game tree on which a deeper search visits fewer nodes.  No piece is
    on the board, so that every evaluation is the mobility term alone: ten
    per legal move, counted for White when White is to move and against White
    otherwise; a position without moves is a stalemate and evaluates to 0. *)
Definition bare (to_move : Color) (replies : list (string * GameTree)) : GameTree :=
  Node to_move false false (fun _ => None) replies.

Definition SHRINK_FEN : string := "shrink"%string.

Definition SHRINK_TREE : GameTree :=
  bare WHITE
    [ ("a", bare BLACK []);
      ("b", bare BLACK
        [ ("c", bare WHITE
            [ ("g1", bare BLACK [ ("x", bare WHITE [ ("h1", bare BLACK []) ]) ]);
              ("g2", bare BLACK [ ("y", bare WHITE []) ]);
              ("g3", bare BLACK [ ("y", bare WHITE []) ]) ]) ])
    ]%string.

(** The rules engine of the concrete runs. *)
Definition Demo : Chess :=
  TreeChess [ (STARTING_FEN, STARTING_TREE); (MATE_FEN, MATE_TREE);
              (FORCED_FEN, FORCED_TREE); (SHRINK_FEN, SHRINK_TREE) ].

(** ** Effects, exceptions and outcomes *)

(** The effects the engine performs on its own state and on the board. *)
Inductive Event :=
| EnterSearch   (** an activation of [_minimax] begins *)
| IncrNodes     (** [self.nodes_searched += 1] *)
| PushMove      (** [board.push(move)] *)
| PopMove       (** [board.pop()] *)
| Evaluate.     (** a call of [self._evaluate(board)] *)

(** The exceptions that can leave the engine. *)
Inductive exn :=
| ValueError (msg : string)
| IndexError (msg : string).

(** The outcome of a run.  [OutOfFuel] is not a Python outcome: it marks a
    run that needed more nested activations than the model was given. *)
Inductive Res (A : Type) : Type :=
| Ok (a : A)
| Raise (e : exn)
| OutOfFuel.
Arguments Ok {A} a.
Arguments Raise {A} e.
Arguments OutOfFuel {A}.

(** ** The evaluator *)

Section Engine.
Context `{Chess}.

(** One iteration of the loop over [chess.SQUARES] in [_evaluate]. *)
Definition evaluate_square (board : Board) (score : Z) (square : Square) : Z :=
  match piece_at board square with
  | None => score
  | Some piece =>
      let value := dict_get PIECE_VALUES (piece_type piece) 0 in
      let pos_bonus :=
        match piece_type piece with
        | PAWN => table_at PAWN_TABLE (if color piece then square else 63 - square)%nat
        | KNIGHT => table_at KNIGHT_TABLE (if color piece then square else 63 - square)%nat
        | _ => 0
        end in
      let total_value := value + pos_bonus in
      if Bool.eqb (color piece) WHITE then score + total_value else score - total_value
  end.

Definition _evaluate (board : Board) : Z :=
  if is_checkmate board then (if turn board then -20000 else 20000)
  else if is_stalemate board || is_insufficient_material board then 0
  else
    let score := fold_left (evaluate_square board) SQUARES 0 in
    score + (if Bool.eqb (turn board) WHITE
             then Z.of_nat (List.length (legal_moves board)) * 10
             else - Z.of_nat (List.length (legal_moves board)) * 10).

(** ** The engine state and its effects

    Everything the engine can observe or change: the fields of [self], the
    [chess.Board] being searched (a single mutable object shared by
    [get_best_move] and every activation of [_minimax]) and the state of the
    [random] module.  [trace] is a ghost log of the effects performed, in the
    order they happen. *)

Record World := mkWorld {
  self_depth : Z;
  self_nodes_searched : Z;
  self_pv : list string;
  the_board : Board;
  random_draws : nat -> nat;
  random_pos : nat;
  trace : list Event
}.

Definition M (A : Type) : Type := World -> Res (A * World).

Definition ret {A} (a : A) : M A := fun w => Ok (a, w).

Definition bind {A B} (c : M A) (k : A -> M B) : M B :=
  fun w => match c w with
           | Ok (a, w') => k a w'
           | Raise e => Raise e
           | OutOfFuel => OutOfFuel
           end.

Definition raise {A} (e : exn) : M A := fun _ => Raise e.

Definition out_of_fuel {A} : M A := fun _ => OutOfFuel.

Notation "x <- c1 ;; c2" := (bind c1 (fun x => c2))
  (at level 61, c1 at next level, right associativity).
Notation "c1 ;; c2" := (bind c1 (fun _ => c2))
  (at level 61, right associativity).

Definition log (e : Event) (w : World) : World :=
  mkWorld (self_depth w) (self_nodes_searched w) (self_pv w) (the_board w)
          (random_draws w) (random_pos w) (trace w ++ [e]).

Definition with_board (b : Board) (w : World) : World :=
  mkWorld (self_depth w) (self_nodes_searched w) (self_pv w) b
          (random_draws w) (random_pos w) (trace w).

Definition with_nodes_searched (n : Z) (w : World) : World :=
  mkWorld (self_depth w) n (self_pv w) (the_board w)
          (random_draws w) (random_pos w) (trace w).

Definition with_pv (l : list string) (w : World) : World :=
  mkWorld (self_depth w) (self_nodes_searched w) l (the_board w)
          (random_draws w) (random_pos w) (trace w).

Definition get_depth : M Z := fun w => Ok (self_depth w, w).
Definition get_nodes_searched : M Z := fun w => Ok (self_nodes_searched w, w).
Definition get_board : M Board := fun w => Ok (the_board w, w).

(** Ghost: marks the entry into an activation of [_minimax]. *)
Definition enter_search : M unit := fun w => Ok (tt, log EnterSearch w).

(** [self.nodes_searched += 1] *)
Definition incr_nodes_searched : M unit :=
  fun w => Ok (tt, log IncrNodes (with_nodes_searched (self_nodes_searched w + 1) w)).

Definition set_nodes_searched (n : Z) : M unit :=
  fun w => Ok (tt, with_nodes_searched n w).

Definition set_pv (l : list string) : M unit := fun w => Ok (tt, with_pv l w).

(** [board = chess.Board(fen)]; python-chess raises a [ValueError] of its own
    on a string it cannot parse. *)
Definition chess_Board (fen : string) : M unit :=
  fun w => match from_fen fen with
           | Some p => Ok (tt, with_board (new_board p) w)
           | None => Raise (ValueError "invalid fen"%string)
           end.

(** [board.push(move)] *)
Definition board_push (move : Move) : M unit :=
  fun w => Ok (tt, log PushMove (with_board (push_move move (the_board w)) w)).

(** [board.pop()] *)
Definition board_pop : M Move :=
  fun w => match pop_move (the_board w) with
           | Some (m, b) => Ok (m, log PopMove (with_board b w))
           | None => Raise (IndexError "pop from empty list"%string)
           end.

(** [self._evaluate(board)] *)
Definition call_evaluate : M score :=
  fun w => Ok (Fin (_evaluate (the_board w)), log Evaluate w).

(** [random.choice(seq)]: consumes one draw of the generator. *)
Definition random_choice (l : list Move) : M Move :=
  fun w =>
    let i := (random_draws w (random_pos w) mod List.length l)%nat in
    match nth_error l i with
    | Some m =>
        Ok (m, mkWorld (self_depth w) (self_nodes_searched w) (self_pv w) (the_board w)
                       (random_draws w) (S (random_pos w)) (trace w))
    | None => Raise (IndexError "Cannot choose from an empty sequence"%string)
    end.

(** ** The alpha-beta search

    [fuel] bounds the nesting of activations; [_minimax] needs more fuel than
    its (non-negative) depth and then never runs out. *)

(** The [for move in legal_moves] loop of the maximizing branch; [rec] is
    [self._minimax]. *)
Fixpoint max_loop (rec : Z -> score -> score -> bool -> M score)
    (depth : Z) (beta : score) (moves : list Move) (max_eval alpha : score) : M score :=
  match moves with
  | [] => ret max_eval
  | move :: rest =>
      board_push move ;;
      eval_score <- rec (depth - 1) alpha beta false ;;
      board_pop ;;
      let max_eval := smax max_eval eval_score in
      let alpha := smax alpha eval_score in
      if sle beta alpha then ret max_eval      (* Beta cutoff *)
      else max_loop rec depth beta rest max_eval alpha
  end.

(** The loop of the minimizing branch. *)
Fixpoint min_loop (rec : Z -> score -> score -> bool -> M score)
    (depth : Z) (alpha : score) (moves : list Move) (min_eval beta : score) : M score :=
  match moves with
  | [] => ret min_eval
  | move :: rest =>
      board_push move ;;
      eval_score <- rec (depth - 1) alpha beta true ;;
      board_pop ;;
      let min_eval := smin min_eval eval_score in
      let beta := smin beta eval_score in
      if sle beta alpha then ret min_eval      (* Alpha cutoff *)
      else min_loop rec depth alpha rest min_eval beta
  end.

Fixpoint _minimax (fuel : nat) (depth : Z) (alpha beta : score) (maximizing : bool)
    {struct fuel} : M score :=
  match fuel with
  | O => out_of_fuel
  | S fuel' =>
      enter_search ;;
      incr_nodes_searched ;;
      board <- get_board ;;
      if (depth =? 0) || is_game_over board then call_evaluate
      else
        let moves := legal_moves board in
        if maximizing
        then max_loop (_minimax fuel') depth beta moves NegInf alpha
        else min_loop (_minimax fuel') depth alpha moves PosInf beta
  end.

(** ** The root selector *)

(** The tuple [get_best_move] returns. *)
Record SearchResult := mkResult {
  move_uci : string;
  score_pawns : ext Q;
  depth_reached : Z;
  nodes : Z;
  principal_variation : list string
}.

(** The [for move in legal_moves] loop of [get_best_move]. *)
Fixpoint root_loop (rec : Z -> score -> score -> bool -> M score)
    (moves : list Move) (best_move : option Move) (best_score alpha beta : score)
    : M (option Move * score) :=
  match moves with
  | [] => ret (best_move, best_score)
  | move :: rest =>
      board_push move ;;
      depth <- get_depth ;;
      r <- rec (depth - 1) (sneg beta) (sneg alpha) false ;;
      let score := sneg r in
      board_pop ;;
      let '(best_score, best_move) :=
        if slt best_score score then (score, Some move) else (best_score, best_move) in
      let alpha := smax alpha score in
      root_loop rec rest best_move best_score alpha beta
  end.

Definition get_best_move (fuel : nat) (fen : string) : M SearchResult :=
  chess_Board fen ;;
  set_nodes_searched 0 ;;
  set_pv [] ;;
  board <- get_board ;;
  if is_game_over board then raise (ValueError "Game is over"%string)
  else
    let moves := legal_moves board in
    match moves with
    | [] => raise (ValueError "No legal moves available"%string)
    | _ :: _ =>
        found <- root_loop (_minimax fuel) moves None NegInf NegInf PosInf ;;
        chosen <- match found with
                  | (Some best_move, best_score) => ret (best_move, best_score)
                  | (None, _) =>
                      (* Fallback to random move *)
                      best_move <- random_choice moves ;;
                      ret (best_move, Fin 0)
                  end ;;
        let '(best_move, best_score) := chosen in
        depth <- get_depth ;;
        nodes_searched <- get_nodes_searched ;;
        ret (mkResult (uci best_move) (to_pawns best_score) depth nodes_searched
                      [uci best_move])
    end.

(** ** A functional reading of the search

    The same search written as a function of the board alone: it returns the
    score and the effects the activation performs.  [_minimax_run] below
    proves that the effectful code computes exactly this, so that properties
    of the code can be established on the function. *)

Definition LEAF_EVENTS : list Event := [EnterSearch; IncrNodes; Evaluate].

Fixpoint max_model (rec : Board -> score -> score -> bool -> score * list Event)
    (board : Board) (beta : score) (moves : list Move) (max_eval alpha : score)
    : score * list Event :=
  match moves with
  | [] => (max_eval, [])
  | move :: rest =>
      let child := rec (push_move move board) alpha beta false in
      let max_eval := smax max_eval (fst child) in
      let alpha := smax alpha (fst child) in
      if sle beta alpha then (max_eval, PushMove :: snd child ++ [PopMove])
      else
        let later := max_model rec board beta rest max_eval alpha in
        (fst later, (PushMove :: snd child ++ [PopMove]) ++ snd later)
  end.

Fixpoint min_model (rec : Board -> score -> score -> bool -> score * list Event)
    (board : Board) (alpha : score) (moves : list Move) (min_eval beta : score)
    : score * list Event :=
  match moves with
  | [] => (min_eval, [])
  | move :: rest =>
      let child := rec (push_move move board) alpha beta true in
      let min_eval := smin min_eval (fst child) in
      let beta := smin beta (fst child) in
      if sle beta alpha then (min_eval, PushMove :: snd child ++ [PopMove])
      else
        let later := min_model rec board alpha rest min_eval beta in
        (fst later, (PushMove :: snd child ++ [PopMove]) ++ snd later)
  end.

Fixpoint search_model (d : nat) (board : Board) (alpha beta : score) (maximizing : bool)
    : score * list Event :=
  match d with
  | O => (Fin (_evaluate board), LEAF_EVENTS)
  | S d' =>
      if is_game_over board then (Fin (_evaluate board), LEAF_EVENTS)
      else
        let body :=
          if maximizing
          then max_model (search_model d') board beta (legal_moves board) NegInf alpha
          else min_model (search_model d') board alpha (legal_moves board) PosInf beta in
        (fst body, EnterSearch :: IncrNodes :: snd body)
  end.

(** The root loop as a function: the best move, its score and the effects. *)
Fixpoint root_model (rec : Board -> score -> score -> bool -> score * list Event)
    (board : Board) (moves : list Move) (best_move : option Move)
    (best_score alpha beta : score) : option Move * score * list Event :=
  match moves with
  | [] => (best_move, best_score, [])
  | move :: rest =>
      let child := rec (push_move move board) (sneg beta) (sneg alpha) false in
      let score := sneg (fst child) in
      let best := if slt best_score score then (score, Some move)
                  else (best_score, best_move) in
      let later := root_model rec board rest (snd best) (fst best) (smax alpha score) beta in
      (fst later, (PushMove :: snd child ++ [PopMove]) ++ snd later)
  end.

(** Number of [self.nodes_searched += 1] in a sequence of effects. *)
Fixpoint increments (t : list Event) : Z :=
  match t with
  | [] => 0
  | IncrNodes :: t' => 1 + increments t'
  | _ :: t' => increments t'
  end.

(** Number of activations of [_minimax] in a sequence of effects. *)
Fixpoint activations (t : list Event) : Z :=
  match t with
  | [] => 0
  | EnterSearch :: t' => 1 + activations t'
  | _ :: t' => activations t'
  end.

(** Every activation in the sequence starts with the increment of the
    counter, before any other effect, and the counter is incremented nowhere
    else.  [pending] tells that an activation has just begun and its
    increment is due. *)
Fixpoint counted_on_entry (pending : bool) (t : list Event) : bool :=
  match t with
  | [] => negb pending
  | EnterSearch :: t' => negb pending && counted_on_entry true t'
  | IncrNodes :: t' => pending && counted_on_entry false t'
  | _ :: t' => negb pending && counted_on_entry false t'
  end.

(** Pushes and pops are nested like brackets; [open] counts the pushes not
    yet popped. *)
Fixpoint balanced (open : nat) (t : list Event) : bool :=
  match t with
  | [] => Nat.eqb open 0
  | PushMove :: t' => balanced (S open) t'
  | PopMove :: t' => match open with O => false | S n => balanced n t' end
  | _ :: t' => balanced open t'
  end.

(** The world after a run that performed the effects [t] and left the board,
    [self.depth], [self.pv] and the random generator as they were. *)
Definition after (t : list Event) (w : World) : World :=
  mkWorld (self_depth w) (self_nodes_searched w + increments t) (self_pv w)
          (the_board w) (random_draws w) (random_pos w) (trace w ++ t).

(** ** Unpruned minimax

    The reference the pruning-equivalence property compares with: the same
    tree, the same move order, the same leaf evaluator, every move visited. *)
Fixpoint full_minimax (d : nat) (board : Board) (maximizing : bool) : score :=
  match d with
  | O => Fin (_evaluate board)
  | S d' =>
      if is_game_over board then Fin (_evaluate board)
      else if maximizing
      then fold_left (fun best move => smax best (full_minimax d' (push_move move board) false))
                     (legal_moves board) NegInf
      else fold_left (fun best move => smin best (full_minimax d' (push_move move board) true))
                     (legal_moves board) PosInf
  end.

(** The world in which the root loop of [get_best_move] starts. *)
Definition entry_world (p : Position) (w : World) : World :=
  with_pv [] (with_nodes_searched 0 (with_board (new_board p) w)).

(** What the root loop of [get_best_move] computes on a position, at a
    configured depth. *)
Definition root_search (depth : Z) (p : Position) : option Move * score * list Event :=
  root_model (search_model (Z.to_nat (depth - 1))) (new_board p)
             (legal_moves (new_board p)) None NegInf NegInf PosInf.

(** A score that is an integer. *)
Definition finite (a : score) : bool :=
  match a with Fin _ => true | _ => false end.

(** A computation that never raises and, when it returns, has put the board
    back as it found it, with every push undone by a pop, and has left
    [self.depth] alone. *)
Definition tidy {A} (c : M A) : Prop :=
  forall w,
    match c w with
    | Ok (_, w') =>
        the_board w' = the_board w /\ self_depth w' = self_depth w /\
        exists t, trace w' = trace w ++ t /\ balanced 0 t = true
    | Raise _ => False
    | OutOfFuel => True
    end.

(** The effects of one activation: counted on entry, pushes and pops paired,
    at least one node. *)
Definition clean (t : list Event) : Prop :=
  counted_on_entry false t = true /\ balanced 0 t = true /\ 1 <= increments t.

(** Sum of [f] over a list. *)
Fixpoint sum_over {A} (f : A -> Z) (l : list A) : Z :=
  match l with
  | [] => 0
  | x :: rest => f x + sum_over f rest
  end.

(** What the subtree of a root move costs when it is searched one ply deep
    without a cutoff: the position after the move and, unless it is over,
    each of its legal moves. *)
Definition two_ply_cost (board : Board) (move : Move) : Z :=
  if is_game_over (push_move move board) then 1
  else 1 + Z.of_nat (List.length (legal_moves (push_move move board))).

End Engine.

(** An engine configured with [depth], as left by earlier work: a counter
    that is not zero, a principal variation, some board and a random
    generator. *)
Definition demo_world (depth : Z) : @World Demo :=
  mkWorld depth 17 ["e2e4"%string]
          (@mkBoard (@Position Demo) (@Move Demo) STARTING_TREE ["e2e4"%string])
          (fun n => n) 0 [].

(** Another engine state with the same configured depth. *)
Definition other_world (depth : Z) : @World Demo :=
  mkWorld depth 0 []
          (@mkBoard (@Position Demo) (@Move Demo) MATE_TREE [])
          (fun n => 2 * n + 1)%nat 5 [Evaluate].

(** The same engine, about to search the position [t]. *)
Definition search_world (depth : Z) (t : GameTree) : @World Demo :=
  @with_board Demo (@new_board Demo t) (demo_world depth).

(** The node count [get_best_move] reports, when it returns. *)
Definition nodes_reported `{Chess} (fuel : nat) (fen : string) (w : World) : option Z :=
  match get_best_move fuel fen w with
  | Ok (r, _) => Some (nodes r)
  | _ => None
  end.

(** * More of the engine *)

Section EngineMore.
Context `{Chess}.

(** The number of nodes of the game tree below a position, cut at depth [d]:
    what a search without pruning visits. *)
Fixpoint tree_size (d : nat) (board : Board) : Z :=
  match d with
  | O => 1
  | S d' =>
      if is_game_over board then 1
      else 1 + sum_over (fun move => tree_size d' (push_move move board)) (legal_moves board)
  end.

(** The integer a finite score holds. *)
Definition centipawns (a : score) : Z :=
  match a with Fin z => z | _ => 0 end.

(** The unpruned minimax value, from White's side, of the position a root
    move leads to, for an engine configured with [depth]. *)
Definition reply_value (depth : Z) (board : Board) (move : Move) : Z :=
  centipawns (full_minimax (Z.to_nat (depth - 1)) (push_move move board) false).

End EngineMore.

(** ** Mirrored positions *)

(** python-chess's [chess.square_mirror]: the square seen from the other side
    of the board (same file, rank 1 exchanged with rank 8, and so on). *)
Definition square_mirror (sq : Square) : Square :=
  (8 * (7 - sq / 8) + sq mod 8)%nat.

Definition swap_color (piece : Piece) : Piece :=
  mkPiece (piece_type piece) (negb (color piece)).

(** The placement of [board.mirror()]: every piece on the mirrored square,
    with the other colour. *)
Definition mirror_placement (placement : Square -> option Piece) (sq : Square)
    : option Piece :=
  option_map swap_color (placement (square_mirror sq)).

(** The position of [quiet_reply 15 0] seen from the other side: White to
    move with king g1 and pawns f2, g2, h2 against king h7 and rook a8. *)
Definition MIRRORED_QUIET_REPLY : GameTree :=
  Node WHITE false false (mirror_placement (mate_placement 15 0))
       (cut_after BLACK
          [ "g1h1"; "g1f1"; "h2h3"; "g2g3"; "f2f3"; "h2h4"; "g2g4"; "f2f4" ]%string).

(** * The board encoder of [ai-engine/app/models/chess_net.py]
    and the FEN helpers of [ai-engine/app/utils/fen_encoder.py] *)

(** A numpy array of shape (channels, ranks, files).  [encode_board] stores
    only 0.0 and 1.0 in it; they are kept as the integers 0 and 1. *)
Definition Array3 := list (list (list Z)).

(** [np.zeros((c, r, f))] *)
Definition np_zeros (c r f : nat) : Array3 := repeat (repeat (repeat 0 f) r) c.

(** [l[i] = v] on a Python list or along one axis of an array; [None] stands
    for the IndexError of an index outside the list. *)
Fixpoint list_set {A} (l : list A) (i : nat) (v : A) : option (list A) :=
  match l, i with
  | [], _ => None
  | _ :: rest, O => Some (v :: rest)
  | x :: rest, S i' =>
      match list_set rest i' v with
      | Some rest' => Some (x :: rest')
      | None => None
      end
  end.

(** [a[c, r, f]] *)
Definition array_get (a : Array3) (c r f : nat) : option Z :=
  match nth_error a c with
  | Some plane =>
      match nth_error plane r with
      | Some row => nth_error row f
      | None => None
      end
  | None => None
  end.

(** [a[c, r, f] = v] *)
Definition array_set (a : Array3) (c r f : nat) (v : Z) : option Array3 :=
  match nth_error a c with
  | Some plane =>
      match nth_error plane r with
      | Some row =>
          match list_set row f v with
          | Some row' =>
              match list_set plane r row' with
              | Some plane' => list_set a c plane'
              | None => None
              end
          | None => None
          end
      | None => None
      end
  | None => None
  end.

(** The dict [piece_to_channel] of [encode_board]. *)
Definition piece_to_channel : list ((PieceType * Color) * nat) :=
  [ ((PAWN, WHITE), 0); ((KNIGHT, WHITE), 1); ((BISHOP, WHITE), 2);
    ((ROOK, WHITE), 3); ((QUEEN, WHITE), 4); ((KING, WHITE), 5);
    ((PAWN, BLACK), 6); ((KNIGHT, BLACK), 7); ((BISHOP, BLACK), 8);
    ((ROOK, BLACK), 9); ((QUEEN, BLACK), 10); ((KING, BLACK), 11) ]%nat.

(** [d[key]]; [None] stands for the KeyError of a missing key. *)
Fixpoint dict_lookup {V} (d : list ((PieceType * Color) * V)) (key : PieceType * Color)
    : option V :=
  match d with
  | [] => None
  | ((pt, c), v) :: rest =>
      if PieceType_eqb (fst key) pt && Bool.eqb (snd key) c then Some v
      else dict_lookup rest key
  end.

(** python-chess's [chess.square_rank] ([square >> 3]) and
    [chess.square_file] ([square & 7]). *)
Definition square_rank (sq : Square) : nat := (sq / 8)%nat.
Definition square_file (sq : Square) : nat := (sq mod 8)%nat.

(** What [encode_board] can raise. *)
Inductive EncodeError :=
| KeyError (key : PieceType * Color)
| ArrayIndexError (channel rank file : nat).

Section Encoder.
Context `{Chess}.

(** One iteration of the loop over [chess.SQUARES] in [encode_board]. *)
Definition encode_square (board : Board) (encoded : Array3) (square : Square)
    : EncodeError + Array3 :=
  match piece_at board square with
  | None => inr encoded
  | Some piece =>
      match dict_lookup piece_to_channel (piece_type piece, color piece) with
      | None => inl (KeyError (piece_type piece, color piece))
      | Some channel =>
          let rank := square_rank square in
          let file := square_file square in
          match array_set encoded channel rank file 1 with
          | Some encoded' => inr encoded'
          | None => inl (ArrayIndexError channel rank file)
          end
      end
  end.

Fixpoint encode_squares (board : Board) (squares : list Square) (encoded : Array3)
    : EncodeError + Array3 :=
  match squares with
  | [] => inr encoded
  | square :: rest =>
      match encode_square board encoded square with
      | inr encoded' => encode_squares board rest encoded'
      | inl e => inl e
      end
  end.

Definition encode_board (board : Board) : EncodeError + Array3 :=
  encode_squares board SQUARES (np_zeros 12 8 8).

(** What [encode_fen] can raise: the [ValueError] of [chess.Board(fen)] or an
    error of [encode_board]. *)
Inductive EncodeFenError :=
| BadFen
| Encoding (e : EncodeError).

(** [encode_fen] of [fen_encoder.py]. *)
Definition encode_fen (fen : string) : EncodeFenError + Array3 :=
  match from_fen fen with
  | None => inl BadFen
  | Some p =>
      match encode_board (new_board p) with
      | inr encoded => inr encoded
      | inl e => inl (Encoding e)
      end
  end.

(** The entry [encode_board] is meant to leave at [(c, r, f)]. *)
Definition one_hot (board : Board) (c r f : nat) : Z :=
  match piece_at board (8 * r + f)%nat with
  | Some piece =>
      match dict_lookup piece_to_channel (piece_type piece, color piece) with
      | Some channel => if Nat.eqb c channel then 1 else 0
      | None => 0
      end
  | None => 0
  end.

End Encoder.

(** The array whose entry at [(c, r, f)] is [g c r f]. *)
Definition tabulate3 (nc nr nf : nat) (g : nat -> nat -> nat -> Z) : Array3 :=
  map (fun c => map (fun r => map (fun f => g c r f) (seq 0 nf)) (seq 0 nr)) (seq 0 nc).

(** [x == c] for the result [x] of a dict lookup. *)
Definition option_eqb_nat (x : option nat) (c : nat) : bool :=
  match x with
  | Some y => Nat.eqb y c
  | None => false
  end.

(** [decode_move] of [fen_encoder.py].  numpy's [argmax] is a parameter: the
    index it finds in a vector, or the exception it raises. *)
Section Decoder.
Context `{Chess}.
Variable Vector : Type.
Variable np_argmax : Vector -> Res nat.

Definition decode_move (move_vector : Vector) (board : Board) : Res string :=
  let legal_moves := legal_moves board in
  match legal_moves with
  | [] => Raise (ValueError "No legal moves"%string)
  | _ :: _ =>
      match np_argmax move_vector with
      | Ok i =>
          let move_idx := (i mod List.length legal_moves)%nat in
          match nth_error legal_moves move_idx with
          | Some move => Ok (uci move)
          | None => Raise (IndexError "list index out of range"%string)
          end
      | Raise e => Raise e
      | OutOfFuel => OutOfFuel
      end
  end.

End Decoder.

(** [argmax] on a vector of integers: the index of the first largest entry. *)
Fixpoint argmax_from (l : list Z) (i best_i : nat) (best : Z) : nat :=
  match l with
  | [] => best_i
  | x :: rest =>
      if best <? x then argmax_from rest (S i) i x else argmax_from rest (S i) best_i best
  end.

Definition first_argmax (v : list Z) : Res nat :=
  match v with
  | [] => Raise (ValueError "attempt to get argmax of an empty sequence"%string)
  | x :: rest => Ok (argmax_from rest 1 0 x)
  end.

(** * The HTTP layer of [ai-engine/app/main.py] *)

Record HTTPException := mkHTTPException { status_code : Z; detail : string }.

(** [s[n:]] *)
Fixpoint str_drop (n : nat) (s : string) : string :=
  match n, s with
  | O, _ => s
  | S _, EmptyString => EmptyString
  | S n', String _ s' => str_drop n' s'
  end.

(** [s[:n]] *)
Fixpoint str_take (n : nat) (s : string) : string :=
  match n, s with
  | O, _ => EmptyString
  | S _, EmptyString => EmptyString
  | S n', String a s' => String a (str_take n' s')
  end.

(** [s.startswith(prefix)] *)
Fixpoint startswith (s prefix : string) : bool :=
  match prefix, s with
  | EmptyString, _ => true
  | String _ _, EmptyString => false
  | String a prefix', String b s' => Ascii.eqb a b && startswith s' prefix'
  end.

(** [verify_admin_token]; [authorization] is the header, [None] when the
    request has none.  [ADMIN_TOKEN] is the module's global, read from the
    environment when the module is loaded. *)
Definition verify_admin_token (ADMIN_TOKEN : string) (authorization : option string)
    : HTTPException + string :=
  match authorization with
  | None => inl (mkHTTPException 401 "Missing or invalid authorization header")
  | Some authorization =>
      if String.eqb authorization "" || negb (startswith authorization "Bearer ")
      then inl (mkHTTPException 401 "Missing or invalid authorization header")
      else
        let token := str_drop 7 authorization in
        if negb (String.eqb token ADMIN_TOKEN)
        then inl (mkHTTPException 403 "Invalid admin token")
        else inr token
  end.

(** ** The network's move choice: [predict_move] of [chess_net.py] *)

(** A Python or numpy float, as far as comparisons tell floats apart. *)
Inductive pyfloat :=
| NaN
| Num (x : ext Q).

Definition ext_ltb (a b : ext Q) : bool :=
  match a, b with
  | NegInf, NegInf => false
  | NegInf, _ => true
  | Fin x, Fin y => negb (Qle_bool y x)
  | Fin _, PosInf => true
  | _, _ => false
  end.

(** [a > b] on floats: false as soon as one side is NaN. *)
Definition float_gt (a b : pyfloat) : bool :=
  match a, b with
  | Num x, Num y => ext_ltb y x
  | _, _ => false
  end.

(** What can leave [predict_move]: the exceptions of python-chess and of the
    engine, those of [encode_board], the [ZeroDivisionError] of a modulo by
    zero, and whatever the forward pass of the network raises. *)
Inductive Exception :=
| Builtin (e : exn)
| EncoderError (e : EncodeError)
| ZeroDivisionError
| TorchError.

(** The outcome of a call, with the exceptions of this layer.  [Unfinished]
    is not a Python outcome: it marks a search that ran out of fuel. *)
Inductive Result (E A : Type) : Type :=
| Done (a : A)
| Failed (e : E)
| Unfinished.
Arguments Done {E A} a.
Arguments Failed {E A} e.
Arguments Unfinished {E A}.

Section Network.
Context `{Chess}.

(** The policy logits [policy[0]] of the network. *)
Variable Logits : Type.

(** [hash] on strings, fixed during one run of the interpreter. *)
Variable py_hash : string -> Z.

(** [torch.softmax(policy[0], dim=0).cpu().numpy()] *)
Variable softmax : Logits -> list pyfloat.

(** A loaded [ChessNet]: what [model(tensor)] gives on an encoded board, the
    policy logits and [float(value[0].item())], or [None] when it raises. *)
Definition Model := Array3 -> option (Logits * pyfloat).

(** [policy_probs[hash(move.uci()) % len(policy_probs)]] *)
Definition policy_lookup (policy_probs : list pyfloat) (move : Move) : Exception + pyfloat :=
  if (List.length policy_probs =? 0)%nat then inl ZeroDivisionError
  else
    let move_idx :=
      Z.to_nat (py_hash (uci move) mod Z.of_nat (List.length policy_probs)) in
    match nth_error policy_probs move_idx with
    | Some score => inr score
    | None => inl (Builtin (IndexError "index out of bounds"%string))
    end.

(** The [for move in legal_moves] loop of [predict_move]. *)
Fixpoint policy_loop (policy_probs : list pyfloat) (moves : list Move)
    (best_move : option Move) (best_score : pyfloat)
    : Exception + (option Move * pyfloat) :=
  match moves with
  | [] => inr (best_move, best_score)
  | move :: rest =>
      match policy_lookup policy_probs move with
      | inl e => inl e
      | inr score =>
          if float_gt score best_score
          then policy_loop policy_probs rest (Some move) score
          else policy_loop policy_probs rest best_move best_score
      end
  end.

(** [predict_move(model, fen, device)].  Its board is a local of its own; of
    the world it only uses the random generator, and only in its last step. *)
Definition predict_move (model : Model) (fen : string) (w : World)
    : Result Exception ((string * pyfloat) * World) :=
  match from_fen fen with
  | None => Failed (Builtin (ValueError "invalid fen"%string))
  | Some p =>
      let board := new_board p in
      match encode_board board with
      | inl e => Failed (EncoderError e)
      | inr encoded =>
          match model encoded with
          | None => Failed TorchError
          | Some (policy, value) =>
              let legal_moves := legal_moves board in
              match legal_moves with
              | [] => Failed (Builtin (ValueError "No legal moves available"%string))
              | _ :: _ =>
                  let policy_probs := softmax policy in
                  match policy_loop policy_probs legal_moves None (Num NegInf) with
                  | inl e => Failed e
                  | inr (Some best_move, _) => Done ((uci best_move, value), w)
                  | inr (None, _) =>
                      match random_choice legal_moves w with
                      | Ok (best_move, w') => Done ((uci best_move, value), w')
                      | Raise e => Failed (Builtin e)
                      | OutOfFuel => Unfinished
                      end
                  end
              end
          end
      end
  end.

(** The probability the loop reads for a move from a vector that is not
    empty. *)
Definition prob_of (policy_probs : list pyfloat) (move : Move) : pyfloat :=
  nth (Z.to_nat (py_hash (uci move) mod Z.of_nat (List.length policy_probs)))
      policy_probs NaN.

End Network.

(** A probability that can be selected: one above the initial [-inf]. *)
Definition usable (s : pyfloat) : bool := float_gt s (Num NegInf).

(** ** The endpoint [predict] of [main.py] *)

(** [MinimaxEngine.__init__]: the three attributes of a new engine. *)
Definition MinimaxEngine `{Chess} (depth : Z) (w : World) : World :=
  mkWorld depth 0 [] (the_board w) (random_draws w) (random_pos w) (trace w).

(** [minimax_engine = MinimaxEngine(depth=3)] *)
Definition minimax_engine `{Chess} (w : World) : World := MinimaxEngine 3 w.

(** [PredictResponse]; the fields carry a prefix, [score] and [nodes] being
    names of the engine. *)
Record PredictResponse := mkPredictResponse {
  response_from : string;
  response_to : string;
  response_promotion : option string;
  response_score : pyfloat;
  response_pv : list string;
  response_depth : Z;
  response_nodes : Z;
  response_thinkingTime : Z
}.

(** [str(e)] *)
Definition str (e : exn) : string :=
  match e with
  | ValueError msg => msg
  | IndexError msg => msg
  end.

(** The move of a response, put together again. *)
Definition response_move (r : PredictResponse) : string :=
  (response_from r ++ response_to r
   ++ match response_promotion r with Some x => x | None => "" end)%string.

Section Service.
Context `{Chess}.
Variable Logits : Type.
Variable py_hash : string -> Z.
Variable softmax : Logits -> list pyfloat.

(** Readings of [time.time()], and [int((end_time - start_time) * 1000)]. *)
Variable Time : Type.
Variable milliseconds : Time -> Time -> Z.

(** The response both branches of [predict] build from a move in UCI
    notation: [move_uci[:2]], [move_uci[2:4]], and [move_uci[4:]] when the
    move is longer than four characters. *)
Definition respond (move_uci : string) (score : pyfloat) (pv : list string)
    (depth nodes thinking_time : Z) : PredictResponse :=
  let from_square := str_take 2 move_uci in
  let to_square := str_take (4 - 2) (str_drop 2 move_uci) in
  let promotion :=
    if (4 <? String.length move_uci)%nat then Some (str_drop 4 move_uci) else None in
  mkPredictResponse from_square to_square promotion score pv depth nodes thinking_time.

(** The fallback of [predict]: the minimax engine, whose exception the outer
    handler turns into a status 500. *)
Definition predict_minimax (fuel : nat) (fen : string) (start_time end_time : Time)
    (w : World) : Result HTTPException (PredictResponse * World) :=
  match get_best_move fuel fen w with
  | Ok (r, w') =>
      let thinking_time := milliseconds start_time end_time in
      Done (respond (move_uci r) (Num (score_pawns r)) (principal_variation r)
                    (depth_reached r) (nodes r) thinking_time, w')
  | Raise e =>
      Failed (mkHTTPException 500 ("Prediction failed: " ++ str e))
  | OutOfFuel => Unfinished
  end.

(** [predict], for a request with the position [fen].  [neural_net] is the
    module's global, [None] when no model file was found; [w] holds the
    module's engine and the random generator; [start_time] and [end_time] are
    the readings of the clock at entry and once the move is known.  An
    exception of [predict_move] is logged and otherwise dropped; it leaves
    the world as it was, the generator being used last. *)
Definition predict (neural_net : option (Model Logits)) (fuel : nat) (fen : string)
    (start_time end_time : Time) (w : World)
    : Result HTTPException (PredictResponse * World) :=
  match neural_net with
  | Some model =>
      match predict_move Logits py_hash softmax model fen w with
      | Done ((move_uci, score), w') =>
          let thinking_time := milliseconds start_time end_time in
          Done (respond move_uci score [move_uci] 0 0 thinking_time, w')
      | Failed _ => predict_minimax fuel fen start_time end_time w
      | Unfinished => Unfinished
      end
  | None => predict_minimax fuel fen start_time end_time w
  end.

End Service.

(** A network for the examples: three probabilities, one of them NaN. *)
Definition demo_model : Array3 -> option (list pyfloat * pyfloat) :=
  fun _ => Some ([Num (Fin (1 # 4)); NaN; Num (Fin (3 # 4))], Num (Fin (1 # 2))).

(** A network whose probabilities are all NaN. *)
Definition nan_model : Array3 -> option (list pyfloat * pyfloat) :=
  fun _ => Some ([NaN; NaN], Num (Fin (1 # 2))).

Definition demo_hash (s : string) : Z :=
  match s with
  | String a _ => Z.of_nat (Ascii.nat_of_ascii a) - 100
  | EmptyString => 0
  end.

Definition as_given (l : list pyfloat) : list pyfloat := l.

Definition demo_milliseconds (start_time end_time : Z) : Z := end_time - start_time.

(** A rules engine that knows one position, in which Black is mated. *)
Definition MATED_FEN : string := "R5k1/5ppp/8/8/8/8/8/7K b - - 0 1"%string.

Definition Endgames : Chess := TreeChess [ (MATED_FEN, mated_reply) ].

Definition endgame_world (depth : Z) : @World Endgames :=
  mkWorld depth 0 []
          (@mkBoard (@Position Endgames) (@Move Endgames) mated_reply [])
          (fun n => n) 0 [].

(** ** The calls the loops make

    Number of [board.push(move)] in a sequence of effects.  Each of the three
    calls of [_minimax] in the source (lines 83, 128 and 142) follows a
    [board.push(move)] of its loop, and nothing else pushes: the pushes count
    the calls made, at the places where they are made. *)
Fixpoint pushes (t : list Event) : Z :=
  match t with
  | [] => 0
  | PushMove :: t' => 1 + pushes t'
  | _ :: t' => pushes t'
  end.

(** Every push is followed at once by the activation it calls, which starts
    with the increment of the counter; no activation begins and the counter
    does not move anywhere else. *)
Fixpoint called_once_per_push (t : list Event) : bool :=
  match t with
  | [] => true
  | PushMove :: EnterSearch :: IncrNodes :: t' => called_once_per_push t'
  | PopMove :: t' => called_once_per_push t'
  | Evaluate :: t' => called_once_per_push t'
  | _ => false
  end.

(** * The rules of chess, computed

    A rules engine that plays real positions: a position is parsed from its
    FEN string and the legal moves are generated in the order of
    python-chess ([Board.generate_legal_moves]).  Castling is left out: a FEN
    string that grants castling rights is outside the engine's book, as are
    marks of promoted pieces and clocks that are not plain decimals. *)

Record ChessMove := mkMove {
  from_square : Square;
  to_square : Square;
  promotion : option PieceType
}.

Record Setup := mkSetup {
  placement_at : Square -> option Piece;
  side_to_move : Color;
  ep_square : option Square;
  halfmove_clock : nat
}.

Definition rank_of (s : Square) : Z := Z.of_nat (s / 8).
Definition file_of (s : Square) : Z := Z.of_nat (s mod 8).
Definition on_board (r f : Z) : bool := (0 <=? r) && (r <? 8) && (0 <=? f) && (f <? 8).
Definition square_at (r f : Z) : Square := Z.to_nat (8 * r + f).

(** The squares a step away, for the pieces that do not slide. *)
Definition jumps (s : Square) (steps : list (Z * Z)) : list Square :=
  flat_map (fun step =>
              let r := rank_of s + fst step in
              let f := file_of s + snd step in
              if on_board r f then [square_at r f] else [])
           steps.

(** The squares along a direction, up to and including the first occupied
    one. *)
Fixpoint slide (pl : Square -> option Piece) (r f dr df : Z) (n : nat) : list Square :=
  match n with
  | O => []
  | S n' =>
      let r' := r + dr in
      let f' := f + df in
      if on_board r' f'
      then square_at r' f'
             :: match pl (square_at r' f') with
                | Some _ => []
                | None => slide pl r' f' dr df n'
                end
      else []
  end.

Definition KNIGHT_STEPS : list (Z * Z) :=
  [(1, 2); (2, 1); (-1, 2); (-2, 1); (1, -2); (2, -1); (-1, -2); (-2, -1)].
Definition KING_STEPS : list (Z * Z) :=
  [(1, 0); (-1, 0); (0, 1); (0, -1); (1, 1); (1, -1); (-1, 1); (-1, -1)].
Definition BISHOP_DIRECTIONS : list (Z * Z) := [(1, 1); (1, -1); (-1, 1); (-1, -1)].
Definition ROOK_DIRECTIONS : list (Z * Z) := [(1, 0); (-1, 0); (0, 1); (0, -1)].

Definition slides (pl : Square -> option Piece) (s : Square) (dirs : list (Z * Z))
    : list Square :=
  flat_map (fun d => slide pl (rank_of s) (file_of s) (fst d) (snd d) 7) dirs.

(** The squares a pawn of a colour attacks from a square. *)
Definition pawn_attacks (c : Color) (s : Square) : list Square :=
  jumps s (if c then [(1, -1); (1, 1)] else [(-1, -1); (-1, 1)]).

(** [Board.attacks]: the squares attacked by the piece on a square. *)
Definition attacks (pl : Square -> option Piece) (s : Square) : list Square :=
  match pl s with
  | None => []
  | Some p =>
      match piece_type p with
      | PAWN => pawn_attacks (color p) s
      | KNIGHT => jumps s KNIGHT_STEPS
      | BISHOP => slides pl s BISHOP_DIRECTIONS
      | ROOK => slides pl s ROOK_DIRECTIONS
      | QUEEN => slides pl s (BISHOP_DIRECTIONS ++ ROOK_DIRECTIONS)
      | KING => jumps s KING_STEPS
      end
  end.

Definition mem (s : Square) (l : list Square) : bool := existsb (Nat.eqb s) l.

(** The order of [scan_reversed]: from h8 down to a1. *)
Definition DESCENDING : list Square := rev SQUARES.

Definition holds (pl : Square -> option Piece) (pt : PieceType) (c : Color) (s : Square)
    : bool :=
  match pl s with
  | Some p => PieceType_eqb (piece_type p) pt && Bool.eqb (color p) c
  | None => false
  end.

Definition held_by (pl : Square -> option Piece) (c : Color) (s : Square) : bool :=
  match pl s with
  | Some p => Bool.eqb (color p) c
  | None => false
  end.

Definition vacant (pl : Square -> option Piece) (s : Square) : bool :=
  match pl s with Some _ => false | None => true end.

(** [Board.is_attacked_by] *)
Definition is_attacked_by (pl : Square -> option Piece) (c : Color) (sq : Square) : bool :=
  existsb (fun s => if held_by pl c s then mem sq (attacks pl s) else false) SQUARES.

(** [Board.king] *)
Definition king_of (pl : Square -> option Piece) (c : Color) : option Square :=
  find (holds pl KING c) DESCENDING.

(** [Board.is_check] *)
Definition in_check (pos : Setup) : bool :=
  match king_of (placement_at pos) (side_to_move pos) with
  | Some k => is_attacked_by (placement_at pos) (negb (side_to_move pos)) k
  | None => false
  end.

Definition update (pl : Square -> option Piece) (s : Square) (x : option Piece)
    : Square -> option Piece :=
  fun t => if Nat.eqb t s then x else pl t.

(** [Board.push], for the moves [legal_moves] yields. *)
Definition play (m : ChessMove) (pos : Setup) : Setup :=
  let pl := placement_at pos in
  let us := side_to_move pos in
  match pl (from_square m) with
  | None => mkSetup pl (negb us) None (S (halfmove_clock pos))
  | Some p =>
      let is_pawn := PieceType_eqb (piece_type p) PAWN in
      let diff := Z.of_nat (to_square m) - Z.of_nat (from_square m) in
      let capture := negb (vacant pl (to_square m)) in
      let en_passant :=
        is_pawn && negb capture
        && match ep_square pos with Some e => Nat.eqb e (to_square m) | None => false end
        && ((Z.abs diff =? 7) || (Z.abs diff =? 9)) in
      let lifted := update pl (from_square m) None in
      let cleared :=
        if en_passant
        then update lifted (Z.to_nat (Z.of_nat (to_square m) - (if us then 8 else -8))) None
        else lifted in
      let placed :=
        mkPiece (match promotion m with Some pt => pt | None => piece_type p end) us in
      let ep :=
        if is_pawn && (diff =? 16) && (rank_of (from_square m) =? 1)
        then Some (from_square m + 8)%nat
        else if is_pawn && (diff =? -16) && (rank_of (from_square m) =? 6)
        then Some (from_square m - 8)%nat
        else None in
      mkSetup (update cleared (to_square m) (Some placed)) (negb us) ep
              (if is_pawn || capture then O else S (halfmove_clock pos))
  end.

Definition PROMOTIONS : list PieceType := [QUEEN; ROOK; BISHOP; KNIGHT].

(** A pawn move to a square, with the four promotions on a back rank. *)
Definition pawn_move (s t : Square) : list ChessMove :=
  if (rank_of t =? 0) || (rank_of t =? 7)
  then map (fun pt => mkMove s t (Some pt)) PROMOTIONS
  else [mkMove s t None].

Definition forward (us : Color) : Z := if us then 8 else -8.

(** The square a number of steps behind a square, if there is one. *)
Definition behind (us : Color) (steps : Z) (t : Square) : Square :=
  Z.to_nat (Z.of_nat t - steps * forward us).

Definition has_behind (us : Color) (steps : Z) (t : Square) : bool :=
  let s := Z.of_nat t - steps * forward us in (0 <=? s) && (s <? 64).

(** The moves of the pieces that are not pawns. *)
Definition piece_moves (pos : Setup) : list ChessMove :=
  let pl := placement_at pos in
  let us := side_to_move pos in
  flat_map (fun s =>
              if held_by pl us s && negb (holds pl PAWN us s)
              then let targets := attacks pl s in
                   map (fun t => mkMove s t None)
                       (filter (fun t => mem t targets && negb (held_by pl us t))
                               DESCENDING)
              else [])
           DESCENDING.

Definition pawn_captures (pos : Setup) : list ChessMove :=
  let pl := placement_at pos in
  let us := side_to_move pos in
  flat_map (fun s =>
              if holds pl PAWN us s
              then let targets := pawn_attacks us s in
                   flat_map (pawn_move s)
                            (filter (fun t => mem t targets && held_by pl (negb us) t)
                                    DESCENDING)
              else [])
           DESCENDING.

Definition single_targets (pos : Setup) : list Square :=
  let pl := placement_at pos in
  let us := side_to_move pos in
  filter (fun t => has_behind us 1 t && holds pl PAWN us (behind us 1 t) && vacant pl t)
         DESCENDING.

Definition single_moves (pos : Setup) : list ChessMove :=
  flat_map (fun t => pawn_move (behind (side_to_move pos) 1 t) t) (single_targets pos).

Definition double_targets (pos : Setup) : list Square :=
  let pl := placement_at pos in
  let us := side_to_move pos in
  let singles := single_targets pos in
  filter (fun t => has_behind us 1 t && mem (behind us 1 t) singles
                   && vacant pl t
                   && (if us then (rank_of t =? 2) || (rank_of t =? 3)
                       else (rank_of t =? 5) || (rank_of t =? 4)))
         DESCENDING.

Definition double_moves (pos : Setup) : list ChessMove :=
  map (fun t => mkMove (behind (side_to_move pos) 2 t) t None) (double_targets pos).

(** [Board.generate_pseudo_legal_ep] *)
Definition en_passant_moves (pos : Setup) : list ChessMove :=
  let pl := placement_at pos in
  let us := side_to_move pos in
  match ep_square pos with
  | None => []
  | Some O => []
  | Some e =>
      if vacant pl e
      then let capturers := pawn_attacks (negb us) e in
           map (fun s => mkMove s e None)
               (filter (fun s => holds pl PAWN us s && mem s capturers
                                 && (rank_of s =? (if us then 4 else 3)))
                       DESCENDING)
      else []
  end.

(** [Board.generate_pseudo_legal_moves], castling apart. *)
Definition pseudo_legal_moves (pos : Setup) : list ChessMove :=
  piece_moves pos ++ pawn_captures pos ++ single_moves pos ++ double_moves pos
  ++ en_passant_moves pos.

(** A move is safe when it does not leave the mover's king attacked. *)
Definition safe (pos : Setup) (m : ChessMove) : bool :=
  let next := play m pos in
  match king_of (placement_at next) (side_to_move pos) with
  | Some k => negb (is_attacked_by (placement_at next) (negb (side_to_move pos)) k)
  | None => true
  end.

Definition moves_the_king (pos : Setup) (m : ChessMove) : bool :=
  match king_of (placement_at pos) (side_to_move pos) with
  | Some k => Nat.eqb (from_square m) k
  | None => false
  end.

(** [Board.generate_legal_moves]: out of check the safe pseudo-legal moves in
    their order; in check ([_generate_evasions]) the king's moves first, then
    the captures of the checker and the interpositions. *)
Definition legal (pos : Setup) : list ChessMove :=
  let l := filter (safe pos) (pseudo_legal_moves pos) in
  if in_check pos
  then filter (moves_the_king pos) l ++ filter (fun m => negb (moves_the_king pos m)) l
  else l.

Definition no_moves (pos : Setup) : bool :=
  match legal pos with [] => true | _ :: _ => false end.

Definition checkmate (pos : Setup) : bool := in_check pos && no_moves pos.
Definition stalemate (pos : Setup) : bool := negb (in_check pos) && no_moves pos.

Definition count_held (pl : Square -> option Piece) (c : Color) : nat :=
  List.length (filter (held_by pl c) SQUARES).

Definition any_piece (pl : Square -> option Piece) (pt : PieceType) : bool :=
  existsb (fun s => holds pl pt WHITE s || holds pl pt BLACK s) SQUARES.

Definition dark (s : Square) : bool := Nat.even (s / 8 + s mod 8).

(** [Board.has_insufficient_material] *)
Definition has_insufficient_material (pl : Square -> option Piece) (c : Color) : bool :=
  if existsb (fun s => holds pl PAWN c s || holds pl ROOK c s || holds pl QUEEN c s) SQUARES
  then false
  else if existsb (holds pl KNIGHT c) SQUARES
  then (count_held pl c <=? 2)%nat
       && negb (existsb (fun s => held_by pl (negb c) s
                                  && negb (holds pl KING (negb c) s)
                                  && negb (holds pl QUEEN (negb c) s))
                        SQUARES)
  else if existsb (holds pl BISHOP c) SQUARES
  then (negb (existsb (fun s => dark s && (holds pl BISHOP WHITE s || holds pl BISHOP BLACK s))
                      SQUARES)
        || negb (existsb (fun s => negb (dark s)
                                   && (holds pl BISHOP WHITE s || holds pl BISHOP BLACK s))
                         SQUARES))
       && negb (any_piece pl PAWN) && negb (any_piece pl KNIGHT)
  else true.

Definition insufficient_material (pos : Setup) : bool :=
  has_insufficient_material (placement_at pos) WHITE
  && has_insufficient_material (placement_at pos) BLACK.

(** The position on a board: the root with the moves of the stack played,
    and the positions the board went through. *)
Definition setup_of (b : BoardOf Setup ChessMove) : Setup :=
  fold_right play (root b) (move_stack b).

Fixpoint history (start : Setup) (stack : list ChessMove) : list Setup :=
  match stack with
  | [] => [start]
  | _ :: earlier => fold_right play start stack :: history start earlier
  end.

Definition piece_eqb (a b : option Piece) : bool :=
  match a, b with
  | Some p, Some q => PieceType_eqb (piece_type p) (piece_type q) && Bool.eqb (color p) (color q)
  | None, None => true
  | _, _ => false
  end.

Definition legal_ep_square (pos : Setup) : option Square :=
  match filter (safe pos) (en_passant_moves pos) with
  | [] => None
  | _ :: _ => ep_square pos
  end.

(** Equality of positions as repetitions count them. *)
Definition same_position (a b : Setup) : bool :=
  if Bool.eqb (side_to_move a) (side_to_move b)
  then if forallb (fun s => piece_eqb (placement_at a s) (placement_at b s)) SQUARES
       then match legal_ep_square a, legal_ep_square b with
            | Some x, Some y => Nat.eqb x y
            | None, None => true
            | _, _ => false
            end
       else false
  else false.

(** [Board.is_fivefold_repetition]: the position has occurred five times,
    which takes at least four moves on the stack. *)
Definition fivefold_repetition (b : BoardOf Setup ChessMove) : bool :=
  if (List.length (move_stack b) <? 4)%nat then false
  else (5 <=? List.length (filter (same_position (setup_of b))
                                  (history (root b) (move_stack b))))%nat.

(** [Board.is_game_over] *)
Definition game_over (b : BoardOf Setup ChessMove) : bool :=
  let pos := setup_of b in
  if no_moves pos then true                       (* checkmate or stalemate *)
  else if insufficient_material pos then true
  else if (150 <=? halfmove_clock pos)%nat then true   (* seventy-five moves *)
  else fivefold_repetition b.

(** ** FEN strings and UCI notation *)

Definition piece_of_symbol (c : ascii) : option Piece :=
  if Ascii.eqb c "P" then Some (mkPiece PAWN WHITE)
  else if Ascii.eqb c "N" then Some (mkPiece KNIGHT WHITE)
  else if Ascii.eqb c "B" then Some (mkPiece BISHOP WHITE)
  else if Ascii.eqb c "R" then Some (mkPiece ROOK WHITE)
  else if Ascii.eqb c "Q" then Some (mkPiece QUEEN WHITE)
  else if Ascii.eqb c "K" then Some (mkPiece KING WHITE)
  else if Ascii.eqb c "p" then Some (mkPiece PAWN BLACK)
  else if Ascii.eqb c "n" then Some (mkPiece KNIGHT BLACK)
  else if Ascii.eqb c "b" then Some (mkPiece BISHOP BLACK)
  else if Ascii.eqb c "r" then Some (mkPiece ROOK BLACK)
  else if Ascii.eqb c "q" then Some (mkPiece QUEEN BLACK)
  else if Ascii.eqb c "k" then Some (mkPiece KING BLACK)
  else None.

(** The value of a decimal digit. *)
Definition digit_of (c : ascii) : option nat :=
  let n := nat_of_ascii c in
  if (48 <=? n)%nat && (n <=? 57)%nat then Some (n - 48)%nat else None.

(** One row of the board part: the squares from file a to file h.  Two
    digits in a row are refused, as is a row that does not fill eight
    files. *)
Fixpoint parse_row (row : list ascii) (previous_was_digit : bool)
    : option (list (option Piece)) :=
  match row with
  | [] => Some []
  | c :: rest =>
      match piece_of_symbol c with
      | Some p =>
          match parse_row rest false with
          | Some l => Some (Some p :: l)
          | None => None
          end
      | None =>
          match digit_of c with
          | Some n =>
              if (1 <=? n)%nat && (n <=? 8)%nat && negb previous_was_digit
              then match parse_row rest true with
                   | Some l => Some (repeat None n ++ l)
                   | None => None
                   end
              else None
          | None => None
          end
      end
  end.

(** [str.split] on a separator. *)
Fixpoint split_on (sep : ascii) (s : list ascii) (current : list ascii)
    : list (list ascii) :=
  match s with
  | [] => [rev current]
  | c :: rest =>
      if Ascii.eqb c sep then rev current :: split_on sep rest []
      else split_on sep rest (c :: current)
  end.

Fixpoint parse_rows (rows : list (list ascii)) : option (list (list (option Piece))) :=
  match rows with
  | [] => Some []
  | row :: rest =>
      match parse_row row false, parse_rows rest with
      | Some l, Some ls => if (List.length l =? 8)%nat then Some (l :: ls) else None
      | _, _ => None
      end
  end.

(** The board part: eight rows, from rank 8 down to rank 1. *)
Definition parse_board (part : list ascii) : option (Square -> option Piece) :=
  match parse_rows (split_on "/" part []) with
  | Some rows =>
      if (List.length rows =? 8)%nat
      then let squares := List.concat (rev rows) in Some (fun s => nth s squares None)
      else None
  | None => None
  end.

Definition parse_turn (part : list ascii) : option Color :=
  match part with
  | [c] => if Ascii.eqb c "w" then Some WHITE else if Ascii.eqb c "b" then Some BLACK else None
  | _ => None
  end.

(** The en passant part: [-] or the name of a square. *)
Definition parse_ep (part : list ascii) : option (option Square) :=
  match part with
  | [c] => if Ascii.eqb c "-" then Some None else None
  | [f; r] =>
      let fi := nat_of_ascii f in
      let ri := nat_of_ascii r in
      if (97 <=? fi)%nat && (fi <=? 104)%nat && (49 <=? ri)%nat && (ri <=? 56)%nat
      then Some (Some (8 * (ri - 49) + (fi - 97))%nat)
      else None
  | _ => None
  end.

Fixpoint parse_number (part : list ascii) (acc : nat) : option nat :=
  match part with
  | [] => Some acc
  | c :: rest =>
      match digit_of c with
      | Some d => parse_number rest (10 * acc + d)
      | None => None
      end
  end.

Definition parse_clock (part : list ascii) : option nat :=
  match part with
  | [] => None
  | _ :: _ => parse_number part 0
  end.

(** [chess.Board(fen)]: the six parts of a FEN string, of which all but the
    first can be missing; the castling part has to be [-]. *)
Definition parse_fen (fen : string) : option Setup :=
  let parts := filter (fun p => negb (Nat.eqb (List.length p) 0))
                      (split_on " " (list_ascii_of_string fen) []) in
  match parts with
  | board_part :: rest =>
      match parse_board board_part with
      | None => None
      | Some pl =>
          let turn := match rest with t :: _ => parse_turn t | [] => Some WHITE end in
          let castling :=
            match rest with
            | _ :: c :: _ => match c with [d] => Ascii.eqb d "-" | _ => false end
            | _ => true
            end in
          let ep := match rest with _ :: _ :: e :: _ => parse_ep e | _ => Some None end in
          let halfmove :=
            match rest with _ :: _ :: _ :: h :: _ => parse_clock h | _ => Some O end in
          let fullmove :=
            match rest with _ :: _ :: _ :: _ :: f :: _ => parse_clock f | _ => Some 1%nat end in
          match turn, ep, halfmove, fullmove with
          | Some t, Some e, Some h, Some _ =>
              if castling && (List.length rest <=? 5)%nat then Some (mkSetup pl t e h)
              else None
          | _, _, _, _ => None
          end
      end
  | [] => None
  end.

Definition square_name (s : Square) : string :=
  String (ascii_of_nat (97 + s mod 8)) (String (ascii_of_nat (49 + s / 8)) EmptyString).

Definition promotion_symbol (pt : PieceType) : string :=
  match pt with
  | PAWN => "p" | KNIGHT => "n" | BISHOP => "b" | ROOK => "r" | QUEEN => "q" | KING => "k"
  end%string.

(** [Move.uci] *)
Definition move_to_uci (m : ChessMove) : string :=
  (square_name (from_square m) ++ square_name (to_square m)
   ++ match promotion m with Some pt => promotion_symbol pt | None => "" end)%string.

(** The rules engine. *)
Definition Rules : Chess :=
  {| Position := Setup;
     Move := ChessMove;
     from_fen := parse_fen;
     uci := move_to_uci;
     legal_moves := fun b => legal (setup_of b);
     is_game_over := game_over;
     is_checkmate := fun b => checkmate (setup_of b);
     is_stalemate := fun b => stalemate (setup_of b);
     is_insufficient_material := fun b => insufficient_material (setup_of b);
     turn := fun b => side_to_move (setup_of b);
     piece_at := fun b => placement_at (setup_of b) |}.

(** The position of a FEN string the engine accepts. *)
Definition setup_at (fen : string) : Setup :=
  match parse_fen fen with
  | Some pos => pos
  | None => mkSetup (fun _ => None) WHITE None 0
  end.

(** White, in check from the queen on b2, has the single move Kxb2, which
    leaves the two kings alone on the board. *)
Definition BARE_KINGS_FEN : string := "7k/8/8/8/8/8/1q6/K7 w - - 0 1"%string.

(** A blocked pawn ending, Black to move: only the kings can move. *)
Definition LOCKED_FEN : string := "k7/1p1K4/1Pp5/2P5/8/p7/P7/8 b - - 0 1"%string.

(** An engine configured with [depth], on the rules engine. *)
Definition rules_world (depth : Z) : @World Rules :=
  mkWorld depth 17 ["e2e4"%string]
          (@mkBoard (@Position Rules) (@Move Rules) (setup_at MATE_FEN) [])
          (fun n => n) 0 [].

(** Two lists of names are the same. *)
Fixpoint same_names (l1 l2 : list string) : bool :=
  match l1, l2 with
  | [], [] => true
  | a :: l1', b :: l2' => String.eqb a b && same_names l1' l2'
  | _, _ => false
  end.

(** The rules engine and a position written out as a tree agree, down to
    [d] moves from the position: the pieces, the side to move, the check and
    material status and the legal moves in their order. *)
Fixpoint agrees (d : nat) (pos : Setup) (t : GameTree) : bool :=
  match t with
  | Node c chk dead pl replies =>
      Bool.eqb (side_to_move pos) c
      && Bool.eqb (in_check pos) chk
      && Bool.eqb (insufficient_material pos) dead
      && forallb (fun s => piece_eqb (placement_at pos s) (pl s)) SQUARES
      && same_names (map move_to_uci (legal pos)) (map fst replies)
      && match d with
         | O => true
         | S d' =>
             forallb (fun m =>
                        match find_reply (move_to_uci m) replies with
                        | Some child => agrees d' (play m pos) child
                        | None => false
                        end)
                     (legal pos)
         end
  end.

(** The tuple [get_best_move] returns, when it returns. *)
Definition result_reported `{Chess} (fuel : nat) (fen : string) (w : World)
    : option SearchResult :=
  match get_best_move fuel fen w with
  | Ok (r, _) => Some r
  | _ => None
  end.

(** * Properties *)

Section EngineFacts.
Context `{Chess}.
Arguments Z.add : simpl never.
Arguments Z.sub : simpl never.
Arguments Z.mul : simpl never.

(** ** Scores *)

Lemma score_eq_iff (a b : score) :
  a = b <-> rank a = rank b /\ finite_part a = finite_part b.
Proof.
  split; [intros ->; auto|].
  destruct a, b; simpl; intros [? ?]; try lia; congruence.
Qed.

Lemma smax_cases (a b : score) :
  (slt a b = true /\ smax a b = b) \/ (slt a b = false /\ smax a b = a).
Proof. unfold smax; destruct (slt a b); auto. Qed.

Lemma smin_cases (a b : score) :
  (slt b a = true /\ smin a b = b) \/ (slt b a = false /\ smin a b = a).
Proof. unfold smin; destruct (slt b a); auto. Qed.

Ltac split_maxmin :=
  repeat match goal with
  | |- context [smax ?a ?b] =>
      let E := fresh in destruct (smax_cases a b) as [[? E]|[? E]]; rewrite E in *; clear E
  | H : context [smax ?a ?b] |- _ =>
      let E := fresh in destruct (smax_cases a b) as [[? E]|[? E]]; rewrite E in *; clear E
  | |- context [smin ?a ?b] =>
      let E := fresh in destruct (smin_cases a b) as [[? E]|[? E]]; rewrite E in *; clear E
  | H : context [smin ?a ?b] |- _ =>
      let E := fresh in destruct (smin_cases a b) as [[? E]|[? E]]; rewrite E in *; clear E
  end.

(** Decides a statement about the order of a few scores: case analysis on
    each score, arithmetic on the finite parts. *)
Ltac score_order :=
  unfold within in *;
  split_maxmin;
  unfold sle in *;
  rewrite ?score_eq_iff in *;
  repeat match goal with
  | x : score |- _ =>
      destruct x; cbn [slt negb rank finite_part sneg] in *;
      try discriminate; try (exfalso; intuition discriminate)
  end;
  rewrite ?negb_true_iff, ?Z.ltb_lt, ?Z.ltb_ge in *;
  try lia; intuition (try discriminate; try lia).

Lemma slt_irrefl (a : score) : slt a a = false.
Proof. destruct a; simpl; auto using Z.ltb_irrefl. Qed.

Lemma sle_refl (a : score) : sle a a = true.
Proof. unfold sle. now rewrite slt_irrefl. Qed.

Lemma sle_NegInf (a : score) : sle NegInf a = true.
Proof. destruct a; reflexivity. Qed.

Lemma sle_PosInf (a : score) : sle a PosInf = true.
Proof. destruct a; reflexivity. Qed.

Lemma smax_assoc (a b c : score) : smax (smax a b) c = smax a (smax b c).
Proof. score_order. Qed.

Lemma smin_assoc (a b c : score) : smin (smin a b) c = smin a (smin b c).
Proof. score_order. Qed.

Lemma smax_NegInf_l (a : score) : smax NegInf a = a.
Proof. destruct a; reflexivity. Qed.

Lemma smin_PosInf_l (a : score) : smin PosInf a = a.
Proof. destruct a; reflexivity. Qed.

Lemma sle_smax_l (a b : score) : sle a (smax a b) = true.
Proof. score_order. Qed.

Lemma sle_smin_l (a b : score) : sle (smin a b) a = true.
Proof. score_order. Qed.

Lemma sle_trans (a b c : score) : sle a b = true -> sle b c = true -> sle a c = true.
Proof. intros; score_order. Qed.

Lemma sle_smax_mono_l (x v w : score) : sle x v = true -> sle x (smax v w) = true.
Proof. intros; score_order. Qed.

Lemma sle_smax_mono_r (x v w : score) : sle x w = true -> sle x (smax v w) = true.
Proof. intros; score_order. Qed.

Lemma smin_sle_mono_l (x v w : score) : sle v x = true -> sle (smin v w) x = true.
Proof. intros; score_order. Qed.

Lemma smin_sle_mono_r (x v w : score) : sle w x = true -> sle (smin v w) x = true.
Proof. intros; score_order. Qed.

(** *** The window relation *)

Lemma within_refl (alpha beta v : score) : within alpha beta v v.
Proof. unfold within; auto. Qed.

Lemma within_full_window (v r : score) : within NegInf PosInf v r -> r = v.
Proof. intros; score_order. Qed.

Lemma within_above (a beta v r : score) :
  slt a beta = true -> sle beta v = true -> sle beta r = true -> within a beta v r.
Proof. intros; score_order. Qed.

Lemma within_below (alpha b v r : score) :
  slt alpha b = true -> sle v alpha = true -> sle r alpha = true -> within alpha b v r.
Proof. intros; score_order. Qed.

(** A child searched with window [(a, beta)] that triggers the beta cutoff. *)
Lemma child_beta_cutoff (a beta v r : score) :
  slt a beta = true -> within a beta v r -> sle beta (smax a r) = true ->
  sle beta r = true /\ sle beta v = true.
Proof. intros; score_order. Qed.

(** A child that does not: it is below the window or exact. *)
Lemma child_no_beta_cutoff (a beta v r : score) :
  slt a beta = true -> within a beta v r -> sle beta (smax a r) = false ->
  (sle v a = true /\ smax a r = a) \/
  (slt a v = true /\ slt v beta = true /\ r = v /\ smax a r = v).
Proof. intros; score_order. Qed.

Lemma child_alpha_cutoff (alpha b v r : score) :
  slt alpha b = true -> within alpha b v r -> sle (smin b r) alpha = true ->
  sle r alpha = true /\ sle v alpha = true.
Proof. intros; score_order. Qed.

Lemma child_no_alpha_cutoff (alpha b v r : score) :
  slt alpha b = true -> within alpha b v r -> sle (smin b r) alpha = false ->
  (sle b v = true /\ smin b r = b) \/
  (slt v b = true /\ slt alpha v = true /\ r = v /\ smin b r = v).
Proof. intros; score_order. Qed.

Lemma within_skip_low (v a beta V R : score) :
  sle v a = true -> slt a beta = true ->
  within a beta V R -> within a beta (smax v V) R.
Proof. intros; score_order. Qed.

Lemma within_raise_alpha (a v beta V R : score) :
  slt a v = true -> slt v beta = true -> sle v R = true ->
  within v beta V R -> within a beta (smax v V) R.
Proof. intros; score_order. Qed.

Lemma within_skip_high (v alpha b V R : score) :
  sle b v = true -> slt alpha b = true ->
  within alpha b V R -> within alpha b (smin v V) R.
Proof. intros; score_order. Qed.

Lemma within_lower_beta (alpha v b V R : score) :
  slt v b = true -> slt alpha v = true -> sle R v = true ->
  within alpha v V R -> within alpha b (smin v V) R.
Proof. intros; score_order. Qed.

(** ** Boards and worlds *)

Lemma board_eta (b : Board) : mkBoard (root b) (move_stack b) = b.
Proof. destruct b; reflexivity. Qed.

Lemma pop_push (m : Move) (b : Board) : pop_move (push_move m b) = Some (m, b).
Proof. unfold pop_move, push_move; simpl. now rewrite board_eta. Qed.

Lemma increments_app (t1 t2 : list Event) :
  increments (t1 ++ t2) = increments t1 + increments t2.
Proof.
  induction t1 as [|e t1 IH]; [reflexivity|].
  destruct e; cbn [app increments activations]; rewrite IH; lia.
Qed.

Lemma after_nil (w : World) : after [] w = w.
Proof.
  destruct w; unfold after; simpl. now rewrite Z.add_0_r, app_nil_r.
Qed.

Lemma after_app (t1 t2 : list Event) (w : World) :
  after t2 (after t1 w) = after (t1 ++ t2) w.
Proof.
  unfold after; simpl. now rewrite increments_app, Z.add_assoc, app_assoc.
Qed.

Lemma the_board_after (t : list Event) (w : World) : the_board (after t w) = the_board w.
Proof. reflexivity. Qed.

(** Pushing a move, running an activation that leaves [t] behind, and
    popping: the net effect on the world. *)
Lemma pop_after_push (m : Move) (t : list Event) (w : World) :
  board_pop (after t (log PushMove (with_board (push_move m (the_board w)) w)))
  = Ok (m, after (PushMove :: t ++ [PopMove]) w).
Proof.
  unfold board_pop. rewrite the_board_after. simpl the_board. rewrite pop_push.
  destruct w; unfold after, log, with_board; simpl.
  rewrite increments_app; simpl.
  do 2 f_equal. f_equal; [lia|].
  now rewrite <- !app_assoc.
Qed.

(** ** The effectful search computes the functional one *)

Section Loops.
Variable rec_m : Z -> score -> score -> bool -> M score.
Variable rec_f : Board -> score -> score -> bool -> score * list Event.
Variable depth : Z.
Hypothesis rec_run : forall alpha beta mx w,
  rec_m (depth - 1) alpha beta mx w
  = Ok (fst (rec_f (the_board w) alpha beta mx),
        after (snd (rec_f (the_board w) alpha beta mx)) w).

Lemma max_loop_run (beta : score) (moves : list Move) :
  forall max_eval alpha w,
    max_loop rec_m depth beta moves max_eval alpha w
    = Ok (fst (max_model rec_f (the_board w) beta moves max_eval alpha),
          after (snd (max_model rec_f (the_board w) beta moves max_eval alpha)) w).
Proof.
  induction moves as [|move rest IH]; intros max_eval alpha w; simpl.
  - unfold ret. now rewrite after_nil.
  - unfold bind at 1. unfold board_push at 1.
    unfold bind at 1. rewrite rec_run. simpl the_board.
    unfold bind at 1. rewrite pop_after_push.
    destruct (sle beta _); simpl.
    + reflexivity.
    + rewrite IH, the_board_after, after_app. reflexivity.
Qed.

Lemma min_loop_run (alpha : score) (moves : list Move) :
  forall min_eval beta w,
    min_loop rec_m depth alpha moves min_eval beta w
    = Ok (fst (min_model rec_f (the_board w) alpha moves min_eval beta),
          after (snd (min_model rec_f (the_board w) alpha moves min_eval beta)) w).
Proof.
  induction moves as [|move rest IH]; intros min_eval beta w; simpl.
  - unfold ret. now rewrite after_nil.
  - unfold bind at 1. unfold board_push at 1.
    unfold bind at 1. rewrite rec_run. simpl the_board.
    unfold bind at 1. rewrite pop_after_push.
    destruct (sle _ alpha); simpl.
    + reflexivity.
    + rewrite IH, the_board_after, after_app. reflexivity.
Qed.

End Loops.

Lemma enter_and_count (t : list Event) (w : World) :
  after t (log IncrNodes (with_nodes_searched (self_nodes_searched (log EnterSearch w) + 1)
                                              (log EnterSearch w)))
  = after (EnterSearch :: IncrNodes :: t) w.
Proof.
  destruct w; unfold after, log, with_nodes_searched; simpl.
  f_equal; [lia|]. now rewrite <- !app_assoc.
Qed.

Theorem _minimax_run (fuel : nat) :
  forall depth alpha beta maximizing w,
    0 <= depth -> (Z.to_nat depth < fuel)%nat ->
    _minimax fuel depth alpha beta maximizing w
    = Ok (fst (search_model (Z.to_nat depth) (the_board w) alpha beta maximizing),
          after (snd (search_model (Z.to_nat depth) (the_board w) alpha beta maximizing)) w).
Proof.
  induction fuel as [|fuel IH]; intros depth alpha beta mx w Hd Hf; [lia|].
  cbn [_minimax].
  unfold bind at 1, enter_search at 1.
  unfold bind at 1, incr_nodes_searched at 1.
  unfold bind at 1, get_board at 1.
  cbn [the_board log with_nodes_searched].
  destruct (Z.eqb_spec depth 0) as [->|Hnz].
  - simpl. unfold call_evaluate. do 2 f_equal.
    destruct w; unfold after, log, with_nodes_searched; simpl.
    f_equal. now rewrite <- !app_assoc.
  - replace (Z.to_nat depth) with (S (Z.to_nat (depth - 1))) by lia.
    cbn [orb search_model].
    destruct (is_game_over (the_board w)) eqn:Hover.
    + unfold call_evaluate. do 2 f_equal.
      destruct w; unfold after, log, with_nodes_searched; simpl.
      f_equal. now rewrite <- !app_assoc.
    + assert (Hrec : forall a b m w',
                 _minimax fuel (depth - 1) a b m w'
                 = Ok (fst (search_model (Z.to_nat (depth - 1)) (the_board w') a b m),
                       after (snd (search_model (Z.to_nat (depth - 1)) (the_board w') a b m)) w'))
        by (intros; apply IH; lia).
      destruct mx.
      * rewrite (max_loop_run _ _ _ Hrec). cbn [the_board log with_nodes_searched fst snd].
        now rewrite enter_and_count.
      * rewrite (min_loop_run _ _ _ Hrec). cbn [the_board log with_nodes_searched fst snd].
        now rewrite enter_and_count.
Qed.

(** The root loop, given a recursive search that behaves like [rec_f]. *)
Lemma root_loop_run (rec_m : Z -> score -> score -> bool -> M score)
    (rec_f : Board -> score -> score -> bool -> score * list Event) (depth : Z)
    (rec_run : forall alpha beta mx w,
        rec_m (depth - 1) alpha beta mx w
        = Ok (fst (rec_f (the_board w) alpha beta mx),
              after (snd (rec_f (the_board w) alpha beta mx)) w))
    (moves : list Move) :
  forall best_move best_score alpha beta w,
    self_depth w = depth ->
    root_loop rec_m moves best_move best_score alpha beta w
    = Ok (fst (root_model rec_f (the_board w) moves best_move best_score alpha beta),
          after (snd (root_model rec_f (the_board w) moves best_move best_score alpha beta)) w).
Proof.
  induction moves as [|move rest IH]; intros best_move best_score alpha beta w Hd; simpl.
  - unfold ret. now rewrite after_nil.
  - unfold bind at 1, board_push at 1.
    unfold bind at 1, get_depth at 1. cbn [self_depth log with_board]. rewrite Hd.
    unfold bind at 1. rewrite rec_run. cbn [the_board log with_board].
    unfold bind at 1. rewrite pop_after_push.
    destruct (slt best_score _); cbn [fst snd];
      rewrite IH by exact Hd; rewrite the_board_after, after_app; reflexivity.
Qed.

Lemma root_loop_of_get_best_move (fuel : nat) (p : Position) (w : World) :
  1 <= self_depth w -> (Z.to_nat (self_depth w) <= fuel)%nat ->
  root_loop (_minimax fuel) (legal_moves (new_board p)) None NegInf NegInf PosInf
            (entry_world p w)
  = Ok (fst (root_search (self_depth w) p),
        after (snd (root_search (self_depth w) p)) (entry_world p w)).
Proof.
  intros Hd Hf.
  apply (root_loop_run (_minimax fuel) (search_model (Z.to_nat (self_depth w - 1)))
                       (self_depth w)); [|reflexivity].
  intros; apply _minimax_run; lia.
Qed.

(** [get_best_move] up to its root loop. *)
Lemma get_best_move_unfold (fuel : nat) (fen : string) (p : Position) (w : World) :
  from_fen fen = Some p ->
  is_game_over (new_board p) = false ->
  legal_moves (new_board p) <> [] ->
  get_best_move fuel fen w
  = match root_loop (_minimax fuel) (legal_moves (new_board p)) None NegInf NegInf PosInf
                    (entry_world p w) with
    | Ok ((Some best_move, best_score), w1) =>
        Ok (mkResult (uci best_move) (to_pawns best_score) (self_depth w1)
                     (self_nodes_searched w1) [uci best_move], w1)
    | Ok ((None, _), w1) =>
        match random_choice (legal_moves (new_board p)) w1 with
        | Ok (best_move, w2) =>
            Ok (mkResult (uci best_move) (to_pawns (Fin 0)) (self_depth w2)
                         (self_nodes_searched w2) [uci best_move], w2)
        | Raise e => Raise e
        | OutOfFuel => OutOfFuel
        end
    | Raise e => Raise e
    | OutOfFuel => OutOfFuel
    end.
Proof.
  intros Hfen Hover Hmoves.
  unfold get_best_move.
  unfold bind at 1, chess_Board at 1. rewrite Hfen.
  unfold bind at 1, set_nodes_searched at 1.
  unfold bind at 1, set_pv at 1.
  unfold bind at 1, get_board at 1.
  fold (entry_world p w).
  change (the_board (entry_world p w)) with (new_board p).
  rewrite Hover.
  destruct (legal_moves (new_board p)) as [|m0 rest] eqn:Hm; [congruence|].
  unfold bind at 1.
  destruct (root_loop _ _ _ _ _ _ _) as [[[[best|] bs] w1]|e|]; try reflexivity.
  unfold bind.
  destruct (random_choice _ w1) as [[bm w2]|e|]; reflexivity.
Qed.

(** ** Alpha-beta against unpruned minimax *)

Lemma fold_smax_from {A} (f : A -> score) (l : list A) (x : score) :
  fold_left (fun best m => smax best (f m)) l x
  = smax x (fold_left (fun best m => smax best (f m)) l NegInf).
Proof.
  revert x; induction l as [|m l IH]; intros x; simpl.
  - destruct x; reflexivity.
  - rewrite IH, (IH (smax NegInf (f m))), smax_NegInf_l. apply smax_assoc.
Qed.

Lemma fold_smin_from {A} (f : A -> score) (l : list A) (x : score) :
  fold_left (fun best m => smin best (f m)) l x
  = smin x (fold_left (fun best m => smin best (f m)) l PosInf).
Proof.
  revert x; induction l as [|m l IH]; intros x; simpl.
  - destruct x; reflexivity.
  - rewrite IH, (IH (smin PosInf (f m))), smin_PosInf_l. apply smin_assoc.
Qed.

Section LoopsSound.
Variable rec_f : Board -> score -> score -> bool -> score * list Event.
Variable exact : Board -> bool -> score.
Variable board : Board.
Hypothesis rec_sound : forall b a beta mx,
  slt a beta = true -> within a beta (exact b mx) (fst (rec_f b a beta mx)).

Lemma max_model_sound (beta : score) (moves : list Move) :
  forall max_eval alpha,
    slt alpha beta = true -> sle max_eval alpha = true ->
    sle max_eval (fst (max_model rec_f board beta moves max_eval alpha)) = true /\
    within alpha beta
      (fold_left (fun best m => smax best (exact (push_move m board) false)) moves NegInf)
      (fst (max_model rec_f board beta moves max_eval alpha)).
Proof.
  induction moves as [|m rest IH]; intros M a Ha HM.
  - simpl. split; [apply sle_refl|].
    apply within_below; auto using sle_NegInf.
  - cbn [fold_left max_model].
    rewrite fold_smax_from, smax_NegInf_l.
    pose proof (rec_sound (push_move m board) a beta false Ha) as H1.
    set (v1 := exact (push_move m board) false) in *.
    set (r1 := fst (rec_f (push_move m board) a beta false)) in *.
    destruct (sle beta (smax a r1)) eqn:Hcut; cbn [fst].
    + destruct (child_beta_cutoff _ _ _ _ Ha H1 Hcut) as [Hr Hv].
      split; [apply sle_smax_l|].
      apply within_above; auto using sle_smax_mono_l, sle_smax_mono_r.
    + assert (Ha' : slt (smax a r1) beta = true)
        by (unfold sle in Hcut; now apply negb_false_iff in Hcut).
      assert (HM' : sle (smax M r1) (smax a r1) = true)
        by (clearbody r1; clear - HM; score_order).
      destruct (IH _ _ Ha' HM') as [IH1 IH2].
      set (R := fst (max_model _ _ _ _ _ _)) in *. clearbody R.
      split; [eapply sle_trans; [apply sle_smax_l|exact IH1]|].
      destruct (child_no_beta_cutoff _ _ _ _ Ha H1 Hcut)
        as [[Hlow Ea]|(Hav & Hvb & Er & Ea)]; rewrite Ea in IH2.
      * now apply within_skip_low.
      * apply within_raise_alpha; auto.
        eapply sle_trans; [|exact IH1]. rewrite Er.
        apply sle_smax_mono_r, sle_refl.
Qed.

Lemma min_model_sound (alpha : score) (moves : list Move) :
  forall min_eval beta,
    slt alpha beta = true -> sle beta min_eval = true ->
    sle (fst (min_model rec_f board alpha moves min_eval beta)) min_eval = true /\
    within alpha beta
      (fold_left (fun best m => smin best (exact (push_move m board) true)) moves PosInf)
      (fst (min_model rec_f board alpha moves min_eval beta)).
Proof.
  induction moves as [|m rest IH]; intros M b Hb HM.
  - simpl. split; [apply sle_refl|].
    apply within_above; auto using sle_PosInf.
  - cbn [fold_left min_model].
    rewrite fold_smin_from, smin_PosInf_l.
    pose proof (rec_sound (push_move m board) alpha b true Hb) as H1.
    set (v1 := exact (push_move m board) true) in *.
    set (r1 := fst (rec_f (push_move m board) alpha b true)) in *.
    destruct (sle (smin b r1) alpha) eqn:Hcut; cbn [fst].
    + destruct (child_alpha_cutoff _ _ _ _ Hb H1 Hcut) as [Hr Hv].
      split; [apply sle_smin_l|].
      apply within_below; auto using smin_sle_mono_l, smin_sle_mono_r.
    + assert (Hb' : slt alpha (smin b r1) = true)
        by (unfold sle in Hcut; now apply negb_false_iff in Hcut).
      assert (HM' : sle (smin b r1) (smin M r1) = true)
        by (clearbody r1; clear - HM; score_order).
      destruct (IH _ _ Hb' HM') as [IH1 IH2].
      set (R := fst (min_model _ _ _ _ _ _)) in *. clearbody R.
      split; [eapply sle_trans; [exact IH1|apply sle_smin_l]|].
      destruct (child_no_alpha_cutoff _ _ _ _ Hb H1 Hcut)
        as [[Hhigh Eb]|(Hvb & Hav & Er & Eb)]; rewrite Eb in IH2.
      * now apply within_skip_high.
      * apply within_lower_beta; auto.
        eapply sle_trans; [exact IH1|]. rewrite Er.
        apply smin_sle_mono_r, sle_refl.
Qed.

End LoopsSound.

(** Whatever the window, the functional search stands for the unpruned
    minimax value of the node. *)
Lemma search_model_sound (d : nat) :
  forall board alpha beta maximizing,
    slt alpha beta = true ->
    within alpha beta (full_minimax d board maximizing)
           (fst (search_model d board alpha beta maximizing)).
Proof.
  induction d as [|d IH]; intros board alpha beta mx Hw; cbn [search_model full_minimax].
  - apply within_refl.
  - destruct (is_game_over board); [apply within_refl|].
    destruct mx; cbn [fst].
    + apply (max_model_sound (search_model d) (full_minimax d) board IH);
        auto using sle_NegInf.
    + apply (min_model_sound (search_model d) (full_minimax d) board IH);
        auto using sle_PosInf.
Qed.

(** ** The effects of a search *)

Lemma counted_on_entry_app (t1 t2 : list Event) :
  forall pending, counted_on_entry pending t1 = true ->
    counted_on_entry pending (t1 ++ t2) = counted_on_entry false t2.
Proof.
  induction t1 as [|e t1 IH]; intros pending Ht.
  - destruct pending; [discriminate|reflexivity].
  - destruct e, pending; simpl in *; try discriminate; auto.
Qed.

Lemma counted_increments (t : list Event) :
  forall pending, counted_on_entry pending t = true ->
    increments t = activations t + (if pending then 1 else 0).
Proof.
  induction t as [|e t IH]; intros pending Ht.
  - destruct pending; [discriminate|reflexivity].
  - destruct e, pending; simpl in *; try discriminate;
      rewrite (IH _ Ht); lia.
Qed.

Lemma balanced_app (t1 t2 : list Event) :
  forall j k, balanced j t1 = true -> balanced (j + k) (t1 ++ t2) = balanced k t2.
Proof.
  induction t1 as [|e t1 IH]; intros j k Ht.
  - simpl in *. apply Nat.eqb_eq in Ht. now subst.
  - destruct e; simpl in *; auto.
    + apply (IH (S j) k Ht).
    + destruct j; [discriminate|]. apply (IH j k Ht).
Qed.

Lemma balanced_visit (t : list Event) :
  balanced 0 t = true -> balanced 0 (PushMove :: t ++ [PopMove]) = true.
Proof.
  intros Ht. cbn [balanced].
  assert (E : forall j, balanced j t = true -> balanced (S j) (t ++ [PopMove]) = true).
  { clear. induction t as [|e t IH]; intros j Hj.
    - simpl in *. apply Nat.eqb_eq in Hj. now subst.
    - destruct e; simpl in *; auto. destruct j; [discriminate|auto]. }
  now apply E.
Qed.

Lemma counted_visit (t : list Event) :
  counted_on_entry false t = true ->
  counted_on_entry false (PushMove :: t ++ [PopMove]) = true.
Proof.
  intros Ht. cbn [counted_on_entry negb andb].
  now rewrite (counted_on_entry_app _ _ _ Ht).
Qed.

Lemma increments_nonneg (t : list Event) : 0 <= increments t.
Proof. induction t as [|[] t IH]; simpl; lia. Qed.

Lemma clean_visit_then (t1 t2 : list Event) :
  clean t1 ->
  counted_on_entry false t2 = true -> balanced 0 t2 = true ->
  counted_on_entry false ((PushMove :: t1 ++ [PopMove]) ++ t2) = true /\
  balanced 0 ((PushMove :: t1 ++ [PopMove]) ++ t2) = true.
Proof.
  intros (Hc & Hb & _) Hc2 Hb2. split.
  - now rewrite (counted_on_entry_app _ _ _ (counted_visit _ Hc)).
  - pose proof (balanced_app _ t2 0 0 (balanced_visit _ Hb)) as E.
    cbn [Nat.add] in E. now rewrite E.
Qed.

Section LoopsEffects.
Variable rec_f : Board -> score -> score -> bool -> score * list Event.
Hypothesis rec_clean : forall b a beta mx, clean (snd (rec_f b a beta mx)).

Lemma max_model_effects (board : Board) (beta : score) (moves : list Move) :
  forall max_eval alpha,
    counted_on_entry false (snd (max_model rec_f board beta moves max_eval alpha)) = true /\
    balanced 0 (snd (max_model rec_f board beta moves max_eval alpha)) = true.
Proof.
  induction moves as [|m rest IH]; intros M a; cbn [max_model]; [now split|].
  destruct (sle beta _); cbn [snd].
  - destruct (rec_clean (push_move m board) a beta false) as (Hc & Hb & _).
    split; [now apply counted_visit|now apply balanced_visit].
  - apply clean_visit_then; [apply rec_clean|apply IH..].
Qed.

Lemma min_model_effects (board : Board) (alpha : score) (moves : list Move) :
  forall min_eval beta,
    counted_on_entry false (snd (min_model rec_f board alpha moves min_eval beta)) = true /\
    balanced 0 (snd (min_model rec_f board alpha moves min_eval beta)) = true.
Proof.
  induction moves as [|m rest IH]; intros M b; cbn [min_model]; [now split|].
  destruct (sle _ alpha); cbn [snd].
  - destruct (rec_clean (push_move m board) alpha b true) as (Hc & Hb & _).
    split; [now apply counted_visit|now apply balanced_visit].
  - apply clean_visit_then; [apply rec_clean|apply IH..].
Qed.

Lemma root_model_effects (board : Board) (moves : list Move) :
  forall best_move best_score alpha beta,
    counted_on_entry false
      (snd (root_model rec_f board moves best_move best_score alpha beta)) = true /\
    balanced 0 (snd (root_model rec_f board moves best_move best_score alpha beta)) = true.
Proof.
  induction moves as [|m rest IH]; intros bm bs a b; cbn [root_model snd]; [now split|].
  apply clean_visit_then; [apply rec_clean|apply IH..].
Qed.

End LoopsEffects.

Lemma search_model_clean (d : nat) :
  forall board alpha beta maximizing,
    clean (snd (search_model d board alpha beta maximizing)).
Proof.
  induction d as [|d IH]; intros board alpha beta mx; cbn [search_model].
  - repeat split; simpl; lia.
  - destruct (is_game_over board); [repeat split; simpl; lia|].
    cbn [snd].
    assert (E : counted_on_entry false (snd (if mx
                  then max_model (search_model d) board beta (legal_moves board) NegInf alpha
                  else min_model (search_model d) board alpha (legal_moves board) PosInf beta))
                = true /\
                balanced 0 (snd (if mx
                  then max_model (search_model d) board beta (legal_moves board) NegInf alpha
                  else min_model (search_model d) board alpha (legal_moves board) PosInf beta))
                = true).
    { destruct mx; [apply max_model_effects|apply min_model_effects]; exact IH. }
    destruct E as [Ec Eb]. repeat split.
    + cbn [counted_on_entry negb andb]. exact Ec.
    + cbn [balanced]. exact Eb.
    + cbn [increments]. pose proof (increments_nonneg (snd (if mx
                  then max_model (search_model d) board beta (legal_moves board) NegInf alpha
                  else min_model (search_model d) board alpha (legal_moves board) PosInf beta))).
      lia.
Qed.

(** ** Push and pop discipline, at any depth and with any fuel *)

Lemma tidy_ret {A} (a : A) : tidy (ret a).
Proof.
  intros w; simpl. repeat split. exists []. now rewrite app_nil_r.
Qed.

Lemma tidy_bind {A B} (c : M A) (k : A -> M B) :
  tidy c -> (forall a, tidy (k a)) -> tidy (bind c k).
Proof.
  intros Hc Hk w. unfold bind. specialize (Hc w).
  destruct (c w) as [[a w1]|e|]; auto.
  destruct Hc as (Hb & Hd & t1 & Ht1 & Hbal1).
  specialize (Hk a w1). destruct (k a w1) as [[b w2]|e|]; auto.
  destruct Hk as (Hb2 & Hd2 & t2 & Ht2 & Hbal2).
  repeat split; try congruence.
  exists (t1 ++ t2). split; [now rewrite Ht2, Ht1, app_assoc|].
  pose proof (balanced_app t1 t2 0 0 Hbal1) as E. cbn [Nat.add] in E. now rewrite E.
Qed.

Lemma tidy_quiet_event (e : Event) (f : World -> World) :
  (forall w, the_board (f w) = the_board w /\ self_depth (f w) = self_depth w /\
             trace (f w) = trace w ++ [e]) ->
  balanced 0 [e] = true ->
  tidy (fun w => Ok (tt, f w)).
Proof.
  intros Hf He w. destruct (Hf w) as (Hb & Hd & Ht). repeat split; auto.
  now exists [e].
Qed.

Lemma tidy_enter_search : tidy enter_search.
Proof. apply (tidy_quiet_event EnterSearch); [intros w; now repeat split|reflexivity]. Qed.

Lemma tidy_incr_nodes_searched : tidy incr_nodes_searched.
Proof. apply (tidy_quiet_event IncrNodes); [intros w; now repeat split|reflexivity]. Qed.

Lemma tidy_call_evaluate : tidy call_evaluate.
Proof. intros w; simpl. repeat split. now exists [Evaluate]. Qed.

Lemma tidy_get_board : tidy get_board.
Proof. intros w; simpl. repeat split. exists []. now rewrite app_nil_r. Qed.

(** A move pushed, a tidy computation, the move popped, and a tidy rest. *)
Lemma tidy_visit {A B} (move : Move) (c : M A) (k : A -> M B) :
  tidy c -> (forall a, tidy (k a)) ->
  tidy (bind (board_push move) (fun _ => bind c (fun a => bind board_pop (fun _ => k a)))).
Proof.
  intros Hc Hk w. unfold bind at 1, board_push at 1.
  set (w1 := log PushMove (with_board (push_move move (the_board w)) w)).
  unfold bind at 1. specialize (Hc w1).
  destruct (c w1) as [[a w2]|e|]; auto.
  destruct Hc as (Hb & Hd & t1 & Ht1 & Hbal1).
  unfold bind at 1, board_pop at 1. rewrite Hb. cbn [w1 the_board log with_board].
  rewrite pop_push.
  set (w3 := log PopMove (with_board (the_board w) w2)).
  specialize (Hk a w3). destruct (k a w3) as [[b w4]|e|]; auto.
  destruct Hk as (Hb4 & Hd4 & t4 & Ht4 & Hbal4).
  repeat split.
  - now rewrite Hb4.
  - now rewrite Hd4; cbn [w3 self_depth log with_board]; rewrite Hd.
  - exists ((PushMove :: t1 ++ [PopMove]) ++ t4). split.
    + rewrite Ht4. cbn [w3 trace log with_board]. rewrite Ht1.
      unfold w1. cbn [trace log with_board].
      rewrite <- !app_assoc. cbn [app]. now rewrite <- !app_assoc.
    + pose proof (balanced_app _ t4 0 0 (balanced_visit _ Hbal1)) as E.
      cbn [Nat.add] in E. now rewrite E.
Qed.

Lemma tidy_max_loop (rec : Z -> score -> score -> bool -> M score) :
  (forall d a b mx, tidy (rec d a b mx)) ->
  forall depth beta moves max_eval alpha, tidy (max_loop rec depth beta moves max_eval alpha).
Proof.
  intros Hrec depth beta moves.
  induction moves as [|m rest IH]; intros M a; cbn [max_loop]; [apply tidy_ret|].
  apply tidy_visit; [apply Hrec|].
  intros r. destruct (sle beta _); [apply tidy_ret|apply IH].
Qed.

Lemma tidy_min_loop (rec : Z -> score -> score -> bool -> M score) :
  (forall d a b mx, tidy (rec d a b mx)) ->
  forall depth alpha moves min_eval beta, tidy (min_loop rec depth alpha moves min_eval beta).
Proof.
  intros Hrec depth alpha moves.
  induction moves as [|m rest IH]; intros M b; cbn [min_loop]; [apply tidy_ret|].
  apply tidy_visit; [apply Hrec|].
  intros r. destruct (sle _ alpha); [apply tidy_ret|apply IH].
Qed.

Lemma tidy_minimax (fuel : nat) :
  forall depth alpha beta maximizing, tidy (_minimax fuel depth alpha beta maximizing).
Proof.
  induction fuel as [|fuel IH]; intros depth alpha beta mx; cbn [_minimax].
  - intros w; exact I.
  - apply tidy_bind; [apply tidy_enter_search|intros _].
    apply tidy_bind; [apply tidy_incr_nodes_searched|intros _].
    apply tidy_bind; [apply tidy_get_board|intros board].
    destruct ((depth =? 0) || is_game_over board); [apply tidy_call_evaluate|].
    destruct mx; [apply tidy_max_loop|apply tidy_min_loop]; exact IH.
Qed.

Lemma tidy_root_loop (rec : Z -> score -> score -> bool -> M score) :
  (forall d a b mx, tidy (rec d a b mx)) ->
  forall moves best_move best_score alpha beta,
    tidy (root_loop rec moves best_move best_score alpha beta).
Proof.
  intros Hrec moves.
  induction moves as [|m rest IH]; intros bm bs a b; cbn [root_loop]; [apply tidy_ret|].
  change (tidy (bind (board_push m)
                  (fun _ => bind (bind get_depth (fun depth => rec (depth - 1) (sneg b) (sneg a) false))
                     (fun r => bind board_pop (fun _ =>
                        let '(best_score, best_move) :=
                          if slt bs (sneg r) then (sneg r, Some m) else (bs, bm) in
                        root_loop rec rest best_move best_score (smax a (sneg r)) b))))).
  apply tidy_visit.
  - apply tidy_bind; [|intros d; apply Hrec].
    intros w; simpl. repeat split. exists []. now rewrite app_nil_r.
  - intros r. destruct (slt bs (sneg r)); apply IH.
Qed.

(** ** State restoration *)

(** C5.  Every activation of [_minimax], at any depth and window, and every
    call of [get_best_move] leaves the board exactly as it was when the call
    began (for [get_best_move]: as [chess.Board(fen)] built it): each push is
    undone by a pop, cutoff exits included, and no exception escapes the
    search.  A search of non-negative depth with more fuel than its depth, and
    a [get_best_move] configured with a depth of at least 1 and as much fuel,
    do not run out of fuel. *)
Theorem search_restores_the_board :
  (forall fuel depth alpha beta maximizing w,
      match _minimax fuel depth alpha beta maximizing w with
      | Ok (_, w') =>
          the_board w' = the_board w /\
          exists t, trace w' = trace w ++ t /\ balanced 0 t = true
      | Raise _ => False
      | OutOfFuel => depth < 0 \/ (fuel <= Z.to_nat depth)%nat
      end) /\
  (forall fuel fen w,
      match get_best_move fuel fen w with
      | Ok (_, w') =>
          exists p t, from_fen fen = Some p /\ the_board w' = new_board p /\
                      trace w' = trace w ++ t /\ balanced 0 t = true
      | Raise _ => True
      | OutOfFuel => self_depth w < 1 \/ (fuel < Z.to_nat (self_depth w))%nat
      end).
Proof.
  split.
  - intros fuel depth alpha beta mx w.
    pose proof (tidy_minimax fuel depth alpha beta mx w) as T.
    destruct (_minimax fuel depth alpha beta mx w) as [[v w']|e|] eqn:E; auto.
    + destruct T as (Hb & _ & Ht). now split.
    + destruct (Z_lt_le_dec depth 0) as [|Hd]; [now left|right].
      destruct (le_lt_dec fuel (Z.to_nat depth)) as [|Hf]; [assumption|].
      rewrite (_minimax_run fuel depth alpha beta mx w Hd Hf) in E. discriminate.
  - intros fuel fen w.
    destruct (from_fen fen) as [p|] eqn:Hfen;
      [|unfold get_best_move, bind, chess_Board; now rewrite Hfen].
    destruct (is_game_over (new_board p)) eqn:Hover.
    { unfold get_best_move, bind, chess_Board. rewrite Hfen. cbn.
      now rewrite Hover. }
    destruct (legal_moves (new_board p)) as [|m0 rest] eqn:Hmoves.
    { unfold get_best_move, bind, chess_Board. rewrite Hfen. cbn.
      now rewrite Hover, Hmoves. }
    rewrite (get_best_move_unfold fuel fen p w Hfen Hover) by (rewrite Hmoves; discriminate).
    rewrite Hmoves.
    pose proof (tidy_root_loop (_minimax fuel) (tidy_minimax fuel) (m0 :: rest)
                               None NegInf NegInf PosInf (entry_world p w)) as T.
    destruct (root_loop _ _ _ _ _ _ _) as [[[bm bs] w1]|e|] eqn:E.
    + destruct T as (Hb & _ & t & Ht & Hbal).
      destruct bm as [bm|].
      * exists p, t. now repeat split.
      * unfold random_choice. destruct (nth_error _ _); [|exact I].
        exists p, t. now repeat split.
    + exact I.
    + destruct (Z_lt_le_dec (self_depth w) 1) as [|Hd]; [now left|right].
      destruct (le_lt_dec (Z.to_nat (self_depth w)) fuel) as [Hf|]; [|assumption].
      pose proof (root_loop_of_get_best_move fuel p w Hd Hf) as R.
      rewrite Hmoves in R. rewrite R in E. discriminate.
Qed.

(** ** Pruning equivalence *)

(** C3.  Called with the full window, the alpha-beta search of any
    non-negative depth returns the score of the unpruned minimax over the
    same tree, with the same move order and the same leaf evaluator. *)
Theorem alpha_beta_equals_full_minimax
    (fuel : nat) (depth : Z) (maximizing : bool) (w : World) :
  0 <= depth -> (Z.to_nat depth < fuel)%nat ->
  exists w',
    _minimax fuel depth NegInf PosInf maximizing w
    = Ok (full_minimax (Z.to_nat depth) (the_board w) maximizing, w').
Proof.
  intros Hd Hf. rewrite (_minimax_run fuel depth NegInf PosInf maximizing w Hd Hf).
  eexists. do 2 f_equal.
  apply within_full_window, search_model_sound. reflexivity.
Qed.

(** ** The node counter *)

Lemma random_choice_ok (moves : list Move) (w : World) :
  moves <> [] ->
  exists m, In m moves /\
    random_choice moves w
    = Ok (m, mkWorld (self_depth w) (self_nodes_searched w) (self_pv w) (the_board w)
                     (random_draws w) (S (random_pos w)) (trace w)).
Proof.
  intros Hne. unfold random_choice.
  destruct (nth_error moves _) as [m|] eqn:E.
  - exists m. split; [eapply nth_error_In; eauto|reflexivity].
  - apply nth_error_None in E.
    assert (List.length moves <> 0)%nat by (destruct moves; simpl; congruence).
    pose proof (Nat.mod_upper_bound (random_draws w (random_pos w)) (List.length moves)).
    lia.
Qed.

(** [get_best_move] on a position that satisfies its preconditions: the
    result and the final world in terms of the root search. *)
Lemma get_best_move_run (fuel : nat) (fen : string) (p : Position) (w : World) :
  from_fen fen = Some p ->
  is_game_over (new_board p) = false ->
  legal_moves (new_board p) <> [] ->
  1 <= self_depth w -> (Z.to_nat (self_depth w) <= fuel)%nat ->
  let found := root_search (self_depth w) p in
  let w1 := after (snd found) (entry_world p w) in
  get_best_move fuel fen w
  = match fst found with
    | (Some best_move, best_score) =>
        Ok (mkResult (uci best_move) (to_pawns best_score) (self_depth w)
                     (increments (snd found)) [uci best_move], w1)
    | (None, _) =>
        match random_choice (legal_moves (new_board p)) w1 with
        | Ok (best_move, w2) =>
            Ok (mkResult (uci best_move) (to_pawns (Fin 0)) (self_depth w)
                         (increments (snd found)) [uci best_move], w2)
        | Raise e => Raise e
        | OutOfFuel => OutOfFuel
        end
    end.
Proof.
  intros Hfen Hover Hmoves Hd Hf found w1.
  rewrite (get_best_move_unfold fuel fen p w Hfen Hover Hmoves).
  rewrite (root_loop_of_get_best_move fuel p w Hd Hf).
  fold found. fold w1.
  destruct (fst found) as [[bm|] bs]; [reflexivity|].
  destruct (random_choice_ok _ w1 Hmoves) as (m & _ & ->). reflexivity.
Qed.

Lemma get_best_move_returns (fuel : nat) (fen : string) (p : Position) (w : World) :
  from_fen fen = Some p ->
  is_game_over (new_board p) = false ->
  legal_moves (new_board p) <> [] ->
  1 <= self_depth w -> (Z.to_nat (self_depth w) <= fuel)%nat ->
  exists r w', get_best_move fuel fen w = Ok (r, w').
Proof.
  intros Hfen Hover Hmoves Hd Hf.
  pose proof (get_best_move_run fuel fen p w Hfen Hover Hmoves Hd Hf) as R.
  cbn zeta in R.
  destruct (fst (root_search (self_depth w) p)) as [[bm|] bs]; [eauto|].
  destruct (random_choice_ok (legal_moves (new_board p))
              (after (snd (root_search (self_depth w) p)) (entry_world p w)) Hmoves)
    as (m & _ & E).
  rewrite E in R. eauto.
Qed.

(** ** The counter and the calls *)

Lemma called_once_per_push_app (t1 t2 : list Event) :
  called_once_per_push t1 = true ->
  called_once_per_push (t1 ++ t2) = called_once_per_push t2.
Proof.
  assert (G : forall n t, (List.length t <= n)%nat ->
                called_once_per_push t = true ->
                called_once_per_push (t ++ t2) = called_once_per_push t2).
  { induction n as [|n IH]; intros t Hn Ht.
    - destruct t; [reflexivity|simpl in Hn; lia].
    - destruct t as [|e t]; [reflexivity|].
      destruct e; try discriminate Ht.
      + destruct t as [|e2 t]; [discriminate Ht|].
        destruct e2; try discriminate Ht.
        destruct t as [|e3 t]; [discriminate Ht|].
        destruct e3; try discriminate Ht.
        cbn [called_once_per_push app] in *. apply IH; [simpl in Hn; lia|exact Ht].
      + cbn [called_once_per_push app] in *. apply IH; [simpl in Hn; lia|exact Ht].
      + cbn [called_once_per_push app] in *. apply IH; [simpl in Hn; lia|exact Ht]. }
  intros Ht. now apply (G (List.length t1)).
Qed.

(** In such a sequence the pushes, the activations and the increments are
    equally many. *)
Lemma called_once_per_push_counts (t : list Event) :
  called_once_per_push t = true ->
  pushes t = activations t /\ pushes t = increments t.
Proof.
  assert (G : forall n t, (List.length t <= n)%nat ->
                called_once_per_push t = true ->
                pushes t = activations t /\ pushes t = increments t).
  { induction n as [|n IH]; intros t0 Hn Ht.
    - destruct t0; [now split|simpl in Hn; lia].
    - destruct t0 as [|e t0]; [now split|].
      destruct e; try discriminate Ht.
      + destruct t0 as [|e2 t0]; [discriminate Ht|].
        destruct e2; try discriminate Ht.
        destruct t0 as [|e3 t0]; [discriminate Ht|].
        destruct e3; try discriminate Ht.
        cbn [called_once_per_push pushes activations increments] in *.
        destruct (IH t0) as [Ha Hi]; [simpl in Hn; lia|exact Ht|]. split; lia.
      + cbn [called_once_per_push pushes activations increments] in *.
        apply IH; [simpl in Hn; lia|exact Ht].
      + cbn [called_once_per_push pushes activations increments] in *.
        apply IH; [simpl in Hn; lia|exact Ht]. }
  intros Ht. now apply (G (List.length t)).
Qed.

Section LoopsCalled.

Variable rec_f : Board -> score -> score -> bool -> score * list Event.
Hypothesis rec_called : forall board alpha beta maximizing,
  exists rest,
    snd (rec_f board alpha beta maximizing) = EnterSearch :: IncrNodes :: rest /\
    called_once_per_push rest = true.

Lemma visit_called (board : Board) (alpha beta : score) (maximizing : bool)
    (later : list Event) :
  called_once_per_push later = true ->
  called_once_per_push
    ((PushMove :: snd (rec_f board alpha beta maximizing) ++ [PopMove]) ++ later) = true.
Proof.
  intros Hl. destruct (rec_called board alpha beta maximizing) as (rest & -> & Hr).
  cbn [app called_once_per_push].
  rewrite <- app_assoc. rewrite (called_once_per_push_app rest _ Hr).
  cbn [app called_once_per_push]. exact Hl.
Qed.

Lemma max_model_called (board : Board) (beta : score) (moves : list Move) :
  forall max_eval alpha,
    called_once_per_push (snd (max_model rec_f board beta moves max_eval alpha)) = true.
Proof.
  induction moves as [|m rest IH]; intros M a; cbn [max_model]; [reflexivity|].
  destruct (sle beta _); cbn [snd].
  - rewrite <- (app_nil_r (PushMove :: _ ++ [PopMove])). now apply visit_called.
  - apply visit_called. apply IH.
Qed.

Lemma min_model_called (board : Board) (alpha : score) (moves : list Move) :
  forall min_eval beta,
    called_once_per_push (snd (min_model rec_f board alpha moves min_eval beta)) = true.
Proof.
  induction moves as [|m rest IH]; intros M b; cbn [min_model]; [reflexivity|].
  destruct (sle _ alpha); cbn [snd].
  - rewrite <- (app_nil_r (PushMove :: _ ++ [PopMove])). now apply visit_called.
  - apply visit_called. apply IH.
Qed.

Lemma root_model_called (board : Board) (moves : list Move) :
  forall best_move best_score alpha beta,
    called_once_per_push
      (snd (root_model rec_f board moves best_move best_score alpha beta)) = true.
Proof.
  induction moves as [|m rest IH]; intros bm bs a b; cbn [root_model snd]; [reflexivity|].
  apply visit_called. apply IH.
Qed.

End LoopsCalled.

Lemma search_model_called (d : nat) :
  forall board alpha beta maximizing,
  exists rest,
    snd (search_model d board alpha beta maximizing) = EnterSearch :: IncrNodes :: rest /\
    called_once_per_push rest = true.
Proof.
  induction d as [|d IH]; intros board alpha beta mx; cbn [search_model].
  - exists [Evaluate]. now split.
  - destruct (is_game_over board); [exists [Evaluate]; now split|].
    cbn [snd]. eexists. split; [reflexivity|].
    destruct mx; [now apply max_model_called|now apply min_model_called].
Qed.

(** C6.  [get_best_move] resets the counter, and the node count it returns
    is the number of calls of [_minimax] made during the invocation, counted
    where they are made: one call after each [board.push(move)] of the root
    loop and of the two loops of [_minimax], leaves and terminal nodes
    included.  Every such call becomes an activation whose first effect is
    the increment of the counter, and the counter moves nowhere else; so the
    count is also the number of activations, whatever the counter held before
    the call.  The pushes and the pops nest like brackets: they draw the tree
    the search visits, and the count is the number of its nodes. *)
Theorem nodes_searched_counts_activations
    (fuel : nat) (fen : string) (p : Position) (w : World) :
  from_fen fen = Some p ->
  is_game_over (new_board p) = false ->
  legal_moves (new_board p) <> [] ->
  1 <= self_depth w -> (Z.to_nat (self_depth w) <= fuel)%nat ->
  exists r w' t,
    get_best_move fuel fen w = Ok (r, w') /\
    trace w' = trace w ++ t /\
    called_once_per_push t = true /\
    balanced 0 t = true /\
    counted_on_entry false t = true /\
    nodes r = pushes t /\
    pushes t = activations t /\
    increments t = activations t /\
    self_nodes_searched w' = nodes r.
Proof.
  intros Hfen Hover Hmoves Hd Hf.
  pose proof (get_best_move_run fuel fen p w Hfen Hover Hmoves Hd Hf) as R.
  cbn zeta in R.
  set (found := root_search (self_depth w) p) in *.
  assert (Hc : counted_on_entry false (snd found) = true)
    by (apply root_model_effects; intros; apply search_model_clean).
  assert (Hb : balanced 0 (snd found) = true)
    by (apply root_model_effects; intros; apply search_model_clean).
  assert (Hp : called_once_per_push (snd found) = true)
    by (apply root_model_called; intros; apply search_model_called).
  destruct (called_once_per_push_counts _ Hp) as [Hpa Hpi].
  pose proof (counted_increments _ _ Hc) as Hi. rewrite Z.add_0_r in Hi.
  destruct (fst found) as [[bm|] bs].
  - eexists _, _, (snd found). split; [exact R|].
    cbn. repeat split; auto; lia.
  - destruct (random_choice_ok (legal_moves (new_board p))
                (after (snd found) (entry_world p w)) Hmoves) as (m & _ & E).
    rewrite E in R.
    eexists _, _, (snd found). split; [exact R|].
    cbn. repeat split; auto; lia.
Qed.

(** ** Errors *)

(** On a position that is not over and has a legal move, no exception leaves
    [get_best_move], whatever the configured depth and the fuel. *)
Lemma get_best_move_does_not_raise (fuel : nat) (fen : string) (p : Position)
    (w : World) (e : exn) :
  from_fen fen = Some p ->
  is_game_over (new_board p) = false ->
  legal_moves (new_board p) <> [] ->
  get_best_move fuel fen w <> Raise e.
Proof.
  intros Hfen Hover Hmoves.
  rewrite (get_best_move_unfold fuel fen p w Hfen Hover Hmoves).
  pose proof (tidy_root_loop (_minimax fuel) (tidy_minimax fuel)
                (legal_moves (new_board p)) None NegInf NegInf PosInf (entry_world p w)) as T.
  destruct (root_loop (_minimax fuel) (legal_moves (new_board p)) None NegInf NegInf PosInf
                      (entry_world p w)) as [[[[bm|] bs] w1]|e1|];
    [discriminate| |contradiction|discriminate].
  destruct (random_choice_ok (legal_moves (new_board p)) w1 Hmoves) as (m & _ & ->).
  discriminate.
Qed.

(** C7, as the code has it.  On a position python-chess accepts,
    [get_best_move] raises exactly when the position is over, with
    [ValueError("Game is over")], or is not over but has no legal move, with
    [ValueError("No legal moves available")]: which of the two is raised
    depends on the position alone, not on the engine's state, its configured
    depth or the fuel.  The configured depth is not checked: it is no cause of
    an error.  On any other position, with a configured depth of at least 1,
    the call returns. *)
Theorem get_best_move_errors (fuel : nat) (fen : string) (p : Position) (w : World) :
  from_fen fen = Some p ->
  (forall e,
     get_best_move fuel fen w = Raise e <->
     (is_game_over (new_board p) = true /\ e = ValueError "Game is over") \/
     (is_game_over (new_board p) = false /\ legal_moves (new_board p) = [] /\
      e = ValueError "No legal moves available")) /\
  (is_game_over (new_board p) = false -> legal_moves (new_board p) <> [] ->
     1 <= self_depth w -> (Z.to_nat (self_depth w) <= fuel)%nat ->
     exists r w', get_best_move fuel fen w = Ok (r, w')).
Proof.
  intros Hfen. split.
  - intros e.
    destruct (is_game_over (new_board p)) eqn:Hover.
    + assert (E : get_best_move fuel fen w = Raise (ValueError "Game is over")).
      { unfold get_best_move, bind, chess_Board. rewrite Hfen. cbn. now rewrite Hover. }
      rewrite E. split.
      * intros Ee. left. split; [reflexivity|congruence].
      * intros [[_ ->]|[Habs _]]; [reflexivity|discriminate Habs].
    + destruct (legal_moves (new_board p)) as [|m0 rest] eqn:Hmoves.
      * assert (E : get_best_move fuel fen w = Raise (ValueError "No legal moves available")).
        { unfold get_best_move, bind, chess_Board. rewrite Hfen. cbn.
          now rewrite Hover, Hmoves. }
        rewrite E. split.
        -- intros Ee. right. split; [reflexivity|]. split; [reflexivity|congruence].
        -- intros [[Habs _]|(_ & _ & ->)]; [discriminate Habs|reflexivity].
      * split.
        -- intros Ee. exfalso.
           apply (get_best_move_does_not_raise fuel fen p w e Hfen Hover); [|exact Ee].
           rewrite Hmoves. discriminate.
        -- intros [[Habs _]|(_ & Habs & _)]; discriminate Habs.
  - intros Hover Hmoves Hd Hf.
    now apply (get_best_move_returns fuel fen p w).
Qed.

(** ** Finite scores and the fallback *)

Lemma finite_smax (a b : score) : a <> PosInf -> finite b = true -> finite (smax a b) = true.
Proof.
  unfold smax. destruct a, b; simpl; try discriminate; try congruence.
  intros; now destruct (_ <? _).
Qed.

Lemma finite_smin (a b : score) : a <> NegInf -> finite b = true -> finite (smin a b) = true.
Proof.
  unfold smin. destruct a, b; simpl; try discriminate; try congruence.
  intros; now destruct (_ <? _).
Qed.

Lemma finite_not_PosInf (a : score) : finite a = true -> a <> PosInf.
Proof. destruct a; simpl; congruence. Qed.

Lemma finite_not_NegInf (a : score) : finite a = true -> a <> NegInf.
Proof. destruct a; simpl; congruence. Qed.

Section LoopsFinite.
Variable rec_f : Board -> score -> score -> bool -> score * list Event.
Hypothesis rec_finite : forall b a beta mx, finite (fst (rec_f b a beta mx)) = true.

Lemma max_model_finite (board : Board) (beta : score) (moves : list Move) :
  forall max_eval alpha,
    max_eval <> PosInf -> finite max_eval = true \/ moves <> [] ->
    finite (fst (max_model rec_f board beta moves max_eval alpha)) = true.
Proof.
  induction moves as [|m rest IH]; intros M a HM Hor; cbn [max_model].
  - destruct Hor; [assumption|congruence].
  - pose proof (rec_finite (push_move m board) a beta false) as Hr.
    pose proof (finite_smax M _ HM Hr) as HM'.
    destruct (sle beta _); cbn [fst]; [assumption|].
    apply IH; [now apply finite_not_PosInf|now left].
Qed.

Lemma min_model_finite (board : Board) (alpha : score) (moves : list Move) :
  forall min_eval beta,
    min_eval <> NegInf -> finite min_eval = true \/ moves <> [] ->
    finite (fst (min_model rec_f board alpha moves min_eval beta)) = true.
Proof.
  induction moves as [|m rest IH]; intros M b HM Hor; cbn [min_model].
  - destruct Hor; [assumption|congruence].
  - pose proof (rec_finite (push_move m board) alpha b true) as Hr.
    pose proof (finite_smin M _ HM Hr) as HM'.
    destruct (sle _ alpha); cbn [fst]; [assumption|].
    apply IH; [now apply finite_not_NegInf|now left].
Qed.

(** Once a move has been selected, the root loop ends with a selected move
    among those it was given or the one it had, and a finite score. *)
Lemma root_model_keeps_selection (board : Board) (all : list Move) (moves : list Move) :
  forall best_move best_score alpha beta,
    incl moves all -> In best_move all -> finite best_score = true ->
    exists m z,
      fst (root_model rec_f board moves (Some best_move) best_score alpha beta)
      = (Some m, Fin z) /\ In m all.
Proof.
  induction moves as [|mv rest IH]; intros bm bs a b Hincl Hin Hfin; cbn [root_model fst].
  - destruct bs as [|z|]; try discriminate. now exists bm, z.
  - assert (Hrest : incl rest all) by (intros x Hx; apply Hincl; now right).
    destruct (slt bs _) eqn:Hlt; cbn [fst snd].
    + apply IH; auto; [apply Hincl; now left|].
      pose proof (rec_finite (push_move mv board) (sneg b) (sneg a) false) as Hr.
      destruct (fst (rec_f _ _ _ _)); simpl in *; congruence.
    + apply IH; auto.
Qed.

(** Started with no selection and the [-inf] initializer, the loop selects
    the first move it scores. *)
Lemma root_model_selects (board : Board) (moves : list Move) (alpha beta : score) :
  moves <> [] ->
  exists m z,
    fst (root_model rec_f board moves None NegInf alpha beta) = (Some m, Fin z) /\
    In m moves.
Proof.
  destruct moves as [|mv rest]; [congruence|intros _].
  cbn [root_model fst].
  pose proof (rec_finite (push_move mv board) (sneg beta) (sneg alpha) false) as Hr.
  assert (Hlt : slt NegInf (sneg (fst (rec_f (push_move mv board) (sneg beta) (sneg alpha) false)))
                = true)
    by (destruct (fst (rec_f _ _ _ _)); simpl in *; congruence).
  rewrite Hlt. cbn [fst snd].
  apply root_model_keeps_selection.
  - intros x Hx; now right.
  - now left.
  - destruct (fst (rec_f _ _ _ _)); simpl in *; congruence.
Qed.

End LoopsFinite.

(** With a rules engine that offers a move in every position that is not
    over, every search returns an integer. *)
Lemma search_model_finite (consistent : oracle_consistent) (d : nat) :
  forall board alpha beta maximizing,
    finite (fst (search_model d board alpha beta maximizing)) = true.
Proof.
  induction d as [|d IH]; intros board alpha beta mx; cbn [search_model]; [reflexivity|].
  destruct (is_game_over board) eqn:Hover; [reflexivity|].
  pose proof (consistent board Hover) as Hmoves.
  destruct mx; cbn [fst].
  - apply max_model_finite; auto; discriminate.
  - apply min_model_finite; auto; discriminate.
Qed.

(** C9.  On a position that is not over and has a legal move, with a
    configured depth of at least 1 and a rules engine that offers a move in
    every position that is not over: the root loop ends with a move selected
    by the scored comparison, one of the legal moves, with a finite score;
    [get_best_move] returns that move and that score, and the random
    generator is not consulted.  Every recursive search the root starts
    returns an integer, whose negation is above the [-inf] initializer. *)
Theorem fallback_is_unreachable
    (fuel : nat) (fen : string) (p : Position) (w : World) :
  oracle_consistent ->
  from_fen fen = Some p ->
  is_game_over (new_board p) = false ->
  legal_moves (new_board p) <> [] ->
  1 <= self_depth w -> (Z.to_nat (self_depth w) <= fuel)%nat ->
  exists best_move best_score w',
    root_loop (_minimax fuel) (legal_moves (new_board p)) None NegInf NegInf PosInf
              (entry_world p w)
    = Ok ((Some best_move, Fin best_score), w') /\
    In best_move (legal_moves (new_board p)) /\
    get_best_move fuel fen w
    = Ok (mkResult (uci best_move) (Fin (best_score # 100)) (self_depth w)
                   (self_nodes_searched w') [uci best_move], w') /\
    random_pos w' = random_pos w /\
    (forall alpha beta maximizing w0,
       exists z w0',
         _minimax fuel (self_depth w - 1) alpha beta maximizing w0 = Ok (Fin z, w0') /\
         slt NegInf (sneg (Fin z)) = true).
Proof.
  intros Hcons Hfen Hover Hmoves Hd Hf.
  destruct (root_model_selects (search_model (Z.to_nat (self_depth w - 1)))
              (search_model_finite Hcons _) (new_board p) (legal_moves (new_board p))
              NegInf PosInf Hmoves) as (m & z & E & Hin).
  change (fst (root_search (self_depth w) p) = (Some m, Fin z)) in E.
  exists m, z, (after (snd (root_search (self_depth w) p)) (entry_world p w)).
  repeat split.
  - rewrite (root_loop_of_get_best_move fuel p w Hd Hf). now rewrite E.
  - exact Hin.
  - rewrite (get_best_move_run fuel fen p w Hfen Hover Hmoves Hd Hf). cbn zeta.
    rewrite E. reflexivity.
  - intros alpha beta mx w0.
    rewrite (_minimax_run fuel (self_depth w - 1) alpha beta mx w0) by lia.
    pose proof (search_model_finite Hcons (Z.to_nat (self_depth w - 1))
                  (the_board w0) alpha beta mx) as Hfin.
    destruct (fst (search_model _ _ _ _ _)) as [|z0|]; try discriminate.
    now exists z0, (after (snd (search_model (Z.to_nat (self_depth w - 1))
                                           (the_board w0) alpha beta mx)) w0).
Qed.

(** C10.  Two calls of [get_best_move] with the same FEN and the same
    configured depth return the same tuple, whatever the counter, the
    principal variation, the board and the random generator were before each
    call; neither call consumes a random draw. *)
Theorem get_best_move_is_deterministic
    (fuel1 fuel2 : nat) (fen : string) (p : Position) (w1 w2 : World) :
  oracle_consistent ->
  from_fen fen = Some p ->
  is_game_over (new_board p) = false ->
  legal_moves (new_board p) <> [] ->
  1 <= self_depth w1 -> self_depth w2 = self_depth w1 ->
  (Z.to_nat (self_depth w1) <= fuel1)%nat -> (Z.to_nat (self_depth w1) <= fuel2)%nat ->
  exists r w1' w2',
    get_best_move fuel1 fen w1 = Ok (r, w1') /\
    get_best_move fuel2 fen w2 = Ok (r, w2') /\
    random_pos w1' = random_pos w1 /\ random_pos w2' = random_pos w2.
Proof.
  intros Hcons Hfen Hover Hmoves Hd Heq Hf1 Hf2.
  destruct (root_model_selects (search_model (Z.to_nat (self_depth w1 - 1)))
              (search_model_finite Hcons _) (new_board p) (legal_moves (new_board p))
              NegInf PosInf Hmoves) as (m & z & E & _).
  change (fst (root_search (self_depth w1) p) = (Some m, Fin z)) in E.
  rewrite (get_best_move_run fuel1 fen p w1 Hfen Hover Hmoves Hd Hf1).
  rewrite (get_best_move_run fuel2 fen p w2 Hfen Hover Hmoves) by (rewrite Heq; assumption).
  cbn zeta. rewrite Heq, E.
  eexists _, _, _. repeat split.
Qed.

(** ** Node counts *)

Lemma increments_visit (t : list Event) :
  increments (PushMove :: t ++ [PopMove]) = increments t.
Proof. cbn [increments]. rewrite increments_app. simpl. lia. Qed.

Lemma root_model_increments_leaves (board : Board) (moves : list Move) :
  forall best_move best_score alpha beta,
    increments (snd (root_model (search_model 0) board moves best_move best_score alpha beta))
    = Z.of_nat (List.length moves).
Proof.
  induction moves as [|m rest IH]; intros bm bs a b; cbn [root_model snd]; [reflexivity|].
  rewrite increments_app, increments_visit, IH. cbn [search_model snd List.length].
  simpl increments. lia.
Qed.

(** The node count of a [get_best_move] that returns. *)
Lemma nodes_of_get_best_move (fuel : nat) (fen : string) (p : Position) (w : World) :
  from_fen fen = Some p ->
  is_game_over (new_board p) = false ->
  legal_moves (new_board p) <> [] ->
  1 <= self_depth w -> (Z.to_nat (self_depth w) <= fuel)%nat ->
  exists r w',
    get_best_move fuel fen w = Ok (r, w') /\
    nodes r = increments (snd (root_search (self_depth w) p)).
Proof.
  intros Hfen Hover Hmoves Hd Hf.
  pose proof (get_best_move_run fuel fen p w Hfen Hover Hmoves Hd Hf) as R.
  cbn zeta in R.
  destruct (fst (root_search (self_depth w) p)) as [[bm|] bs]; [eauto|].
  destruct (random_choice_ok (legal_moves (new_board p))
              (after (snd (root_search (self_depth w) p)) (entry_world p w)) Hmoves)
    as (m & _ & E).
  rewrite E in R. eauto.
Qed.

(** *** The first two plies are never pruned

    The root passes [alpha = -inf] to its children, which are minimizing
    nodes: such a node cuts only on a score of [-inf], which a rules engine
    that offers a move in every position that is not over never produces. *)

Lemma sle_NegInf_r (a : score) : a <> NegInf -> sle a NegInf = false.
Proof. unfold sle. destruct a; simpl; intros; congruence. Qed.

Lemma smin_not_NegInf (a b : score) : a <> NegInf -> finite b = true -> smin a b <> NegInf.
Proof.
  unfold smin. destruct a, b; simpl; intros; try discriminate; try congruence.
  destruct (_ <? _); discriminate.
Qed.

Lemma smax_not_PosInf (a b : score) : a <> PosInf -> finite b = true -> smax a b <> PosInf.
Proof.
  unfold smax. destruct a, b; simpl; intros; try discriminate; try congruence.
  destruct (_ <? _); discriminate.
Qed.

Section UnprunedPlies.
Variable rec_f : Board -> score -> score -> bool -> score * list Event.
Hypothesis rec_finite : forall b a beta mx, finite (fst (rec_f b a beta mx)) = true.

(** A minimizing loop entered with [alpha = -inf] visits every move. *)
Lemma min_model_visits_all (board : Board) (moves : list Move) :
  (forall c a beta mx, 1 <= increments (snd (rec_f (push_move c board) a beta mx))) ->
  forall min_eval beta,
    beta <> NegInf ->
    Z.of_nat (List.length moves)
    <= increments (snd (min_model rec_f board NegInf moves min_eval beta)).
Proof.
  intros Hcost. induction moves as [|c rest IH]; intros M b Hb; cbn [min_model].
  - simpl; lia.
  - pose proof (rec_finite (push_move c board) NegInf b true) as Hr.
    pose proof (smin_not_NegInf b _ Hb Hr) as Hb'.
    rewrite (sle_NegInf_r _ Hb'). cbn [snd List.length].
    rewrite increments_app, increments_visit.
    specialize (IH (smin M (fst (rec_f (push_move c board) NegInf b true))) _ Hb').
    pose proof (Hcost c NegInf b true). lia.
Qed.

Lemma min_model_visits_all_leaves (board : Board) (moves : list Move) :
  (forall c a beta mx, increments (snd (rec_f (push_move c board) a beta mx)) = 1) ->
  forall min_eval beta,
    beta <> NegInf ->
    increments (snd (min_model rec_f board NegInf moves min_eval beta))
    = Z.of_nat (List.length moves).
Proof.
  intros Hcost. induction moves as [|c rest IH]; intros M b Hb; cbn [min_model].
  - reflexivity.
  - pose proof (rec_finite (push_move c board) NegInf b true) as Hr.
    pose proof (smin_not_NegInf b _ Hb Hr) as Hb'.
    rewrite (sle_NegInf_r _ Hb'). cbn [snd List.length].
    rewrite increments_app, increments_visit.
    rewrite (IH (smin M (fst (rec_f (push_move c board) NegInf b true))) _ Hb').
    rewrite (Hcost c NegInf b true). lia.
Qed.

(** The root loop, whose [alpha] never reaches [+inf]. *)
Lemma root_model_increments_window (board : Board) (cost : Move -> Z) (moves : list Move) :
  (forall m beta, beta <> NegInf ->
     cost m <= increments (snd (rec_f (push_move m board) NegInf beta false))) ->
  forall best_move best_score alpha,
    alpha <> PosInf ->
    sum_over cost moves
    <= increments (snd (root_model rec_f board moves best_move best_score alpha PosInf)).
Proof.
  intros Hcost. induction moves as [|m rest IH]; intros bm bs a Ha; cbn [root_model snd sum_over].
  - simpl; lia.
  - cbn [sneg]. rewrite increments_app, increments_visit.
    pose proof (rec_finite (push_move m board) NegInf (sneg a) false) as Hr.
    assert (Hw : sneg a <> NegInf) by (destruct a; simpl; congruence).
    pose proof (Hcost m (sneg a) Hw).
    set (r := fst (rec_f (push_move m board) NegInf (sneg a) false)) in *.
    assert (Ha' : smax a (sneg r) <> PosInf)
      by (apply smax_not_PosInf; [assumption|destruct r; simpl in *; congruence]).
    pose proof (IH (snd (if slt bs (sneg r) then (sneg r, Some m) else (bs, bm)))
                   (fst (if slt bs (sneg r) then (sneg r, Some m) else (bs, bm)))
                   _ Ha').
    lia.
Qed.

Lemma root_model_increments_window_exact
    (board : Board) (cost : Move -> Z) (moves : list Move) :
  (forall m beta, beta <> NegInf ->
     increments (snd (rec_f (push_move m board) NegInf beta false)) = cost m) ->
  forall best_move best_score alpha,
    alpha <> PosInf ->
    increments (snd (root_model rec_f board moves best_move best_score alpha PosInf))
    = sum_over cost moves.
Proof.
  intros Hcost. induction moves as [|m rest IH]; intros bm bs a Ha; cbn [root_model snd sum_over].
  - reflexivity.
  - cbn [sneg]. rewrite increments_app, increments_visit.
    pose proof (rec_finite (push_move m board) NegInf (sneg a) false) as Hr.
    assert (Hw : sneg a <> NegInf) by (destruct a; simpl; congruence).
    rewrite (Hcost m (sneg a) Hw).
    set (r := fst (rec_f (push_move m board) NegInf (sneg a) false)) in *.
    assert (Ha' : smax a (sneg r) <> PosInf)
      by (apply smax_not_PosInf; [assumption|destruct r; simpl in *; congruence]).
    rewrite (IH (snd (if slt bs (sneg r) then (sneg r, Some m) else (bs, bm)))
                (fst (if slt bs (sneg r) then (sneg r, Some m) else (bs, bm)))
                _ Ha').
    reflexivity.
Qed.

End UnprunedPlies.

(** The subtree of a root move, searched to depth 1: exactly its two-ply
    cost; searched deeper: at least that. *)
Lemma two_ply_cost_exact (board : Board) (m : Move) (beta : score) :
  beta <> NegInf ->
  increments (snd (search_model 1 (push_move m board) NegInf beta false))
  = two_ply_cost board m.
Proof.
  intros Hb. unfold two_ply_cost. cbn [search_model].
  destruct (is_game_over (push_move m board)); [reflexivity|].
  cbn [snd increments].
  rewrite (min_model_visits_all_leaves (search_model 0)); auto.
Qed.

Lemma two_ply_cost_lower (consistent : oracle_consistent)
    (d : nat) (board : Board) (m : Move) (beta : score) :
  beta <> NegInf ->
  two_ply_cost board m
  <= increments (snd (search_model (S d) (push_move m board) NegInf beta false)).
Proof.
  intros Hb. unfold two_ply_cost. cbn [search_model].
  destruct (is_game_over (push_move m board)); [simpl; lia|].
  cbn [snd increments].
  pose proof (min_model_visits_all (search_model d) (search_model_finite consistent d)
                (push_move m board) (legal_moves (push_move m board))
                (fun c a b mx => proj2 (proj2 (search_model_clean d _ a b mx)))
                PosInf beta Hb).
  lia.
Qed.

Lemma two_ply_cost_pos (board : Board) (m : Move) : 1 <= two_ply_cost board m.
Proof. unfold two_ply_cost. destruct (is_game_over _); lia. Qed.

Lemma two_ply_cost_ge_1 (board : Board) (moves : list Move) :
  Z.of_nat (List.length moves) <= sum_over (two_ply_cost board) moves.
Proof.
  induction moves as [|m rest IH]; cbn [sum_over List.length]; [lia|].
  pose proof (two_ply_cost_pos board m). lia.
Qed.

Lemma two_ply_cost_gt (consistent : oracle_consistent)
    (board : Board) (moves : list Move) (m : Move) :
  In m moves -> is_game_over (push_move m board) = false ->
  Z.of_nat (List.length moves) < sum_over (two_ply_cost board) moves.
Proof.
  induction moves as [|x rest IH]; intros Hin Hm; [contradiction|].
  cbn [sum_over List.length]. destruct Hin as [->|Hin].
  - unfold two_ply_cost at 1. rewrite Hm.
    pose proof (consistent _ Hm).
    destruct (legal_moves (push_move m board)); [congruence|].
    pose proof (two_ply_cost_ge_1 board rest). cbn [List.length]. lia.
  - specialize (IH Hin Hm). pose proof (two_ply_cost_pos board x). lia.
Qed.

(** C8, as the code has it.  With a rules engine that offers a move in every
    position that is not over, on a position that satisfies the
    preconditions: the node count at configured depth 1 is the number of legal
    root moves; at depth 2 it is that plus the number of legal moves of every
    position reached that is not over; the count at depth 2 is at least the
    count at depth 1, strictly more when some root move leads to a position
    that is not over; and the count at every depth from 2 on is at least the
    count at depth 2.  (Beyond depth 2 the count does not grow with the depth:
    a deeper search can visit fewer nodes.) *)
Theorem node_count_grows_up_to_depth_2
    (fuel1 fuel2 fuel : nat) (fen : string) (p : Position) (w1 w2 w : World) :
  oracle_consistent ->
  from_fen fen = Some p ->
  is_game_over (new_board p) = false ->
  legal_moves (new_board p) <> [] ->
  self_depth w1 = 1 -> (1 <= fuel1)%nat ->
  self_depth w2 = 2 -> (2 <= fuel2)%nat ->
  2 <= self_depth w -> (Z.to_nat (self_depth w) <= fuel)%nat ->
  exists r1 w1' r2 w2' r w',
    get_best_move fuel1 fen w1 = Ok (r1, w1') /\
    get_best_move fuel2 fen w2 = Ok (r2, w2') /\
    get_best_move fuel fen w = Ok (r, w') /\
    nodes r1 = Z.of_nat (List.length (legal_moves (new_board p))) /\
    nodes r2 = sum_over (two_ply_cost (new_board p)) (legal_moves (new_board p)) /\
    nodes r1 <= nodes r2 /\
    nodes r2 <= nodes r /\
    ((exists m, In m (legal_moves (new_board p)) /\
                is_game_over (push_move m (new_board p)) = false) ->
     nodes r1 < nodes r2).
Proof.
  intros Hcons Hfen Hover Hmoves Hd1 Hf1 Hd2 Hf2 Hd Hf.
  destruct (nodes_of_get_best_move fuel1 fen p w1 Hfen Hover Hmoves) as (r1 & w1' & E1 & N1);
    [lia|rewrite Hd1; simpl; lia|].
  destruct (nodes_of_get_best_move fuel2 fen p w2 Hfen Hover Hmoves) as (r2 & w2' & E2 & N2);
    [lia|rewrite Hd2; simpl; lia|].
  destruct (nodes_of_get_best_move fuel fen p w Hfen Hover Hmoves) as (r & w' & E & N);
    [lia|assumption|].
  exists r1, w1', r2, w2', r, w'.
  split; [exact E1|]. split; [exact E2|]. split; [exact E|].
  assert (L1 : nodes r1 = Z.of_nat (List.length (legal_moves (new_board p))))
    by (rewrite N1, Hd1; apply root_model_increments_leaves).
  assert (L2 : nodes r2 = sum_over (two_ply_cost (new_board p)) (legal_moves (new_board p))).
  { rewrite N2, Hd2. unfold root_search. change (Z.to_nat (2 - 1)) with 1%nat.
    apply (root_model_increments_window_exact (search_model 1)
             (search_model_finite Hcons 1)); [|discriminate].
    intros; now apply two_ply_cost_exact. }
  split; [exact L1|]. split; [exact L2|].
  split; [rewrite L1, L2; apply two_ply_cost_ge_1|].
  split.
  - rewrite L2, N. unfold root_search.
    replace (Z.to_nat (self_depth w - 1)) with (S (Z.to_nat (self_depth w - 2))) by lia.
    apply (root_model_increments_window (search_model (S (Z.to_nat (self_depth w - 2))))
             (search_model_finite Hcons _)); [|discriminate].
    intros; now apply two_ply_cost_lower.
  - intros (m & Hin & Hm). rewrite L1, L2. now apply (two_ply_cost_gt Hcons _ _ m).
Qed.

(** ** The sign of the root scores *)

(** C1 (the code departs from it).  On a position with a single legal move
    [m], the recursive search is called on the position after [m] with the
    negated window [(-beta, -alpha)] and returns the minimax value [z] of that
    position, in centipawns from White's side; [get_best_move] reports [-z]:
    the root negates the score it gets from a search that has already put it
    in absolute terms. *)
Theorem root_negates_the_search_score
    (fuel : nat) (fen : string) (p : Position) (m : Move) (w : World) :
  oracle_consistent ->
  from_fen fen = Some p ->
  is_game_over (new_board p) = false ->
  legal_moves (new_board p) = [m] ->
  1 <= self_depth w -> (Z.to_nat (self_depth w) <= fuel)%nat ->
  exists z w_child r w',
    _minimax fuel (self_depth w - 1) (sneg PosInf) (sneg NegInf) false
             (log PushMove (with_board (push_move m (new_board p)) (entry_world p w)))
    = Ok (Fin z, w_child) /\
    full_minimax (Z.to_nat (self_depth w - 1)) (push_move m (new_board p)) false = Fin z /\
    get_best_move fuel fen w = Ok (r, w') /\
    move_uci r = uci m /\
    score_pawns r = Fin (- z # 100).
Proof.
  intros Hcons Hfen Hover Hmoves Hd Hf.
  set (d := Z.to_nat (self_depth w - 1)).
  set (child := search_model d (push_move m (new_board p)) NegInf PosInf false).
  assert (Hv : fst child = full_minimax d (push_move m (new_board p)) false)
    by (apply within_full_window, search_model_sound; reflexivity).
  pose proof (search_model_finite Hcons d (push_move m (new_board p)) NegInf PosInf false)
    as Hfin.
  fold child in Hfin. destruct (fst child) as [|z|] eqn:Ez; try discriminate.
  assert (Hrun : _minimax fuel (self_depth w - 1) (sneg PosInf) (sneg NegInf) false
                   (log PushMove (with_board (push_move m (new_board p)) (entry_world p w)))
                 = Ok (Fin z, after (snd child)
                   (log PushMove (with_board (push_move m (new_board p)) (entry_world p w))))).
  { rewrite _minimax_run by lia. cbn [the_board log with_board sneg].
    fold d. fold child. now rewrite Ez. }
  assert (Hm : legal_moves (new_board p) <> []) by (rewrite Hmoves; discriminate).
  pose proof (get_best_move_run fuel fen p w Hfen Hover Hm Hd Hf) as R. cbn zeta in R.
  assert (Eroot : fst (root_search (self_depth w) p) = (Some m, Fin (- z))).
  { unfold root_search. rewrite Hmoves. cbn [root_model fst snd sneg].
    fold d. fold child. rewrite Ez. reflexivity. }
  rewrite Eroot in R.
  eexists z, _, _, _. split; [exact Hrun|]. split; [now rewrite <- Hv|].
  split; [exact R|]. split; reflexivity.
Qed.

(** At configured depth 1 the children are leaves, scored by [_evaluate]
    from White's side, and the root keeps the first move whose negated score
    is largest: the move that leads to the position with the lowest
    evaluation for White. *)
Lemma root_depth_1_keeps (board : Board) (moves : list Move) :
  forall best_move z alpha beta,
  exists m' z',
    fst (root_model (search_model 0) board moves (Some best_move) (Fin z) alpha beta)
    = (Some m', Fin z') /\
    z <= z' /\
    (forall x, In x moves -> - _evaluate (push_move x board) <= z') /\
    ((m' = best_move /\ z' = z) \/
     (In m' moves /\ z' = - _evaluate (push_move m' board))).
Proof.
  induction moves as [|mv rest IH]; intros bm z a b; cbn [root_model fst].
  - exists bm, z. repeat split; [lia|intros x []|now left].
  - change (search_model 0 (push_move mv board) (sneg b) (sneg a) false)
      with (Fin (_evaluate (push_move mv board)), LEAF_EVENTS).
    cbn [fst snd sneg slt].
    destruct (Z.ltb_spec z (- _evaluate (push_move mv board))) as [Hlt|Hge]; cbn [fst snd].
    + destruct (IH mv (- _evaluate (push_move mv board))
                   (smax a (Fin (- _evaluate (push_move mv board)))) b)
        as (m' & z' & E & Hz & Hall & Hor).
      exists m', z'. split; [exact E|]. repeat split; [lia| |].
      * intros x [<-|Hx]; [lia|auto].
      * right. destruct Hor as [[-> ->]|[Hin ->]]; (split; [|reflexivity]);
          [now left|now right].
    + destruct (IH bm z (smax a (Fin (- _evaluate (push_move mv board)))) b)
        as (m' & z' & E & Hz & Hall & Hor).
      exists m', z'. split; [exact E|]. repeat split; [lia| |].
      * intros x [<-|Hx]; [lia|auto].
      * destruct Hor as [?|[Hin ->]]; [now left|right; split; auto; now right].
Qed.

Lemma depth_1_selects_the_lowest_evaluation
    (fuel : nat) (fen : string) (p : Position) (w : World) :
  from_fen fen = Some p ->
  is_game_over (new_board p) = false ->
  legal_moves (new_board p) <> [] ->
  self_depth w = 1 -> (1 <= fuel)%nat ->
  exists m r w',
    In m (legal_moves (new_board p)) /\
    (forall x, In x (legal_moves (new_board p)) ->
       _evaluate (push_move m (new_board p)) <= _evaluate (push_move x (new_board p))) /\
    get_best_move fuel fen w = Ok (r, w') /\
    move_uci r = uci m /\
    score_pawns r = Fin (- _evaluate (push_move m (new_board p)) # 100).
Proof.
  intros Hfen Hover Hmoves Hd Hf.
  pose proof (get_best_move_run fuel fen p w Hfen Hover Hmoves) as R.
  rewrite Hd in R. specialize (R ltac:(lia) ltac:(simpl; lia)). cbn zeta in R.
  unfold root_search in R. change (Z.to_nat (1 - 1)) with 0%nat in R.
  destruct (legal_moves (new_board p)) as [|mv rest] eqn:Em; [congruence|].
  set (found := root_model (search_model 0) (new_board p) (mv :: rest)
                           None NegInf NegInf PosInf) in *.
  assert (E : exists m' z',
             fst found = (Some m', Fin z') /\
             (forall x, In x (mv :: rest) -> - _evaluate (push_move x (new_board p)) <= z') /\
             In m' (mv :: rest) /\ z' = - _evaluate (push_move m' (new_board p))).
  { unfold found. cbn [root_model fst].
    change (search_model 0 (push_move mv (new_board p)) (sneg PosInf) (sneg NegInf) false)
      with (Fin (_evaluate (push_move mv (new_board p))), LEAF_EVENTS).
    cbn [fst snd sneg slt].
    destruct (root_depth_1_keeps (new_board p) rest mv
                (- _evaluate (push_move mv (new_board p)))
                (smax NegInf (Fin (- _evaluate (push_move mv (new_board p))))) PosInf)
      as (m' & z' & E & Hz & Hall & Hor).
    exists m', z'. split; [exact E|]. repeat split.
    - intros x [<-|Hx]; [lia|auto].
    - destruct Hor as [[-> _]|[Hin _]]; [now left|now right].
    - destruct Hor as [[-> ->]|[_ ->]]; reflexivity. }
  destruct E as (m' & z' & E & Hall & Hin & ->).
  rewrite E in R.
  eexists m', _, _. split; [exact Hin|]. split.
  - intros x Hx. specialize (Hall x Hx). lia.
  - split; [exact R|]. split; reflexivity.
Qed.

End EngineFacts.

(** * The evaluator on the initial position *)

Lemma evaluate_square_agrees {C1 C2 : Chess} (b1 : @Board C1) (b2 : @Board C2)
    (score : Z) (sq : Square) :
  @piece_at C1 b1 sq = @piece_at C2 b2 sq ->
  @evaluate_square C1 b1 score sq = @evaluate_square C2 b2 score sq.
Proof. unfold evaluate_square. now intros ->. Qed.

Lemma fold_evaluate_square_agrees {C1 C2 : Chess} (b1 : @Board C1) (b2 : @Board C2)
    (squares : list Square) :
  (forall sq, In sq squares -> @piece_at C1 b1 sq = @piece_at C2 b2 sq) ->
  forall score,
    fold_left (@evaluate_square C1 b1) squares score
    = fold_left (@evaluate_square C2 b2) squares score.
Proof.
  induction squares as [|sq rest IH]; intros Hsame score; [reflexivity|].
  cbn [fold_left].
  rewrite (evaluate_square_agrees b1 b2 score sq) by (apply Hsame; now left).
  apply IH. intros x Hx; apply Hsame; now right.
Qed.

(** C4.  On the initial position (standard placement, White to move, not
    terminal, twenty legal moves) the material and the pawn and knight table
    terms sum to zero over the sixty-four squares, [_evaluate] returns 200,
    the mobility term of the side to move, and the conversion to pawns gives
    2. *)
Theorem starting_position_evaluates_to_200 {C : Chess} (board : @Board C) :
  (forall sq, In sq SQUARES -> piece_at board sq = initial_placement sq) ->
  turn board = WHITE ->
  is_checkmate board = false ->
  is_stalemate board = false ->
  is_insufficient_material board = false ->
  List.length (legal_moves board) = 20%nat ->
  fold_left (evaluate_square board) SQUARES 0 = 0 /\
  _evaluate board = 200 /\
  exists q, to_pawns (Fin (_evaluate board)) = Fin q /\ (q == 2)%Q.
Proof.
  intros Hplace Hturn Hmate Hstale Hdead Hmoves.
  assert (Hfold : fold_left (evaluate_square board) SQUARES 0 = 0).
  { rewrite (fold_evaluate_square_agrees board (@new_board Demo STARTING_TREE) SQUARES).
    - vm_compute. reflexivity.
    - intros sq Hsq. rewrite (Hplace sq Hsq). reflexivity. }
  assert (Heval : _evaluate board = 200).
  { unfold _evaluate. rewrite Hmate, Hstale, Hdead, Hturn, Hmoves. cbn [orb].
    rewrite Hfold. reflexivity. }
  split; [exact Hfold|]. split; [exact Heval|].
  rewrite Heval. exists (200 # 100). split; reflexivity.
Qed.

Lemma starting_position_evaluates_to_200_witness :
  @_evaluate Demo (@new_board Demo STARTING_TREE) = 200.
Proof.
  apply (@starting_position_evaluates_to_200 Demo (@new_board Demo STARTING_TREE));
    reflexivity.
Defined.

(** * Concrete runs *)

(** The tree engine answers like python-chess: a position without a legal
    move is over. *)
Lemma tree_chess_consistent (book : list (string * GameTree)) :
  @oracle_consistent (TreeChess book).
Proof.
  intros b. cbn [is_game_over legal_moves TreeChess].
  unfold tree_game_over, tree_checkmate, tree_stalemate, tree_moves.
  destruct (tree_at b) as [c chk dead pl [|r rs]]; cbn [replies_of map].
  - destruct chk; discriminate.
  - discriminate.
Qed.

(** C2 (the code departs from it).  In the position of [MATE_FEN] the move
    a1a8 is legal and checkmates Black; the search returns +20000 for it; at
    configured depth 1 [get_best_move] returns h1h2 with a score of 0.30. *)
Theorem mate_in_one_is_not_played :
  In "a1a8"%string (@legal_moves Demo (@new_board Demo MATE_TREE)) /\
  @is_checkmate Demo (@push_move Demo "a1a8"%string (@new_board Demo MATE_TREE)) = true /\
  (exists w',
     @_minimax Demo 1 0 NegInf PosInf false
       (@with_board Demo (@push_move Demo "a1a8"%string (@new_board Demo MATE_TREE))
                    (demo_world 1))
     = Ok (Fin 20000, w')) /\
  exists w',
    @get_best_move Demo 1 MATE_FEN (demo_world 1)
    = Ok (mkResult "h1h2" (Fin (30 # 100)) 1 16 ["h1h2"%string], w').
Proof.
  split; [vm_compute; tauto|]. split; [reflexivity|].
  split; eexists; vm_compute; reflexivity.
Qed.

Lemma rules_consistent : @oracle_consistent Rules.
Proof.
  intros b. cbn [is_game_over legal_moves Rules]. unfold game_over, no_moves.
  destruct (legal (setup_of b)); [intros E; discriminate E|intros _; discriminate].
Qed.

(** The rules engine reproduces the positions written out by hand above:
    the same pieces on the same squares, the same side to move, the same
    check and material status and the same legal moves in the same order, at
    the root and after every root move. *)
Lemma rules_agree_with_the_trees :
  agrees 1 (setup_at MATE_FEN) MATE_TREE = true /\
  agrees 1 (setup_at FORCED_FEN) FORCED_TREE = true /\
  agrees 0 (setup_at "rnbqkbnr/pppppppp/8/8/8/8/PPPPPPPP/RNBQKBNR w - - 0 1") STARTING_TREE
  = true.
Proof.
  split; [vm_compute; reflexivity|]. split; vm_compute; reflexivity.
Qed.

(** The calls counted on a real position: at configured depth 1 the sixteen
    legal moves of [MATE_FEN] make sixteen calls, and the count is 16. *)
Lemma sixteen_calls_on_the_mate_position :
  match @get_best_move Rules 1 MATE_FEN (rules_world 1) with
  | Ok (r, w') =>
      nodes r = 16 /\ pushes (trace w') = 16 /\ activations (trace w') = 16 /\
      increments (trace w') = 16
  | _ => False
  end.
Proof.
  vm_compute. repeat split; reflexivity.
Qed.

(** C7 (counterexample).  The depth is no precondition the code enforces: in
    the position of [BARE_KINGS_FEN], which is not over and has the single
    legal move a1b2, an engine configured with depth 0 returns normally, with
    the move a1b2, the score 0.0, the depth 0 and 1 node. *)
Lemma depth_is_not_checked :
  @from_fen Rules BARE_KINGS_FEN = Some (setup_at BARE_KINGS_FEN) /\
  @is_game_over Rules (@new_board Rules (setup_at BARE_KINGS_FEN)) = false /\
  map (@uci Rules) (@legal_moves Rules (@new_board Rules (setup_at BARE_KINGS_FEN)))
  = ["a1b2"%string] /\
  self_depth (rules_world 0) = 0 /\
  result_reported (H := Rules) 1 BARE_KINGS_FEN (rules_world 0)
  = Some (mkResult "a1b2" (Fin (0 # 100)) 0 1 ["a1b2"%string]).
Proof.
  split; [vm_compute; reflexivity|]. split; [vm_compute; reflexivity|].
  split; [vm_compute; reflexivity|]. split; [reflexivity|].
  vm_compute; reflexivity.
Qed.

(** C8 (counterexample).  In the position of [LOCKED_FEN], which is not over
    and has the single legal move a8b8, [get_best_move] reports 63 nodes at
    configured depth 4 and 62 nodes at configured depth 5. *)
Lemma node_count_can_decrease :
  @from_fen Rules LOCKED_FEN = Some (setup_at LOCKED_FEN) /\
  @is_game_over Rules (@new_board Rules (setup_at LOCKED_FEN)) = false /\
  map (@uci Rules) (@legal_moves Rules (@new_board Rules (setup_at LOCKED_FEN)))
  = ["a8b8"%string] /\
  nodes_reported (H := Rules) 5 LOCKED_FEN (rules_world 4) = Some 63 /\
  nodes_reported (H := Rules) 5 LOCKED_FEN (rules_world 5) = Some 62 /\
  ~ (forall d n n',
       1 <= d ->
       nodes_reported (H := Rules) 5 LOCKED_FEN (rules_world d) = Some n ->
       nodes_reported (H := Rules) 5 LOCKED_FEN (rules_world (d + 1)) = Some n' ->
       n <= n').
Proof.
  assert (H4 : nodes_reported (H := Rules) 5 LOCKED_FEN (rules_world 4) = Some 63)
    by (vm_compute; reflexivity).
  assert (H5 : nodes_reported (H := Rules) 5 LOCKED_FEN (rules_world (4 + 1)) = Some 62)
    by (vm_compute; reflexivity).
  split; [vm_compute; reflexivity|].
  split; [vm_compute; reflexivity|].
  split; [vm_compute; reflexivity|].
  split; [exact H4|]. split; [exact H5|].
  intros Hgrow.
  pose proof (Hgrow 4 63 62 ltac:(lia) H4 H5). lia.
Qed.

Lemma search_restores_the_board_witness :
  exists v w',
    @_minimax Demo 4 3 NegInf PosInf true (search_world 3 SHRINK_TREE) = Ok (v, w') /\
    the_board w' = @new_board Demo SHRINK_TREE.
Proof.
  pose proof (proj1 (@search_restores_the_board Demo) 4%nat 3 NegInf PosInf true
                    (search_world 3 SHRINK_TREE)) as T.
  destruct (@_minimax Demo 4 3 NegInf PosInf true (search_world 3 SHRINK_TREE))
    as [[v w']|e|]; [|contradiction|lia].
  exists v, w'. split; [reflexivity|]. apply T.
Defined.

Lemma alpha_beta_equals_full_minimax_witness :
  0 <= 3 /\ (Z.to_nat 3 < 4)%nat /\
  exists w',
    @_minimax Demo 4 3 NegInf PosInf true (search_world 3 SHRINK_TREE)
    = Ok (@full_minimax Demo (Z.to_nat 3) (the_board (search_world 3 SHRINK_TREE)) true, w').
Proof.
  split; [lia|]. split; [simpl; lia|].
  apply (@alpha_beta_equals_full_minimax Demo 4 3 true (search_world 3 SHRINK_TREE));
    [lia|simpl; lia].
Defined.

Lemma nodes_searched_counts_activations_witness :
  exists r w' t,
    @get_best_move Rules 2 MATE_FEN (rules_world 2) = Ok (r, w') /\
    trace w' = trace (rules_world 2) ++ t /\
    called_once_per_push t = true /\
    balanced 0 t = true /\
    counted_on_entry false t = true /\
    nodes r = pushes t /\
    pushes t = activations t /\
    increments t = activations t /\
    self_nodes_searched w' = nodes r.
Proof.
  apply (@nodes_searched_counts_activations Rules 2 MATE_FEN (setup_at MATE_FEN)
           (rules_world 2));
    [vm_compute; reflexivity|vm_compute; reflexivity|vm_compute; discriminate
    |simpl; lia|simpl; lia].
Defined.

Lemma get_best_move_errors_witness :
  @from_fen Rules MATED_FEN = Some (setup_at MATED_FEN) /\
  @get_best_move Rules 3 MATED_FEN (rules_world 3) = Raise (ValueError "Game is over") /\
  @from_fen Rules MATE_FEN = Some (setup_at MATE_FEN) /\
  exists r w', @get_best_move Rules 3 MATE_FEN (rules_world 3) = Ok (r, w').
Proof.
  assert (E1 : @from_fen Rules MATED_FEN = Some (setup_at MATED_FEN))
    by (vm_compute; reflexivity).
  assert (E2 : @from_fen Rules MATE_FEN = Some (setup_at MATE_FEN))
    by (vm_compute; reflexivity).
  split; [exact E1|]. split.
  - destruct (@get_best_move_errors Rules 3 MATED_FEN (setup_at MATED_FEN) (rules_world 3) E1)
      as (Hraises & _).
    apply Hraises. left. split; [vm_compute; reflexivity|reflexivity].
  - split; [exact E2|].
    destruct (@get_best_move_errors Rules 3 MATE_FEN (setup_at MATE_FEN) (rules_world 3) E2)
      as (_ & Hreturns).
    apply Hreturns; [vm_compute; reflexivity|vm_compute; discriminate|simpl; lia|simpl; lia].
Defined.

Lemma fallback_is_unreachable_witness :
  exists best_move best_score w',
    @root_loop Demo (@_minimax Demo 3) (@legal_moves Demo (@new_board Demo SHRINK_TREE))
               None NegInf NegInf PosInf (@entry_world Demo SHRINK_TREE (demo_world 3))
    = Ok ((Some best_move, Fin best_score), w') /\
    In best_move (@legal_moves Demo (@new_board Demo SHRINK_TREE)) /\
    @get_best_move Demo 3 SHRINK_FEN (demo_world 3)
    = Ok (mkResult (@uci Demo best_move) (Fin (best_score # 100)) (self_depth (demo_world 3))
                   (self_nodes_searched w') [@uci Demo best_move], w') /\
    random_pos w' = random_pos (demo_world 3) /\
    (forall alpha beta maximizing w0,
       exists z w0',
         @_minimax Demo 3 (self_depth (demo_world 3) - 1) alpha beta maximizing w0
         = Ok (Fin z, w0') /\
         slt NegInf (sneg (Fin z)) = true).
Proof.
  apply (@fallback_is_unreachable Demo 3 SHRINK_FEN SHRINK_TREE (demo_world 3));
    [apply tree_chess_consistent|reflexivity|reflexivity|vm_compute; discriminate
    |simpl; lia|simpl; lia].
Defined.

Lemma get_best_move_is_deterministic_witness :
  exists r w1' w2',
    @get_best_move Demo 3 SHRINK_FEN (demo_world 3) = Ok (r, w1') /\
    @get_best_move Demo 5 SHRINK_FEN (other_world 3) = Ok (r, w2') /\
    random_pos w1' = random_pos (demo_world 3) /\
    random_pos w2' = random_pos (other_world 3).
Proof.
  apply (@get_best_move_is_deterministic Demo 3 5 SHRINK_FEN SHRINK_TREE
           (demo_world 3) (other_world 3));
    [apply tree_chess_consistent|reflexivity|reflexivity|vm_compute; discriminate
    |simpl; lia|reflexivity|simpl; lia|simpl; lia].
Defined.

Lemma node_count_grows_up_to_depth_2_witness :
  exists r1 w1' r2 w2' r w',
    @get_best_move Rules 1 LOCKED_FEN (rules_world 1) = Ok (r1, w1') /\
    @get_best_move Rules 2 LOCKED_FEN (rules_world 2) = Ok (r2, w2') /\
    @get_best_move Rules 5 LOCKED_FEN (rules_world 5) = Ok (r, w') /\
    nodes r1
    = Z.of_nat (List.length (@legal_moves Rules (@new_board Rules (setup_at LOCKED_FEN)))) /\
    nodes r2 = sum_over (@two_ply_cost Rules (@new_board Rules (setup_at LOCKED_FEN)))
                        (@legal_moves Rules (@new_board Rules (setup_at LOCKED_FEN))) /\
    nodes r1 <= nodes r2 /\
    nodes r2 <= nodes r /\
    ((exists m, In m (@legal_moves Rules (@new_board Rules (setup_at LOCKED_FEN))) /\
                @is_game_over Rules
                  (@push_move Rules m (@new_board Rules (setup_at LOCKED_FEN))) = false) ->
     nodes r1 < nodes r2).
Proof.
  apply (@node_count_grows_up_to_depth_2 Rules 1 2 5 LOCKED_FEN (setup_at LOCKED_FEN)
           (rules_world 1) (rules_world 2) (rules_world 5));
    [apply rules_consistent|vm_compute; reflexivity|vm_compute; reflexivity
    |vm_compute; discriminate|reflexivity|lia|reflexivity|lia|simpl; lia|simpl; lia].
Defined.

Lemma root_negates_the_search_score_witness :
  exists z w_child r w',
    @_minimax Demo 1 (self_depth (demo_world 1) - 1) (sneg PosInf) (sneg NegInf) false
              (log PushMove
                 (@with_board Demo
                    (@push_move Demo "g1h2"%string (@new_board Demo FORCED_TREE))
                    (@entry_world Demo FORCED_TREE (demo_world 1))))
    = Ok (Fin z, w_child) /\
    @full_minimax Demo (Z.to_nat (self_depth (demo_world 1) - 1))
                  (@push_move Demo "g1h2"%string (@new_board Demo FORCED_TREE)) false
    = Fin z /\
    @get_best_move Demo 1 FORCED_FEN (demo_world 1) = Ok (r, w') /\
    move_uci r = @uci Demo "g1h2"%string /\
    score_pawns r = Fin (- z # 100).
Proof.
  apply (@root_negates_the_search_score Demo 1 FORCED_FEN FORCED_TREE "g1h2"%string
           (demo_world 1));
    [apply tree_chess_consistent|reflexivity|reflexivity|reflexivity|simpl; lia|simpl; lia].
Defined.

(** The forced move of [FORCED_FEN] leads to a position that [_evaluate]
    scores at -830 for White; [get_best_move] reports +8.30. *)
Lemma forced_move_is_reported_with_the_opposite_sign :
  @_evaluate Demo (@push_move Demo "g1h2"%string (@new_board Demo FORCED_TREE)) = -830 /\
  exists w',
    @get_best_move Demo 1 FORCED_FEN (demo_world 1)
    = Ok (mkResult "g1h2" (Fin (830 # 100)) 1 1 ["g1h2"%string], w').
Proof.
  split; [vm_compute; reflexivity|]. eexists; vm_compute; reflexivity.
Qed.

(** * More properties of the engine *)

Section EngineMoreFacts.
Context `{Chess}.
Arguments Z.add : simpl never.
Arguments Z.sub : simpl never.
Arguments Z.mul : simpl never.

(** ** The search with any window *)

(** X1.  Called with any window [alpha < beta] and a non-negative depth,
    [_minimax] returns a score that stands for the unpruned minimax value [v]
    of the node: equal to [v] when [v] is strictly inside the window, at most
    [alpha] when [v <= alpha], at least [beta] when [v >= beta]. *)
Theorem alpha_beta_respects_the_window
    (fuel : nat) (depth : Z) (alpha beta : score) (maximizing : bool) (w : World) :
  0 <= depth -> (Z.to_nat depth < fuel)%nat ->
  slt alpha beta = true ->
  exists r w',
    _minimax fuel depth alpha beta maximizing w = Ok (r, w') /\
    let v := full_minimax (Z.to_nat depth) (the_board w) maximizing in
    (slt alpha v = true -> slt v beta = true -> r = v) /\
    (sle v alpha = true -> sle r alpha = true) /\
    (sle beta v = true -> sle beta r = true).
Proof.
  intros Hd Hf Hw.
  rewrite (_minimax_run fuel depth alpha beta maximizing w Hd Hf).
  eexists _, _. split; [reflexivity|]. cbn zeta.
  destruct (search_model_sound (Z.to_nat depth) (the_board w) alpha beta maximizing Hw)
    as (Hlow & Hhigh & Hin).
  repeat split; assumption.
Qed.

End EngineMoreFacts.

Lemma alpha_beta_respects_the_window_witness :
  exists r w',
    @_minimax Demo 4 3 (Fin (-5)) (Fin 5) true (search_world 3 SHRINK_TREE) = Ok (r, w') /\
    let v := @full_minimax Demo (Z.to_nat 3) (the_board (search_world 3 SHRINK_TREE)) true in
    (slt (Fin (-5)) v = true -> slt v (Fin 5) = true -> r = v) /\
    (sle v (Fin (-5)) = true -> sle r (Fin (-5)) = true) /\
    (sle (Fin 5) v = true -> sle (Fin 5) r = true).
Proof.
  apply (@alpha_beta_respects_the_window Demo 4 3 (Fin (-5)) (Fin 5) true
           (search_world 3 SHRINK_TREE)); [lia|simpl; lia|reflexivity].
Defined.

Section NodeBounds.
Context `{Chess}.
Arguments Z.add : simpl never.
Arguments Z.sub : simpl never.
Arguments Z.mul : simpl never.

(** ** Pruning only removes nodes *)

Lemma sum_over_nonneg {A} (f : A -> Z) (l : list A) :
  (forall x, 0 <= f x) -> 0 <= sum_over f l.
Proof.
  intros Hf. induction l as [|x l IH]; cbn [sum_over]; [lia|].
  pose proof (Hf x). lia.
Qed.

Lemma tree_size_pos (d : nat) (board : Board) : 1 <= tree_size d board.
Proof.
  revert board. induction d as [|d IH]; intros board; cbn [tree_size]; [lia|].
  destruct (is_game_over board); [lia|].
  pose proof (sum_over_nonneg (fun move => tree_size d (push_move move board))
                (legal_moves board)) as Hs.
  specialize (Hs ltac:(intros x; pose proof (IH (push_move x board)); lia)). lia.
Qed.

Section LoopsBounded.
Variable rec_f : Board -> score -> score -> bool -> score * list Event.
Variable cost : Board -> Z.
Hypothesis rec_le : forall b a beta mx, increments (snd (rec_f b a beta mx)) <= cost b.
Hypothesis cost_nonneg : forall b, 0 <= cost b.

Lemma max_model_increments_le (board : Board) (beta : score) (moves : list Move) :
  forall max_eval alpha,
    increments (snd (max_model rec_f board beta moves max_eval alpha))
    <= sum_over (fun m => cost (push_move m board)) moves.
Proof.
  induction moves as [|m rest IH]; intros M a; cbn [max_model sum_over]; [simpl; lia|].
  pose proof (rec_le (push_move m board) a beta false).
  pose proof (sum_over_nonneg (fun m => cost (push_move m board)) rest
                (fun x => cost_nonneg _)).
  destruct (sle beta _); cbn [snd].
  - rewrite increments_visit. lia.
  - rewrite increments_app, increments_visit.
    specialize (IH (smax M (fst (rec_f (push_move m board) a beta false)))
                   (smax a (fst (rec_f (push_move m board) a beta false)))).
    lia.
Qed.

Lemma min_model_increments_le (board : Board) (alpha : score) (moves : list Move) :
  forall min_eval beta,
    increments (snd (min_model rec_f board alpha moves min_eval beta))
    <= sum_over (fun m => cost (push_move m board)) moves.
Proof.
  induction moves as [|m rest IH]; intros M b; cbn [min_model sum_over]; [simpl; lia|].
  pose proof (rec_le (push_move m board) alpha b true).
  pose proof (sum_over_nonneg (fun m => cost (push_move m board)) rest
                (fun x => cost_nonneg _)).
  destruct (sle _ alpha); cbn [snd].
  - rewrite increments_visit. lia.
  - rewrite increments_app, increments_visit.
    specialize (IH (smin M (fst (rec_f (push_move m board) alpha b true)))
                   (smin b (fst (rec_f (push_move m board) alpha b true)))).
    lia.
Qed.

Hypothesis rec_ge : forall b a beta mx, 1 <= increments (snd (rec_f b a beta mx)).

(** The root loop has no cutoff: it pays for every root move. *)
Lemma root_model_increments_between (board : Board) (moves : list Move) :
  forall best_move best_score alpha beta,
    Z.of_nat (List.length moves)
    <= increments (snd (root_model rec_f board moves best_move best_score alpha beta))
    <= sum_over (fun m => cost (push_move m board)) moves.
Proof.
  induction moves as [|m rest IH]; intros bm bs a b;
    cbn [root_model snd sum_over List.length]; [simpl; lia|].
  rewrite increments_app, increments_visit.
  pose proof (rec_le (push_move m board) (sneg b) (sneg a) false).
  pose proof (rec_ge (push_move m board) (sneg b) (sneg a) false).
  set (r := fst (rec_f (push_move m board) (sneg b) (sneg a) false)) in *.
  specialize (IH (snd (if slt bs (sneg r) then (sneg r, Some m) else (bs, bm)))
                 (fst (if slt bs (sneg r) then (sneg r, Some m) else (bs, bm)))
                 (smax a (sneg r)) b).
  lia.
Qed.

End LoopsBounded.

Lemma search_model_increments_le (d : nat) :
  forall board alpha beta mx,
    increments (snd (search_model d board alpha beta mx)) <= tree_size d board.
Proof.
  induction d as [|d IH]; intros board alpha beta mx; cbn [search_model tree_size].
  - simpl; lia.
  - destruct (is_game_over board); [simpl; lia|].
    cbn [snd increments].
    destruct mx.
    + pose proof (max_model_increments_le (search_model d) (tree_size d) IH
                    (fun b => Z.le_trans _ _ _ Z.le_0_1 (tree_size_pos d b))
                    board beta (legal_moves board) NegInf alpha).
      lia.
    + pose proof (min_model_increments_le (search_model d) (tree_size d) IH
                    (fun b => Z.le_trans _ _ _ Z.le_0_1 (tree_size_pos d b))
                    board alpha (legal_moves board) PosInf beta).
      lia.
Qed.

(** X2.  An activation of [_minimax] of non-negative depth adds to
    [self.nodes_searched] at least 1 and at most the number of nodes of the
    unpruned game tree of that depth below the board: pruning never makes the
    search visit more than the full tree. *)
Theorem pruning_never_adds_nodes
    (fuel : nat) (depth : Z) (alpha beta : score) (maximizing : bool) (w : World) :
  0 <= depth -> (Z.to_nat depth < fuel)%nat ->
  exists r w',
    _minimax fuel depth alpha beta maximizing w = Ok (r, w') /\
    1 <= self_nodes_searched w' - self_nodes_searched w
      <= tree_size (Z.to_nat depth) (the_board w).
Proof.
  intros Hd Hf.
  rewrite (_minimax_run fuel depth alpha beta maximizing w Hd Hf).
  eexists _, _. split; [reflexivity|].
  cbn [self_nodes_searched after].
  pose proof (search_model_increments_le (Z.to_nat depth) (the_board w) alpha beta maximizing).
  destruct (search_model_clean (Z.to_nat depth) (the_board w) alpha beta maximizing)
    as (_ & _ & Hone).
  lia.
Qed.

(** X3.  On a position that satisfies the preconditions, the node count
    [get_best_move] reports is at least the number of legal root moves and at
    most the number of nodes, root excluded, of the unpruned game tree of the
    configured depth. *)
Theorem reported_nodes_are_bounded_by_the_full_tree
    (fuel : nat) (fen : string) (p : Position) (w : World) :
  from_fen fen = Some p ->
  is_game_over (new_board p) = false ->
  legal_moves (new_board p) <> [] ->
  1 <= self_depth w -> (Z.to_nat (self_depth w) <= fuel)%nat ->
  exists r w',
    get_best_move fuel fen w = Ok (r, w') /\
    Z.of_nat (List.length (legal_moves (new_board p))) <= nodes r /\
    nodes r + 1 <= tree_size (Z.to_nat (self_depth w)) (new_board p).
Proof.
  intros Hfen Hover Hmoves Hd Hf.
  destruct (nodes_of_get_best_move fuel fen p w Hfen Hover Hmoves Hd Hf) as (r & w' & E & N).
  exists r, w'. split; [exact E|]. rewrite N. unfold root_search.
  pose proof (root_model_increments_between
                (search_model (Z.to_nat (self_depth w - 1)))
                (tree_size (Z.to_nat (self_depth w - 1)))
                (search_model_increments_le _)
                (fun b a beta mx => proj2 (proj2 (search_model_clean _ b a beta mx)))
                (new_board p) (legal_moves (new_board p)) None NegInf NegInf PosInf) as B.
  split; [apply B|].
  replace (Z.to_nat (self_depth w)) with (S (Z.to_nat (self_depth w - 1))) by lia.
  cbn [tree_size]. rewrite Hover. lia.
Qed.

End NodeBounds.

Lemma pruning_never_adds_nodes_witness :
  exists r w',
    @_minimax Demo 5 4 NegInf PosInf true (search_world 4 SHRINK_TREE) = Ok (r, w') /\
    1 <= self_nodes_searched w' - self_nodes_searched (search_world 4 SHRINK_TREE)
      <= @tree_size Demo (Z.to_nat 4) (the_board (search_world 4 SHRINK_TREE)).
Proof.
  apply (@pruning_never_adds_nodes Demo 5 4 NegInf PosInf true (search_world 4 SHRINK_TREE));
    [lia|simpl; lia].
Defined.

Lemma reported_nodes_are_bounded_by_the_full_tree_witness :
  exists r w',
    @get_best_move Demo 4 SHRINK_FEN (demo_world 4) = Ok (r, w') /\
    Z.of_nat (List.length (@legal_moves Demo (@new_board Demo SHRINK_TREE))) <= nodes r /\
    nodes r + 1 <= @tree_size Demo (Z.to_nat (self_depth (demo_world 4)))
                              (@new_board Demo SHRINK_TREE).
Proof.
  apply (@reported_nodes_are_bounded_by_the_full_tree Demo 4 SHRINK_FEN SHRINK_TREE
           (demo_world 4));
    [reflexivity|reflexivity|vm_compute; discriminate|simpl; lia|simpl; lia].
Defined.

Section RootChoice.
Context `{Chess}.
Arguments Z.add : simpl never.
Arguments Z.sub : simpl never.
Arguments Z.mul : simpl never.

(** ** The move [get_best_move] returns *)

Lemma root_model_selection_is_enumerated
    (rec_f : Board -> score -> score -> bool -> score * list Event)
    (board : Board) (moves : list Move) :
  forall best_move best_score alpha beta m,
    fst (fst (root_model rec_f board moves best_move best_score alpha beta)) = Some m ->
    best_move = Some m \/ In m moves.
Proof.
  induction moves as [|mv rest IH]; intros bm bs a b m; cbn [root_model fst].
  - now left.
  - intros E. apply IH in E. destruct (slt bs _); cbn [snd] in E.
    + destruct E as [E|E]; [injection E as ->; right; now left|right; now right].
    + destruct E as [E|E]; [now left|right; now right].
Qed.

(** X4.  On a position that satisfies the preconditions, whatever the rules
    engine answers deeper in the tree, [get_best_move] returns the UCI
    notation of one of the legal moves of the position, a principal variation
    made of that single move, and the configured depth; it leaves [self.pv]
    empty, [self.depth] unchanged and [self.nodes_searched] at the count it
    reports. *)
Theorem get_best_move_returns_a_legal_move
    (fuel : nat) (fen : string) (p : Position) (w : World) :
  from_fen fen = Some p ->
  is_game_over (new_board p) = false ->
  legal_moves (new_board p) <> [] ->
  1 <= self_depth w -> (Z.to_nat (self_depth w) <= fuel)%nat ->
  exists m r w',
    In m (legal_moves (new_board p)) /\
    get_best_move fuel fen w = Ok (r, w') /\
    move_uci r = uci m /\
    principal_variation r = [uci m] /\
    depth_reached r = self_depth w /\
    self_pv w' = [] /\ self_depth w' = self_depth w /\
    self_nodes_searched w' = nodes r.
Proof.
  intros Hfen Hover Hmoves Hd Hf.
  pose proof (get_best_move_run fuel fen p w Hfen Hover Hmoves Hd Hf) as R.
  cbn zeta in R.
  destruct (fst (root_search (self_depth w) p)) as [[bm|] bs] eqn:E.
  - exists bm. eexists _, _. split.
    + destruct (root_model_selection_is_enumerated
                  (search_model (Z.to_nat (self_depth w - 1))) (new_board p)
                  (legal_moves (new_board p)) None NegInf NegInf PosInf bm) as [Habs|Hin];
        [unfold root_search in E; now rewrite E|discriminate|exact Hin].
    + split; [exact R|]. repeat split.
  - destruct (random_choice_ok (legal_moves (new_board p))
                (after (snd (root_search (self_depth w) p)) (entry_world p w)) Hmoves)
      as (m & Hin & Ec).
    rewrite Ec in R.
    exists m. eexists _, _. split; [exact Hin|]. split; [exact R|]. repeat split.
Qed.

(** ** What the root computes, at any depth *)

Lemma full_minimax_finite (consistent : oracle_consistent) (d : nat) (board : Board)
    (mx : bool) :
  full_minimax d board mx = Fin (centipawns (full_minimax d board mx)).
Proof.
  pose proof (search_model_sound d board NegInf PosInf mx eq_refl) as Hs.
  apply within_full_window in Hs.
  pose proof (search_model_finite consistent d board NegInf PosInf mx) as Hf.
  rewrite Hs in Hf. destruct (full_minimax d board mx); try discriminate. reflexivity.
Qed.

Section RootLoop.
Variable rec_f : Board -> score -> score -> bool -> score * list Event.
Variable board : Board.
Variable val : Move -> Z.
Hypothesis rec_sound : forall m a beta,
  slt a beta = true ->
  within a beta (Fin (val m)) (fst (rec_f (push_move m board) a beta false)).

(** The root loop once a move is selected, with [alpha] equal to the best
    score: it ends with the first move whose negated value is largest. *)
Lemma root_model_tracks_the_best (moves : list Move) :
  forall best_move z,
  exists m' z',
    fst (root_model rec_f board moves (Some best_move) (Fin z) (Fin z) PosInf)
    = (Some m', Fin z') /\
    z <= z' /\
    (forall x, In x moves -> - val x <= z') /\
    ((m' = best_move /\ z' = z) \/
     (exists pre post, moves = pre ++ m' :: post /\ z' = - val m' /\ z < z' /\
                       forall x, In x pre -> - val x < z')).
Proof.
  induction moves as [|mv rest IH]; intros bm z; cbn [root_model fst].
  - exists bm, z. repeat split; [lia|intros x []|now left].
  - cbn [sneg].
    assert (Hw : slt NegInf (Fin (- z)) = true) by reflexivity.
    destruct (rec_sound mv NegInf (Fin (- z)) Hw) as (_ & Hhigh & Hin).
    set (r := fst (rec_f (push_move mv board) NegInf (Fin (- z)) false)) in *.
    destruct (Z.lt_ge_cases (val mv) (- z)) as [Hlt|Hge].
    + assert (Er : r = Fin (val mv))
        by (apply Hin; [reflexivity|simpl; now apply Z.ltb_lt]).
      rewrite Er. unfold smax. cbn [sneg slt].
      assert (Elt : (z <? - val mv) = true) by (apply Z.ltb_lt; lia).
      rewrite Elt. cbn [fst snd].
      destruct (IH mv (- val mv)) as (m' & z' & E & Hz & Hall & Hor).
      exists m', z'. split; [exact E|]. split; [lia|]. split.
      * intros x [<-|Hx]; [lia|auto].
      * right. destruct Hor as [[-> ->]|(pre & post & -> & -> & Hlt' & Hpre)].
        -- exists [], rest. repeat split; [lia|intros x []].
        -- exists (mv :: pre), post. repeat split; [lia|].
           intros x [<-|Hx]; [lia|auto].
    + assert (Hr : sle (Fin (- z)) r = true)
        by (apply Hhigh; unfold sle; simpl; apply negb_true_iff, Z.ltb_ge; lia).
      assert (Hnot : slt (Fin z) (sneg r) = false /\ smax (Fin z) (sneg r) = Fin z).
      { unfold smax, sle in *. destruct r as [|q|]; simpl in *; try discriminate.
        - apply negb_true_iff, Z.ltb_ge in Hr.
          assert (E : (z <? - q) = false) by (apply Z.ltb_ge; lia).
          now rewrite E.
        - now split. }
      destruct Hnot as [Hnot Hmax]. rewrite Hnot, Hmax. cbn [fst snd].
      destruct (IH bm z) as (m' & z' & E & Hz & Hall & Hor).
      exists m', z'. split; [exact E|]. split; [lia|]. split.
      * intros x [<-|Hx]; [lia|auto].
      * destruct Hor as [[-> ->]|(pre & post & -> & -> & Hlt' & Hpre)]; [now left|right].
        exists (mv :: pre), post. repeat split; [lia|].
        intros x [<-|Hx]; [lia|auto].
Qed.

(** The whole root loop of [get_best_move]. *)
Lemma root_model_picks_the_first_lowest (moves : list Move) :
  moves <> [] ->
  exists m pre post,
    moves = pre ++ m :: post /\
    fst (root_model rec_f board moves None NegInf NegInf PosInf) = (Some m, Fin (- val m)) /\
    (forall x, In x pre -> val m < val x) /\
    (forall x, In x post -> val m <= val x).
Proof.
  destruct moves as [|mv rest]; [congruence|intros _].
  cbn [root_model fst sneg].
  destruct (rec_sound mv NegInf PosInf eq_refl) as (_ & _ & Hin).
  assert (Er : fst (rec_f (push_move mv board) NegInf PosInf false) = Fin (val mv))
    by (apply Hin; reflexivity).
  rewrite Er. unfold smax. cbn [sneg slt fst snd].
  destruct (root_model_tracks_the_best rest mv (- val mv))
    as (m' & z' & E & Hz & Hall & Hor).
  destruct Hor as [[-> ->]|(pre & post & -> & -> & Hlt & Hpre)].
  - exists mv, [], rest. repeat split; [exact E|intros x []|].
    intros x Hx. specialize (Hall x Hx). lia.
  - exists m', (mv :: pre), post. repeat split; [exact E| |].
    + intros x [<-|Hx]; [lia|specialize (Hpre x Hx); lia].
    + intros x Hx.
      assert (Hx' : In x (pre ++ m' :: post)) by (apply in_or_app; right; now right).
      specialize (Hall x Hx'). lia.
Qed.

End RootLoop.

(** X5.  With a rules engine that offers a move in every position that is
    not over, on a position that satisfies the preconditions and at any
    configured depth of at least 1: among the legal root moves,
    [get_best_move] returns the first one whose reply position has the lowest
    unpruned minimax value [v] (computed from White's side, the opponent of the
    mover minimizing first), and reports [-v / 100]; the root's own pruning
    window does not change this. *)
Theorem get_best_move_minimizes_the_reply_value
    (fuel : nat) (fen : string) (p : Position) (w : World) :
  oracle_consistent ->
  from_fen fen = Some p ->
  is_game_over (new_board p) = false ->
  legal_moves (new_board p) <> [] ->
  1 <= self_depth w -> (Z.to_nat (self_depth w) <= fuel)%nat ->
  exists m pre post r w',
    legal_moves (new_board p) = pre ++ m :: post /\
    get_best_move fuel fen w = Ok (r, w') /\
    move_uci r = uci m /\
    score_pawns r = Fin (- reply_value (self_depth w) (new_board p) m # 100) /\
    (forall x, In x pre ->
       reply_value (self_depth w) (new_board p) m
       < reply_value (self_depth w) (new_board p) x) /\
    (forall x, In x post ->
       reply_value (self_depth w) (new_board p) m
       <= reply_value (self_depth w) (new_board p) x).
Proof.
  intros Hcons Hfen Hover Hmoves Hd Hf.
  destruct (root_model_picks_the_first_lowest
              (search_model (Z.to_nat (self_depth w - 1))) (new_board p)
              (reply_value (self_depth w) (new_board p))) with (moves := legal_moves (new_board p))
    as (m & pre & post & Esplit & E & Hpre & Hpost).
  - intros mv a beta Hw. unfold reply_value.
    rewrite <- (full_minimax_finite Hcons). now apply search_model_sound.
  - exact Hmoves.
  - pose proof (get_best_move_run fuel fen p w Hfen Hover Hmoves Hd Hf) as R.
    cbn zeta in R. unfold root_search in R. rewrite E in R.
    exists m, pre, post. eexists _, _. split; [exact Esplit|]. split; [exact R|].
    repeat split; assumption.
Qed.

End RootChoice.

Lemma get_best_move_returns_a_legal_move_witness :
  exists m r w',
    In m (@legal_moves Demo (@new_board Demo MATE_TREE)) /\
    @get_best_move Demo 1 MATE_FEN (demo_world 1) = Ok (r, w') /\
    move_uci r = @uci Demo m /\
    principal_variation r = [@uci Demo m] /\
    depth_reached r = self_depth (demo_world 1) /\
    self_pv w' = [] /\ self_depth w' = self_depth (demo_world 1) /\
    self_nodes_searched w' = nodes r.
Proof.
  apply (@get_best_move_returns_a_legal_move Demo 1 MATE_FEN MATE_TREE (demo_world 1));
    [reflexivity|reflexivity|vm_compute; discriminate|simpl; lia|simpl; lia].
Defined.

Lemma get_best_move_minimizes_the_reply_value_witness :
  exists m pre post r w',
    @legal_moves Demo (@new_board Demo SHRINK_TREE) = pre ++ m :: post /\
    @get_best_move Demo 4 SHRINK_FEN (demo_world 4) = Ok (r, w') /\
    move_uci r = @uci Demo m /\
    score_pawns r
    = Fin (- @reply_value Demo (self_depth (demo_world 4)) (@new_board Demo SHRINK_TREE) m
           # 100) /\
    (forall x, In x pre ->
       @reply_value Demo (self_depth (demo_world 4)) (@new_board Demo SHRINK_TREE) m
       < @reply_value Demo (self_depth (demo_world 4)) (@new_board Demo SHRINK_TREE) x) /\
    (forall x, In x post ->
       @reply_value Demo (self_depth (demo_world 4)) (@new_board Demo SHRINK_TREE) m
       <= @reply_value Demo (self_depth (demo_world 4)) (@new_board Demo SHRINK_TREE) x).
Proof.
  apply (@get_best_move_minimizes_the_reply_value Demo 4 SHRINK_FEN SHRINK_TREE
           (demo_world 4));
    [apply tree_chess_consistent|reflexivity|reflexivity|vm_compute; discriminate
    |simpl; lia|simpl; lia].
Defined.

Section EvaluatorFacts.
Context `{Chess}.
Arguments Z.add : simpl never.
Arguments Z.sub : simpl never.
Arguments Z.mul : simpl never.

(** ** The evaluator *)

Lemma evaluate_square_adds (board : Board) (score : Z) (sq : Square) :
  evaluate_square board score sq = score + evaluate_square board 0 sq.
Proof.
  unfold evaluate_square. destruct (piece_at board sq) as [piece|]; [|lia].
  destruct (Bool.eqb (color piece) WHITE); lia.
Qed.

Lemma fold_evaluate_square (board : Board) (squares : list Square) :
  forall score,
    fold_left (evaluate_square board) squares score
    = score + sum_over (evaluate_square board 0) squares.
Proof.
  induction squares as [|sq rest IH]; intros score; cbn [fold_left sum_over]; [lia|].
  rewrite IH, (evaluate_square_adds board score sq). lia.
Qed.

Lemma sum_over_ext_in {A} (f g : A -> Z) (l : list A) :
  (forall x, In x l -> f x = g x) -> sum_over f l = sum_over g l.
Proof.
  induction l as [|x l IH]; intros Hfg; cbn [sum_over]; [reflexivity|].
  rewrite (Hfg x) by now left. rewrite IH; [reflexivity|].
  intros y Hy; apply Hfg; now right.
Qed.

Lemma sum_over_opp {A} (f : A -> Z) (l : list A) :
  sum_over (fun x => - f x) l = - sum_over f l.
Proof. induction l as [|x l IH]; cbn [sum_over]; [reflexivity|]. rewrite IH. lia. Qed.

(** Mirroring permutes the sixty-four squares. *)
Lemma sum_over_mirrored_squares (f : Square -> Z) :
  sum_over (fun sq => f (square_mirror sq)) SQUARES = sum_over f SQUARES.
Proof.
  unfold SQUARES. cbn [seq sum_over].
  repeat match goal with
         | |- context [square_mirror ?n] =>
             let m := eval vm_compute in (square_mirror n) in
             change (square_mirror n) with m
         end.
  lia.
Qed.

(** The tables are read at the same entry for a piece and for its mirror
    image: their rows are symmetric from left to right. *)
Lemma tables_agree_on_mirrored_squares :
  Forall (fun sq =>
            table_at PAWN_TABLE (63 - sq) = table_at PAWN_TABLE (square_mirror sq) /\
            table_at PAWN_TABLE sq = table_at PAWN_TABLE (63 - square_mirror sq) /\
            table_at KNIGHT_TABLE (63 - sq) = table_at KNIGHT_TABLE (square_mirror sq) /\
            table_at KNIGHT_TABLE sq = table_at KNIGHT_TABLE (63 - square_mirror sq))
         SQUARES.
Proof. unfold SQUARES. cbn [seq]. repeat constructor. Qed.

(** X6.  The evaluation is antisymmetric under [board.mirror()]: if a second
    board carries, on every square, the piece of the first board's mirrored
    square with the other colour, has the other side to move, the same
    terminal status and as many legal moves, then its evaluation is the
    opposite of the first board's. *)
Theorem evaluate_is_antisymmetric_under_mirror (board mirrored : Board) :
  (forall sq, In sq SQUARES ->
     piece_at mirrored sq = option_map swap_color (piece_at board (square_mirror sq))) ->
  turn mirrored = negb (turn board) ->
  is_checkmate mirrored = is_checkmate board ->
  is_stalemate mirrored = is_stalemate board ->
  is_insufficient_material mirrored = is_insufficient_material board ->
  List.length (legal_moves mirrored) = List.length (legal_moves board) ->
  _evaluate mirrored = - _evaluate board.
Proof.
  intros Hplace Hturn Hmate Hstale Hdead Hmoves.
  unfold _evaluate. rewrite Hmate, Hstale, Hdead, Hturn, Hmoves.
  destruct (is_checkmate board); [destruct (turn board); reflexivity|].
  destruct (is_stalemate board || is_insufficient_material board); [reflexivity|].
  cbn zeta. rewrite !fold_evaluate_square.
  assert (Hsum : sum_over (evaluate_square mirrored 0) SQUARES
                 = - sum_over (evaluate_square board 0) SQUARES).
  { rewrite <- sum_over_opp, <- (sum_over_mirrored_squares (fun sq => - evaluate_square board 0 sq)).
    apply sum_over_ext_in. intros sq Hsq.
    pose proof (proj1 (Forall_forall _ _) tables_agree_on_mirrored_squares sq Hsq)
      as (P1 & P2 & K1 & K2).
    unfold evaluate_square. rewrite (Hplace sq Hsq).
    destruct (piece_at board (square_mirror sq)) as [[pt c]|]; [|reflexivity].
    cbn [option_map swap_color piece_type color].
    destruct pt, c; cbn [negb Bool.eqb WHITE dict_get PIECE_VALUES PieceType_eqb];
      rewrite ?P1, ?K1, <- ?P2, <- ?K2; lia. }
  rewrite Hsum. destruct (turn board); cbn [negb Bool.eqb WHITE]; lia.
Qed.

(** X7.  [_evaluate] never reads outside its tables and never falls back on
    the default of [PIECE_VALUES.get]: for every square of [chess.SQUARES] and
    either colour the index it computes is inside [PAWN_TABLE] and
    [KNIGHT_TABLE], and every piece type is a key of [PIECE_VALUES]. *)
Theorem evaluate_lookups_are_in_range (sq : Square) (piece : Piece) :
  In sq SQUARES ->
  let index := (if color piece then sq else 63 - sq)%nat in
  nth_error PAWN_TABLE index = Some (table_at PAWN_TABLE index) /\
  nth_error KNIGHT_TABLE index = Some (table_at KNIGHT_TABLE index) /\
  In (piece_type piece, dict_get PIECE_VALUES (piece_type piece) 0) PIECE_VALUES.
Proof.
  intros Hsq index.
  assert (Hlt : (index < 64)%nat).
  { unfold SQUARES in Hsq. apply in_seq in Hsq. unfold index.
    destruct (color piece); lia. }
  assert (Hin : forall table, List.length table = 64%nat ->
                  nth_error table index = Some (table_at table index)).
  { intros table Hlen. unfold table_at.
    apply nth_error_nth'. now rewrite Hlen. }
  split; [now apply Hin|]. split; [now apply Hin|].
  destruct piece as [[] c]; cbn; tauto.
Qed.

End EvaluatorFacts.

Lemma evaluate_is_antisymmetric_under_mirror_witness :
  @_evaluate Demo (@new_board Demo MIRRORED_QUIET_REPLY)
  = - @_evaluate Demo (@new_board Demo (quiet_reply 15 0)).
Proof.
  apply (@evaluate_is_antisymmetric_under_mirror Demo
           (@new_board Demo (quiet_reply 15 0)) (@new_board Demo MIRRORED_QUIET_REPLY));
    reflexivity.
Defined.

Lemma evaluate_lookups_are_in_range_witness :
  nth_error PAWN_TABLE (63 - 12) = Some (table_at PAWN_TABLE (63 - 12)) /\
  nth_error KNIGHT_TABLE (63 - 12) = Some (table_at KNIGHT_TABLE (63 - 12)) /\
  In (PAWN, dict_get PIECE_VALUES PAWN 0) PIECE_VALUES.
Proof.
  apply (evaluate_lookups_are_in_range 12%nat (mkPiece PAWN BLACK)).
  unfold SQUARES. apply in_seq. lia.
Defined.

(** * The board encoder *)

Section ArrayFacts.

Lemma nth_error_tabulate {A} (g : nat -> A) (n i s : nat) :
  (i < n)%nat -> nth_error (map g (seq s n)) i = Some (g (s + i)%nat).
Proof.
  revert i s. induction n as [|n IH]; intros i s Hi; [lia|].
  destruct i as [|i]; cbn [seq map nth_error].
  - now rewrite Nat.add_0_r.
  - rewrite IH by lia. f_equal. f_equal. lia.
Qed.

Lemma nth_error_tabulate_none {A} (g : nat -> A) (n i s : nat) :
  (n <= i)%nat -> nth_error (map g (seq s n)) i = None.
Proof.
  intros Hi. apply nth_error_None. now rewrite length_map, length_seq.
Qed.

Lemma list_set_tabulate {A} (g : nat -> A) (n i s : nat) (v : A) :
  (i < n)%nat ->
  list_set (map g (seq s n)) i v
  = Some (map (fun j => if Nat.eqb j (s + i) then v else g j) (seq s n)).
Proof.
  revert i s. induction n as [|n IH]; intros i s Hi; [lia|].
  destruct i as [|i]; cbn [seq map list_set].
  - rewrite Nat.add_0_r, Nat.eqb_refl. f_equal. f_equal.
    apply map_ext_in. intros j Hj. apply in_seq in Hj.
    destruct (Nat.eqb_spec j s); [lia | reflexivity].
  - rewrite IH by lia.
    destruct (Nat.eqb_spec s (s + S i)); [lia|].
    f_equal. f_equal. apply map_ext_in. intros j _.
    now replace (S s + i)%nat with (s + S i)%nat by lia.
Qed.

Lemma repeat_tabulate {A} (x : A) (n s : nat) :
  repeat x n = map (fun _ => x) (seq s n).
Proof.
  revert s. induction n as [|n IH]; intros s; cbn [repeat seq map]; [reflexivity|].
  f_equal. apply IH.
Qed.

Lemma np_zeros_tabulate (nc nr nf : nat) :
  np_zeros nc nr nf = tabulate3 nc nr nf (fun _ _ _ => 0).
Proof.
  unfold np_zeros, tabulate3.
  rewrite (repeat_tabulate _ nc 0). apply map_ext. intros _.
  rewrite (repeat_tabulate _ nr 0). apply map_ext. intros _.
  apply repeat_tabulate.
Qed.

Lemma tabulate3_ext (nc nr nf : nat) (g g' : nat -> nat -> nat -> Z) :
  (forall c r f, (c < nc)%nat -> (r < nr)%nat -> (f < nf)%nat -> g c r f = g' c r f) ->
  tabulate3 nc nr nf g = tabulate3 nc nr nf g'.
Proof.
  intros E. unfold tabulate3.
  apply map_ext_in. intros c Hc. apply in_seq in Hc.
  apply map_ext_in. intros r Hr. apply in_seq in Hr.
  apply map_ext_in. intros f Hf. apply in_seq in Hf.
  apply E; lia.
Qed.

Lemma array_get_tabulate (nc nr nf : nat) (g : nat -> nat -> nat -> Z) (c r f : nat) :
  array_get (tabulate3 nc nr nf g) c r f
  = if (c <? nc)%nat && (r <? nr)%nat && (f <? nf)%nat then Some (g c r f) else None.
Proof.
  unfold array_get, tabulate3.
  destruct (Nat.ltb_spec c nc) as [Hc|Hc]; cbn [andb].
  - rewrite nth_error_tabulate by assumption. cbn [Nat.add].
    destruct (Nat.ltb_spec r nr) as [Hr|Hr]; cbn [andb].
    + rewrite nth_error_tabulate by assumption. cbn [Nat.add].
      destruct (Nat.ltb_spec f nf) as [Hf|Hf].
      * now rewrite nth_error_tabulate by assumption.
      * now rewrite nth_error_tabulate_none by assumption.
    + now rewrite nth_error_tabulate_none by assumption.
  - now rewrite nth_error_tabulate_none by assumption.
Qed.

Lemma array_set_tabulate (nc nr nf : nat) (g : nat -> nat -> nat -> Z)
    (c r f : nat) (v : Z) :
  (c < nc)%nat -> (r < nr)%nat -> (f < nf)%nat ->
  array_set (tabulate3 nc nr nf g) c r f v
  = Some (tabulate3 nc nr nf
            (fun c' r' f' =>
               if Nat.eqb c' c && Nat.eqb r' r && Nat.eqb f' f then v else g c' r' f')).
Proof.
  intros Hc Hr Hf. unfold array_set, tabulate3.
  rewrite nth_error_tabulate by assumption. cbn [Nat.add].
  rewrite nth_error_tabulate by assumption. cbn [Nat.add].
  rewrite list_set_tabulate by assumption. cbn [Nat.add].
  rewrite list_set_tabulate by assumption. cbn [Nat.add].
  rewrite list_set_tabulate by assumption. cbn [Nat.add].
  f_equal. apply map_ext_in. intros c' _.
  destruct (Nat.eqb_spec c' c) as [->|Hne]; cbn [andb]; [|reflexivity].
  apply map_ext_in. intros r' _.
  destruct (Nat.eqb_spec r' r) as [->|Hne]; cbn [andb]; reflexivity.
Qed.

Lemma piece_to_channel_total (pt : PieceType) (c : Color) :
  exists channel, dict_lookup piece_to_channel (pt, c) = Some channel /\ (channel < 12)%nat.
Proof.
  destruct pt, c; cbn; eexists; (split; [reflexivity | lia]).
Qed.

Lemma piece_to_channel_injective (p q : Piece) (channel : nat) :
  dict_lookup piece_to_channel (piece_type p, color p) = Some channel ->
  dict_lookup piece_to_channel (piece_type q, color q) = Some channel ->
  p = q.
Proof.
  destruct p as [pt c], q as [pt' c']. cbn [piece_type color].
  destruct pt, c; cbn; intros E; injection E as <-;
    destruct pt', c'; cbn; intros E'; try discriminate E'; reflexivity.
Qed.

End ArrayFacts.

Section EncoderFacts.
Context `{Chess}.

(** What the array holds once the loop has passed the squares below [k]. *)
Let upto (board : Board) (k : nat) : nat -> nat -> nat -> Z :=
  fun c r f => if (8 * r + f <? k)%nat then one_hot board c r f else 0.

Lemma encode_square_tabulate (board : Board) (k : nat) :
  (k < 64)%nat ->
  encode_square board (tabulate3 12 8 8 (upto board k)) k
  = inr (tabulate3 12 8 8 (upto board (S k))).
Proof.
  intros Hk. unfold encode_square.
  assert (Hdm : k = (8 * (k / 8) + k mod 8)%nat) by apply Nat.div_mod_eq.
  assert (Hm : (k mod 8 < 8)%nat) by (apply Nat.mod_upper_bound; lia).
  destruct (piece_at board k) as [piece|] eqn:Ep.
  - destruct (piece_to_channel_total (piece_type piece) (color piece)) as (ch & Ech & Hch).
    rewrite Ech. unfold square_rank, square_file.
    rewrite array_set_tabulate by lia.
    f_equal. apply tabulate3_ext. intros c r f Hc Hr Hf. unfold upto.
    destruct (Nat.eqb_spec r (k / 8)) as [Er|Er];
      destruct (Nat.eqb_spec f (k mod 8)) as [Ef|Ef];
      rewrite ?andb_false_r; cbn [andb].
    + subst r f. rewrite <- Hdm.
      destruct (Nat.ltb_spec k (S k)); [|lia].
      unfold one_hot. rewrite <- Hdm, Ep, Ech.
      destruct (Nat.eqb c ch); [reflexivity|].
      destruct (Nat.ltb_spec k k); [lia | reflexivity].
    + destruct (Nat.ltb_spec (8 * r + f) k), (Nat.ltb_spec (8 * r + f) (S k));
        try reflexivity; lia.
    + destruct (Nat.ltb_spec (8 * r + f) k), (Nat.ltb_spec (8 * r + f) (S k));
        try reflexivity; lia.
    + destruct (Nat.ltb_spec (8 * r + f) k), (Nat.ltb_spec (8 * r + f) (S k));
        try reflexivity; lia.
  - f_equal. apply tabulate3_ext. intros c r f Hc Hr Hf. unfold upto.
    destruct (Nat.ltb_spec (8 * r + f) k), (Nat.ltb_spec (8 * r + f) (S k));
      try reflexivity; try lia.
    assert (E : (8 * r + f)%nat = k) by lia.
    unfold one_hot. now rewrite E, Ep.
Qed.

Lemma encode_squares_tabulate (board : Board) (n k : nat) :
  (k + n <= 64)%nat ->
  encode_squares board (seq k n) (tabulate3 12 8 8 (upto board k))
  = inr (tabulate3 12 8 8 (upto board (k + n))).
Proof.
  revert k. induction n as [|n IH]; intros k Hk; cbn [seq encode_squares].
  - now rewrite Nat.add_0_r.
  - rewrite encode_square_tabulate by lia. rewrite IH by lia.
    now replace (S k + n)%nat with (k + S n)%nat by lia.
Qed.

Lemma encode_board_tabulate (board : Board) :
  encode_board board = inr (tabulate3 12 8 8 (one_hot board)).
Proof.
  unfold encode_board, SQUARES.
  rewrite np_zeros_tabulate.
  rewrite (tabulate3_ext 12 8 8 (fun _ _ _ => 0) (upto board 0))
    by (intros; reflexivity).
  rewrite encode_squares_tabulate by lia.
  apply f_equal. apply tabulate3_ext. intros c r f Hc Hr Hf. unfold upto.
  destruct (Nat.ltb_spec (8 * r + f) (0 + 64)); [reflexivity | lia].
Qed.

Lemma one_hot_determines_the_piece (b1 b2 : Board) (r f : nat) :
  (forall c, (c < 12)%nat -> one_hot b1 c r f = one_hot b2 c r f) ->
  piece_at b1 (8 * r + f)%nat = piece_at b2 (8 * r + f)%nat.
Proof.
  intros E. unfold one_hot in E.
  destruct (piece_at b1 (8 * r + f)%nat) as [p1|], (piece_at b2 (8 * r + f)%nat) as [p2|];
    try reflexivity.
  - destruct (piece_to_channel_total (piece_type p1) (color p1)) as (ch & Ech & Hch).
    destruct (piece_to_channel_total (piece_type p2) (color p2)) as (ch' & Ech' & Hch').
    specialize (E ch Hch). rewrite Ech, Ech', Nat.eqb_refl in E.
    destruct (Nat.eqb_spec ch ch') as [Heq|Hne]; [subst ch'|discriminate E].
    f_equal. exact (piece_to_channel_injective p1 p2 ch Ech Ech').
  - destruct (piece_to_channel_total (piece_type p1) (color p1)) as (ch & Ech & Hch).
    specialize (E ch Hch). rewrite Ech, Nat.eqb_refl in E. discriminate E.
  - destruct (piece_to_channel_total (piece_type p2) (color p2)) as (ch & Ech & Hch).
    specialize (E ch Hch). rewrite Ech, Nat.eqb_refl in E. discriminate E.
Qed.

(** X8.  [encode_board] never raises: no piece misses from [piece_to_channel]
    and no index leaves the array.  The array it returns has shape
    (12, 8, 8): reading it outside that range fails, and inside it the entry
    at (c, r, f) is 1 when the piece on square [8 * r + f] has channel [c] and
    0 otherwise, so that an occupied square sets exactly one channel and an
    empty square none. *)
Theorem encode_board_is_one_hot (board : Board) :
  exists encoded,
    encode_board board = inr encoded /\
    forall c r f,
      array_get encoded c r f
      = if (c <? 12)%nat && (r <? 8)%nat && (f <? 8)%nat
        then match piece_at board (8 * r + f)%nat with
             | Some piece =>
                 if option_eqb_nat
                      (dict_lookup piece_to_channel (piece_type piece, color piece)) c
                 then Some 1 else Some 0
             | None => Some 0
             end
        else None.
Proof.
  exists (tabulate3 12 8 8 (one_hot board)). split; [apply encode_board_tabulate|].
  intros c r f. rewrite array_get_tabulate.
  destruct ((c <? 12)%nat && (r <? 8)%nat && (f <? 8)%nat); [|reflexivity].
  unfold one_hot. destruct (piece_at board (8 * r + f)%nat) as [piece|]; [|reflexivity].
  destruct (piece_to_channel_total (piece_type piece) (color piece)) as (ch & Ech & _).
  rewrite Ech. cbn [option_eqb_nat]. rewrite (Nat.eqb_sym c ch).
  now destruct (Nat.eqb ch c).
Qed.

(** X9.  Two FEN strings that python-chess accepts get the same encoding
    exactly when they put the same pieces on the same 64 squares: the
    encoding determines the placement, and nothing else of the position
    (side to move, castling rights, clocks) reaches it. *)
Theorem encode_fen_depends_on_the_placement_only (fen1 fen2 : string) (p1 p2 : Position) :
  from_fen fen1 = Some p1 ->
  from_fen fen2 = Some p2 ->
  (encode_fen fen1 = encode_fen fen2 <->
   forall square, In square SQUARES ->
     piece_at (new_board p1) square = piece_at (new_board p2) square).
Proof.
  intros E1 E2. unfold encode_fen. rewrite E1, E2, !encode_board_tabulate. split.
  - intros E square Hsq. apply in_seq in Hsq.
    assert (Hdm : square = (8 * (square / 8) + square mod 8)%nat) by apply Nat.div_mod_eq.
    assert (Hm : (square mod 8 < 8)%nat) by (apply Nat.mod_upper_bound; lia).
    assert (Hr : (square / 8 < 8)%nat) by lia.
    rewrite Hdm. apply one_hot_determines_the_piece. intros c Hc.
    assert (G : array_get (tabulate3 12 8 8 (one_hot (new_board p1))) c (square / 8) (square mod 8)
                = array_get (tabulate3 12 8 8 (one_hot (new_board p2))) c (square / 8) (square mod 8))
      by exact (f_equal (fun x : EncodeFenError + Array3 =>
                           match x with
                           | inr a => array_get a c (square / 8) (square mod 8)
                           | inl _ => None
                           end) E).
    rewrite !array_get_tabulate in G.
    destruct (Nat.ltb_spec c 12); [|lia].
    destruct (Nat.ltb_spec (square / 8) 8); [|lia].
    destruct (Nat.ltb_spec (square mod 8) 8); [|lia].
    cbn [andb] in G. now injection G.
  - intros E. f_equal. apply tabulate3_ext. intros c r f Hc Hr Hf.
    unfold one_hot. rewrite (E (8 * r + f)%nat); [reflexivity|].
    apply in_seq. lia.
Qed.

End EncoderFacts.

Lemma encode_fen_depends_on_the_placement_only_witness :
  @from_fen Demo STARTING_FEN = Some STARTING_TREE /\
  @from_fen Demo MATE_FEN = Some MATE_TREE /\
  (@encode_fen Demo STARTING_FEN = @encode_fen Demo MATE_FEN <->
   forall square, In square SQUARES ->
     @piece_at Demo (@new_board Demo STARTING_TREE) square
     = @piece_at Demo (@new_board Demo MATE_TREE) square).
Proof.
  split; [reflexivity|]. split; [reflexivity|].
  apply (@encode_fen_depends_on_the_placement_only Demo); reflexivity.
Defined.

(** * Decoding a move vector *)

Section DecoderFacts.
Context `{Chess}.
Variable Vector : Type.
Variable np_argmax : Vector -> Res nat.

(** X10.  Once [argmax] has found an index, whatever it is, [decode_move]
    either raises [ValueError("No legal moves")], which it does exactly on a
    board without legal moves, or returns the UCI notation of a legal move of
    the board: the index is reduced modulo the number of legal moves, so that
    the list access never raises. *)
Theorem decode_move_returns_a_legal_move
    (move_vector : Vector) (board : Board) (i : nat) :
  np_argmax move_vector = Ok i ->
  (legal_moves board = [] /\
   decode_move Vector np_argmax move_vector board = Raise (ValueError "No legal moves"))
  \/
  (exists move,
     nth_error (legal_moves board) (i mod List.length (legal_moves board)) = Some move /\
     In move (legal_moves board) /\
     decode_move Vector np_argmax move_vector board = Ok (uci move)).
Proof.
  intros Ei. unfold decode_move.
  destruct (legal_moves board) as [|m0 rest] eqn:Em; [left; now split|right].
  rewrite Ei.
  destruct (nth_error (m0 :: rest) (i mod List.length (m0 :: rest))) as [move|] eqn:En.
  - exists move. split; [reflexivity|]. split; [|reflexivity].
    eapply nth_error_In; eassumption.
  - apply nth_error_None in En.
    pose proof (Nat.mod_upper_bound i (List.length (m0 :: rest))) as B.
    cbn [List.length] in *. lia.
Qed.

End DecoderFacts.

Lemma decode_move_returns_a_legal_move_witness :
  first_argmax [3; 9; 9; 1] = Ok 1%nat /\
  ((@legal_moves Demo (@new_board Demo STARTING_TREE) = [] /\
    @decode_move Demo (list Z) first_argmax [3; 9; 9; 1] (@new_board Demo STARTING_TREE)
    = Raise (ValueError "No legal moves"))
   \/
   (exists move,
      nth_error (@legal_moves Demo (@new_board Demo STARTING_TREE))
                (1 mod List.length (@legal_moves Demo (@new_board Demo STARTING_TREE)))
      = Some move /\
      In move (@legal_moves Demo (@new_board Demo STARTING_TREE)) /\
      @decode_move Demo (list Z) first_argmax [3; 9; 9; 1] (@new_board Demo STARTING_TREE)
      = Ok (@uci Demo move))).
Proof.
  split; [reflexivity|].
  apply (@decode_move_returns_a_legal_move Demo (list Z) first_argmax
           [3; 9; 9; 1] (@new_board Demo STARTING_TREE) 1%nat).
  reflexivity.
Defined.

(** * The admin token *)

Section TokenFacts.

Lemma startswith_append (prefix rest : string) :
  startswith (prefix ++ rest)%string prefix = true.
Proof.
  induction prefix as [|a prefix IH]; cbn [String.append startswith].
  - now destruct rest.
  - now rewrite Ascii.eqb_refl, IH.
Qed.

Lemma str_drop_append (prefix rest : string) :
  str_drop (String.length prefix) (prefix ++ rest)%string = rest.
Proof.
  induction prefix as [|a prefix IH]; cbn [String.append String.length str_drop].
  - now destruct rest.
  - exact IH.
Qed.

Lemma startswith_split (s prefix : string) :
  startswith s prefix = true ->
  s = (prefix ++ str_drop (String.length prefix) s)%string.
Proof.
  revert s. induction prefix as [|a prefix IH]; intros s E;
    cbn [String.append String.length str_drop].
  - now destruct s.
  - destruct s as [|b s]; cbn [startswith] in E; [discriminate|].
    apply andb_true_iff in E. destruct E as [Eab Es].
    apply Ascii.eqb_eq in Eab. subst b. cbn [str_drop]. f_equal. now apply IH.
Qed.

(** X11.  [verify_admin_token] returns normally for exactly one header, the
    text "Bearer " followed by the admin token, and it then returns the
    token.  A header that starts with "Bearer " and continues with anything
    else is answered with status 403, and every other header, a missing or an
    empty one included, with status 401. *)
Theorem verify_admin_token_accepts_one_header
    (ADMIN_TOKEN : string) (authorization : option string) :
  (forall token,
     verify_admin_token ADMIN_TOKEN authorization = inr token <->
     authorization = Some ("Bearer " ++ ADMIN_TOKEN)%string /\ token = ADMIN_TOKEN) /\
  (verify_admin_token ADMIN_TOKEN authorization
   = inl (mkHTTPException 403 "Invalid admin token") <->
   exists rest, authorization = Some ("Bearer " ++ rest)%string /\ rest <> ADMIN_TOKEN) /\
  (verify_admin_token ADMIN_TOKEN authorization
   = inl (mkHTTPException 401 "Missing or invalid authorization header") <->
   forall rest, authorization <> Some ("Bearer " ++ rest)%string).
Proof.
  unfold verify_admin_token.
  destruct authorization as [a|].
  2:{ split; [|split].
      - intros token. split; [discriminate|intros [E _]; discriminate E].
      - split; [discriminate|intros (rest & E & _); discriminate E].
      - split; [intros _ rest; discriminate|reflexivity]. }
  destruct (startswith a "Bearer ") eqn:Es.
  - pose proof (startswith_split a "Bearer " Es) as Ea.
    change (String.length "Bearer ") with 7%nat in Ea.
    assert (Hne : String.eqb a "" = false)
      by (rewrite Ea; reflexivity).
    rewrite Hne. cbn [orb negb].
    set (token0 := str_drop 7 a) in *.
    assert (Hinj : forall rest, Some a = Some ("Bearer " ++ rest)%string -> rest = token0).
    { intros rest E. injection E as E. unfold token0. rewrite E.
      exact (eq_sym (str_drop_append "Bearer " rest)). }
    destruct (String.eqb_spec token0 ADMIN_TOKEN) as [Et|Et]; cbn [negb].
    + split; [|split].
      * intros token. split.
        -- intros E. injection E as <-. split; [now rewrite Ea, Et|exact Et].
        -- intros [_ ->]. now rewrite Et.
      * split; [discriminate|].
        intros (rest & E & Hr). apply Hinj in E. congruence.
      * split; [discriminate|].
        intros Hall. exfalso. apply (Hall token0). now rewrite Ea at 1.
    + split; [|split].
      * intros token. split; [discriminate|].
        intros [E _]. apply Hinj in E. congruence.
      * split; [|reflexivity].
        intros _. exists token0. split; [now rewrite Ea at 1|exact Et].
      * split; [discriminate|].
        intros Hall. exfalso. apply (Hall token0). now rewrite Ea at 1.
  - rewrite orb_true_r.
    assert (Hno : forall rest, Some a <> Some ("Bearer " ++ rest)%string).
    { intros rest E.
      pose proof (startswith_append "Bearer " rest) as Hs.
      replace ("Bearer " ++ rest)%string with a in Hs by congruence.
      congruence. }
    split; [|split].
    + intros token. split; [discriminate|]. intros [E _]. now apply Hno in E.
    + split; [discriminate|]. intros (rest & E & _). now apply Hno in E.
    + split; [intros _; exact Hno|reflexivity].
Qed.

End TokenFacts.

(** * The network's move choice *)

Section FloatFacts.

Lemma Qltb_true (a b : Q) : negb (Qle_bool b a) = true <-> (a < b)%Q.
Proof.
  rewrite negb_true_iff. split.
  - intros E. apply Qnot_le_lt. intros Hle. apply Qle_bool_iff in Hle. congruence.
  - intros Hlt. destruct (Qle_bool b a) eqn:E; [|reflexivity].
    apply Qle_bool_iff in E. exfalso. exact (Qlt_not_le _ _ Hlt E).
Qed.

Lemma Qltb_false (a b : Q) : negb (Qle_bool b a) = false <-> (b <= a)%Q.
Proof. rewrite negb_false_iff. apply Qle_bool_iff. Qed.

Lemma ext_ltb_irrefl (a : ext Q) : ext_ltb a a = false.
Proof.
  destruct a as [|a|]; cbn [ext_ltb]; try reflexivity.
  apply Qltb_false. apply Qle_refl.
Qed.

Lemma ext_ltb_trans (a b c : ext Q) :
  ext_ltb a b = true -> ext_ltb b c = true -> ext_ltb a c = true.
Proof.
  destruct a as [|a|], b as [|b|], c as [|c|]; cbn [ext_ltb]; intros H1 H2;
    try discriminate; try reflexivity.
  apply Qltb_true in H1, H2. apply Qltb_true. eapply Qlt_trans; eassumption.
Qed.

(** [a <= b] and [b < c] give [a < c]. *)
Lemma ext_le_lt_trans (a b c : ext Q) :
  ext_ltb b a = false -> ext_ltb b c = true -> ext_ltb a c = true.
Proof.
  destruct a as [|a|], b as [|b|], c as [|c|]; cbn [ext_ltb]; intros H1 H2;
    try discriminate; try reflexivity.
  apply Qltb_false in H1. apply Qltb_true in H2. apply Qltb_true.
  eapply Qle_lt_trans; eassumption.
Qed.

(** [a <= b] and [b <= c] give [a <= c]. *)
Lemma ext_le_trans (a b c : ext Q) :
  ext_ltb b a = false -> ext_ltb c b = false -> ext_ltb c a = false.
Proof.
  destruct a as [|a|], b as [|b|], c as [|c|]; cbn [ext_ltb]; intros H1 H2;
    try discriminate; try reflexivity.
  apply Qltb_false in H1, H2. apply Qltb_false. eapply Qle_trans; eassumption.
Qed.

Lemma ext_lt_le (a b : ext Q) : ext_ltb a b = true -> ext_ltb b a = false.
Proof.
  destruct a as [|a|], b as [|b|]; cbn [ext_ltb]; intros H1;
    try discriminate; try reflexivity.
  apply Qltb_true in H1. apply Qltb_false. now apply Qlt_le_weak.
Qed.

Lemma float_gt_is_a_number (s t : pyfloat) :
  float_gt s t = true -> exists x, s = Num x.
Proof. destruct s as [|x]; [discriminate|]. intros _. now exists x. Qed.

End FloatFacts.

Section NetworkFacts.
Context `{Chess}.
Variable Logits : Type.
Variable py_hash : string -> Z.
Variable softmax : Logits -> list pyfloat.
Variable policy_probs : list pyfloat.
Hypothesis some_probs : policy_probs <> [].

Let P (move : Move) : pyfloat := prob_of py_hash policy_probs move.

Lemma policy_lookup_ok (move : Move) :
  policy_lookup py_hash policy_probs move = inr (P move).
Proof.
  unfold policy_lookup, P, prob_of.
  assert (Hlen : (List.length policy_probs <> 0)%nat)
    by (destruct policy_probs; [congruence|discriminate]).
  destruct (Nat.eqb_spec (List.length policy_probs) 0) as [E|_]; [contradiction|].
  set (i := Z.to_nat (py_hash (uci move) mod Z.of_nat (List.length policy_probs))).
  assert (Hi : (i < List.length policy_probs)%nat).
  { unfold i.
    pose proof (Z.mod_pos_bound (py_hash (uci move)) (Z.of_nat (List.length policy_probs))).
    lia. }
  now rewrite (nth_error_nth' policy_probs NaN Hi).
Qed.

(** The loop once a move is selected: it ends on a move whose probability no
    later move exceeds, the first of them. *)
Lemma policy_loop_tracks (moves : list Move) :
  forall best_move x,
    ext_ltb NegInf x = true ->
    exists m' x',
      policy_loop py_hash policy_probs moves (Some best_move) (Num x)
      = inr (Some m', Num x') /\
      ext_ltb NegInf x' = true /\
      ext_ltb x' x = false /\
      (forall y, In y moves -> float_gt (P y) (Num x') = false) /\
      ((m' = best_move /\ x' = x) \/
       (exists pre post,
          moves = pre ++ m' :: post /\ P m' = Num x' /\ ext_ltb x x' = true /\
          forall y, In y pre -> usable (P y) = true -> float_gt (Num x') (P y) = true)).
Proof.
  induction moves as [|mv rest IH]; intros bm x Hx; cbn [policy_loop].
  - exists bm, x. split; [reflexivity|]. split; [exact Hx|].
    split; [apply ext_ltb_irrefl|]. split; [intros y []|now left].
  - rewrite policy_lookup_ok.
    destruct (float_gt (P mv) (Num x)) eqn:G.
    + destruct (float_gt_is_a_number _ _ G) as (xm & Em). rewrite Em in *.
      cbn [float_gt] in G.
      assert (Hxm : ext_ltb NegInf xm = true) by (eapply ext_ltb_trans; eassumption).
      destruct (IH mv xm Hxm) as (m' & x' & E & Hus & Hle & Hall & Hor).
      exists m', x'. split; [exact E|]. split; [exact Hus|]. split.
      { eapply ext_le_trans; [apply ext_lt_le; exact G|exact Hle]. }
      split.
      { intros y [<-|Hy]; [rewrite Em; exact Hle|now apply Hall]. }
      right. destruct Hor as [[-> ->]|(pre & post & -> & Epm & Hlt & Hpre)].
      * exists [], rest. split; [reflexivity|]. split; [exact Em|].
        split; [exact G|intros y []].
      * exists (mv :: pre), post. split; [reflexivity|]. split; [exact Epm|].
        split; [eapply ext_ltb_trans; eassumption|].
        intros y [<-|Hy] Hu; [rewrite Em; exact Hlt|now apply Hpre].
    + destruct (IH bm x Hx) as (m' & x' & E & Hus & Hle & Hall & Hor).
      exists m', x'. split; [exact E|]. split; [exact Hus|]. split; [exact Hle|].
      split.
      { intros y [<-|Hy]; [|now apply Hall].
        destruct (P mv) as [|xm]; [reflexivity|]. cbn [float_gt] in *.
        eapply ext_le_trans; eassumption. }
      destruct Hor as [[-> ->]|(pre & post & -> & Epm & Hlt & Hpre)]; [now left|right].
      exists (mv :: pre), post. split; [reflexivity|]. split; [exact Epm|].
      split; [exact Hlt|].
      intros y [<-|Hy] Hu; [|now apply Hpre].
      destruct (P mv) as [|xm]; [discriminate Hu|]. cbn [float_gt] in *.
      eapply ext_le_lt_trans; eassumption.
Qed.

(** The loop from its initial state: either no move has a probability above
    [-inf] and none is selected, or it selects the first move whose
    probability is the highest. *)
Lemma policy_loop_from_scratch (moves : list Move) :
  (policy_loop py_hash policy_probs moves None (Num NegInf) = inr (None, Num NegInf) /\
   forall y, In y moves -> usable (P y) = false)
  \/
  (exists pre m post x,
     moves = pre ++ m :: post /\
     policy_loop py_hash policy_probs moves None (Num NegInf) = inr (Some m, Num x) /\
     P m = Num x /\ usable (P m) = true /\
     (forall y, In y pre -> usable (P y) = true -> float_gt (P m) (P y) = true) /\
     (forall y, In y post -> float_gt (P y) (P m) = false)).
Proof.
  induction moves as [|mv rest IH]; cbn [policy_loop].
  - left. split; [reflexivity|intros y []].
  - rewrite policy_lookup_ok.
    destruct (float_gt (P mv) (Num NegInf)) eqn:G.
    + right. destruct (float_gt_is_a_number _ _ G) as (xm & Em).
      assert (Hxm : ext_ltb NegInf xm = true) by (rewrite Em in G; exact G).
      rewrite Em.
      destruct (policy_loop_tracks rest mv xm Hxm) as (m' & x' & E & Hus & Hle & Hall & Hor).
      destruct Hor as [[-> ->]|(pre & post & -> & Epm & Hlt & Hpre)].
      * exists [], mv, rest, xm. split; [reflexivity|]. split; [exact E|].
        split; [exact Em|]. split; [exact G|]. split; [intros y []|].
        intros y Hy. rewrite Em. now apply Hall.
      * exists (mv :: pre), m', post, x'. split; [reflexivity|]. split; [exact E|].
        split; [exact Epm|]. split; [unfold usable; rewrite Epm; exact Hus|]. split.
        -- intros y [<-|Hy] Hu; rewrite Epm; [rewrite Em; exact Hlt|now apply Hpre].
        -- intros y Hy. rewrite Epm. apply Hall. apply in_or_app. right. now right.
    + destruct IH as [[E Hall]|(pre & m & post & x & -> & E & Epm & Hus & Hpre & Hpost)].
      * left. split; [exact E|]. intros y [<-|Hy]; [exact G|now apply Hall].
      * right. exists (mv :: pre), m, post, x. split; [reflexivity|]. split; [exact E|].
        split; [exact Epm|]. split; [exact Hus|]. split; [|exact Hpost].
        intros y [<-|Hy] Hu; [unfold usable in Hu; congruence|now apply Hpre].
Qed.

End NetworkFacts.

Section PredictMoveFacts.
Context `{Chess}.
Variable Logits : Type.
Variable py_hash : string -> Z.
Variable softmax : Logits -> list pyfloat.

(** Every outcome of [predict_move]. *)
Lemma predict_move_cases (model : Model Logits) (fen : string) (w : World) :
  match predict_move Logits py_hash softmax model fen w with
  | Done ((u, v), w') =>
      exists p m policy,
        from_fen fen = Some p /\ In m (legal_moves (new_board p)) /\ u = uci m /\
        model (tabulate3 12 8 8 (one_hot (new_board p))) = Some (policy, v) /\
        self_depth w' = self_depth w /\
        self_nodes_searched w' = self_nodes_searched w /\
        self_pv w' = self_pv w /\ the_board w' = the_board w /\ trace w' = trace w
  | Failed e =>
      (from_fen fen = None /\ exists msg, e = Builtin (ValueError msg)) \/
      (exists p,
         from_fen fen = Some p /\
         ((model (tabulate3 12 8 8 (one_hot (new_board p))) = None /\ e = TorchError) \/
          (exists policy value,
             model (tabulate3 12 8 8 (one_hot (new_board p))) = Some (policy, value) /\
             ((legal_moves (new_board p) = [] /\
               e = Builtin (ValueError "No legal moves available")) \/
              (legal_moves (new_board p) <> [] /\ softmax policy = [] /\
               e = ZeroDivisionError)))))
  | Unfinished => False
  end.
Proof.
  unfold predict_move.
  destruct (from_fen fen) as [p|] eqn:Ef.
  2:{ left. split; [reflexivity|]. now eexists. }
  rewrite encode_board_tabulate. cbv zeta.
  destruct (model (tabulate3 12 8 8 (one_hot (new_board p)))) as [[policy value]|] eqn:Em.
  2:{ right. exists p. split; [reflexivity|]. left. now split. }
  destruct (legal_moves (new_board p)) as [|m0 rest] eqn:El.
  { right. exists p. split; [reflexivity|]. right. exists policy, value.
    split; [exact Em|]. left. now split. }
  destruct (softmax policy) as [|s0 ss] eqn:Es.
  { cbn [policy_loop policy_lookup List.length Nat.eqb].
    right. exists p. split; [reflexivity|]. right. exists policy, value.
    split; [exact Em|]. right. split; [rewrite El; discriminate|]. now split. }
  assert (Hne : s0 :: ss <> []) by discriminate.
  destruct (policy_loop_from_scratch py_hash (s0 :: ss) Hne (m0 :: rest))
    as [[E _]|(pre & m & post & x & Epre & E & _)]; rewrite E.
  - assert (Hmoves : m0 :: rest <> []) by discriminate.
    destruct (random_choice_ok (m0 :: rest) w Hmoves) as (m & Hin & ->).
    exists p, m, policy. rewrite El. repeat split; assumption.
  - exists p, m, policy. rewrite El. repeat split; try assumption.
    rewrite Epre. apply in_or_app. right. now left.
Qed.

(** X12.  When the position has legal moves and the network returns some
    probabilities, [predict_move] returns the value head's output together
    with a legal move: the first of the legal moves whose probability, read at
    the index [hash(uci) % len], is the highest, probabilities that are NaN
    being passed over, and the random generator is then not used.  Only when
    no legal move has a probability above [-inf] is the move drawn at
    random, with one draw. *)
Theorem predict_move_takes_the_first_highest_probability
    (model : Model Logits) (fen : string) (w : World)
    (p : Position) (encoded : Array3) (policy : Logits) (value : pyfloat) :
  from_fen fen = Some p ->
  encode_board (new_board p) = inr encoded ->
  model encoded = Some (policy, value) ->
  softmax policy <> [] ->
  legal_moves (new_board p) <> [] ->
  (exists pre m post,
     legal_moves (new_board p) = pre ++ m :: post /\
     predict_move Logits py_hash softmax model fen w = Done ((uci m, value), w) /\
     usable (prob_of py_hash (softmax policy) m) = true /\
     (forall y, In y pre ->
        usable (prob_of py_hash (softmax policy) y) = true ->
        float_gt (prob_of py_hash (softmax policy) m)
                 (prob_of py_hash (softmax policy) y) = true) /\
     (forall y, In y post ->
        float_gt (prob_of py_hash (softmax policy) y)
                 (prob_of py_hash (softmax policy) m) = false))
  \/
  ((forall y, In y (legal_moves (new_board p)) ->
      usable (prob_of py_hash (softmax policy) y) = false) /\
   exists m,
     nth_error (legal_moves (new_board p))
               (random_draws w (random_pos w) mod List.length (legal_moves (new_board p)))
     = Some m /\
     predict_move Logits py_hash softmax model fen w
     = Done ((uci m, value),
             mkWorld (self_depth w) (self_nodes_searched w) (self_pv w) (the_board w)
                     (random_draws w) (S (random_pos w)) (trace w))).
Proof.
  intros Ef Ee Em Hprobs Hmoves.
  unfold predict_move. rewrite Ef, Ee, Em. cbv zeta.
  destruct (legal_moves (new_board p)) as [|m0 rest] eqn:El; [congruence|].
  destruct (policy_loop_from_scratch py_hash (softmax policy) Hprobs (m0 :: rest))
    as [[E Hall]|(pre & m & post & x & Epre & E & Epm & Hus & Hpre & Hpost)]; rewrite E.
  - right. split; [exact Hall|].
    destruct (random_choice_ok (m0 :: rest) w Hmoves) as (m & _ & Ec).
    rewrite Ec. unfold random_choice in Ec.
    destruct (nth_error (m0 :: rest) _) as [m1|] eqn:En; [|discriminate Ec].
    exists m. split; [|reflexivity]. congruence.
  - left. exists pre, m, post. split; [exact Epre|]. split; [reflexivity|].
    split; [exact Hus|]. split; [exact Hpre|exact Hpost].
Qed.


End PredictMoveFacts.

Lemma predict_move_takes_the_first_highest_probability_witness :
  (exists pre m post,
     @legal_moves Demo (@new_board Demo STARTING_TREE) = pre ++ m :: post /\
     @predict_move Demo (list pyfloat) demo_hash as_given demo_model STARTING_FEN
                   (demo_world 3)
     = Done ((@uci Demo m, Num (Fin (1 # 2))), demo_world 3) /\
     usable (@prob_of Demo demo_hash
               (as_given [Num (Fin (1 # 4)); NaN; Num (Fin (3 # 4))]) m) = true /\
     (forall y, In y pre ->
        usable (@prob_of Demo demo_hash
                  (as_given [Num (Fin (1 # 4)); NaN; Num (Fin (3 # 4))]) y) = true ->
        float_gt (@prob_of Demo demo_hash
                    (as_given [Num (Fin (1 # 4)); NaN; Num (Fin (3 # 4))]) m)
                 (@prob_of Demo demo_hash
                    (as_given [Num (Fin (1 # 4)); NaN; Num (Fin (3 # 4))]) y) = true) /\
     (forall y, In y post ->
        float_gt (@prob_of Demo demo_hash
                    (as_given [Num (Fin (1 # 4)); NaN; Num (Fin (3 # 4))]) y)
                 (@prob_of Demo demo_hash
                    (as_given [Num (Fin (1 # 4)); NaN; Num (Fin (3 # 4))]) m) = false))
  \/
  ((forall y, In y (@legal_moves Demo (@new_board Demo STARTING_TREE)) ->
      usable (@prob_of Demo demo_hash
                (as_given [Num (Fin (1 # 4)); NaN; Num (Fin (3 # 4))]) y) = false) /\
   exists m,
     nth_error (@legal_moves Demo (@new_board Demo STARTING_TREE))
               (random_draws (demo_world 3) (random_pos (demo_world 3))
                mod List.length (@legal_moves Demo (@new_board Demo STARTING_TREE)))
     = Some m /\
     @predict_move Demo (list pyfloat) demo_hash as_given demo_model STARTING_FEN
                   (demo_world 3)
     = Done ((@uci Demo m, Num (Fin (1 # 2))),
             mkWorld (self_depth (demo_world 3)) (self_nodes_searched (demo_world 3))
                     (self_pv (demo_world 3)) (the_board (demo_world 3))
                     (random_draws (demo_world 3)) (S (random_pos (demo_world 3)))
                     (trace (demo_world 3)))).
Proof.
  apply (@predict_move_takes_the_first_highest_probability Demo (list pyfloat) demo_hash
           as_given demo_model STARTING_FEN (demo_world 3) STARTING_TREE
           (tabulate3 12 8 8 (@one_hot Demo (@new_board Demo STARTING_TREE)))
           [Num (Fin (1 # 4)); NaN; Num (Fin (3 # 4))] (Num (Fin (1 # 2))));
    [reflexivity|apply encode_board_tabulate|reflexivity|discriminate
    |vm_compute; discriminate].
Defined.


(** * The endpoint *)

Section ServiceFacts.
Context `{Chess}.
Variable Logits : Type.
Variable py_hash : string -> Z.
Variable softmax : Logits -> list pyfloat.
Variable Time : Type.
Variable milliseconds : Time -> Time -> Z.

Lemma response_move_respond (move_uci : string) (score : pyfloat) (pv : list string)
    (depth nodes thinking_time : Z) :
  response_move (respond move_uci score pv depth nodes thinking_time) = move_uci.
Proof.
  unfold response_move, respond.
  cbn [response_from response_to response_promotion].
  destruct move_uci as [|a [|b [|c [|d rest]]]]; try reflexivity.
  destruct rest; reflexivity.
Qed.

Lemma promotion_of_respond (move_uci : string) (score : pyfloat) (pv : list string)
    (depth nodes thinking_time : Z) :
  response_promotion (respond move_uci score pv depth nodes thinking_time) = None <->
  (String.length move_uci <= 4)%nat.
Proof.
  unfold respond. cbn [response_promotion].
  destruct (Nat.ltb_spec 4 (String.length move_uci)); split;
    try discriminate; try reflexivity; lia.
Qed.

Lemma get_best_move_on_a_finished_game (fuel : nat) (fen : string) (p : Position)
    (w : World) :
  from_fen fen = Some p ->
  is_game_over (new_board p) = true ->
  get_best_move fuel fen w = Raise (ValueError "Game is over").
Proof.
  intros Ef Hover. unfold get_best_move, bind, chess_Board. rewrite Ef. cbn.
  now rewrite Hover.
Qed.

Lemma get_best_move_without_moves (fuel : nat) (fen : string) (p : Position)
    (w : World) :
  from_fen fen = Some p ->
  is_game_over (new_board p) = false ->
  legal_moves (new_board p) = [] ->
  get_best_move fuel fen w = Raise (ValueError "No legal moves available").
Proof.
  intros Ef Hover El. unfold get_best_move, bind, chess_Board. rewrite Ef. cbn.
  now rewrite Hover, El.
Qed.

(** Why [get_best_move] raises, when the engine is configured as it should. *)
Lemma get_best_move_raises (fuel : nat) (fen : string) (w : World) (e : exn) :
  1 <= self_depth w -> (Z.to_nat (self_depth w) <= fuel)%nat ->
  get_best_move fuel fen w = Raise e ->
  from_fen fen = None \/
  exists p,
    from_fen fen = Some p /\
    ((is_game_over (new_board p) = true /\ e = ValueError "Game is over") \/
     (is_game_over (new_board p) = false /\ legal_moves (new_board p) = [] /\
      e = ValueError "No legal moves available")).
Proof.
  intros Hd Hf E.
  destruct (from_fen fen) as [p|] eqn:Ef; [right|now left].
  exists p. split; [reflexivity|].
  destruct (is_game_over (new_board p)) eqn:Hover.
  - left. split; [reflexivity|].
    rewrite (get_best_move_on_a_finished_game fuel fen p w Ef Hover) in E. congruence.
  - right. split; [reflexivity|].
    destruct (legal_moves (new_board p)) as [|m0 rest] eqn:El.
    + split; [reflexivity|].
      rewrite (get_best_move_without_moves fuel fen p w Ef Hover El) in E. congruence.
    + assert (Hmoves : legal_moves (new_board p) <> []) by (rewrite El; discriminate).
      destruct (get_best_move_returns fuel fen p w Ef Hover Hmoves Hd Hf) as (r & w' & Eok).
      congruence.
Qed.

(** [predict] either answers from the network, leaving the engine alone, or
    is the fallback. *)
Lemma predict_cases (neural_net : option (Model Logits)) (fuel : nat) (fen : string)
    (start_time end_time : Time) (w : World) :
  predict Logits py_hash softmax Time milliseconds neural_net fuel fen start_time end_time w
  = predict_minimax Time milliseconds fuel fen start_time end_time w
  \/
  exists model p m v w',
    neural_net = Some model /\
    from_fen fen = Some p /\ In m (legal_moves (new_board p)) /\
    predict Logits py_hash softmax Time milliseconds neural_net fuel fen start_time end_time w
    = Done (respond (uci m) v [uci m] 0 0 (milliseconds start_time end_time), w') /\
    self_depth w' = self_depth w /\
    self_nodes_searched w' = self_nodes_searched w /\
    self_pv w' = self_pv w.
Proof.
  unfold predict. destruct neural_net as [model|]; [|now left].
  pose proof (predict_move_cases Logits py_hash softmax model fen w) as C.
  destruct (predict_move Logits py_hash softmax model fen w) as [[[u v] w']|e|];
    [right|now left|contradiction].
  destruct C as (p & m & policy & Ef & Hin & -> & _ & Hd & Hn & Hpv & _).
  exists model, p, m, v, w'. repeat split; assumption.
Qed.

(** X14.  With the engine configured at a depth of at least 1, [predict]
    fails with status 500 and with nothing else, and only for a FEN string
    that python-chess rejects or for a position that is over or has no legal
    move; the detail then carries the message of [get_best_move]. *)
Theorem predict_fails_only_with_status_500
    (neural_net : option (Model Logits)) (fuel : nat) (fen : string)
    (start_time end_time : Time) (w : World) (e : HTTPException) :
  1 <= self_depth w -> (Z.to_nat (self_depth w) <= fuel)%nat ->
  predict Logits py_hash softmax Time milliseconds neural_net fuel fen start_time end_time w
  = Failed e ->
  status_code e = 500 /\
  (from_fen fen = None \/
   exists p,
     from_fen fen = Some p /\
     ((is_game_over (new_board p) = true /\
       detail e = "Prediction failed: Game is over"%string) \/
      (is_game_over (new_board p) = false /\ legal_moves (new_board p) = [] /\
       detail e = "Prediction failed: No legal moves available"%string))).
Proof.
  intros Hd Hf E.
  destruct (predict_cases neural_net fuel fen start_time end_time w)
    as [Efall|(model & p & m & v & w' & _ & _ & _ & Edone & _)]; [|congruence].
  rewrite Efall in E. unfold predict_minimax in E.
  destruct (get_best_move fuel fen w) as [[r w']|e0|] eqn:Eg; try discriminate E.
  injection E as <-. split; [reflexivity|].
  destruct (get_best_move_raises fuel fen w e0 Hd Hf Eg)
    as [Ef|(p & Ef & [[Hover ->]|(Hover & El & ->)])]; [now left|right|right];
    exists p; (split; [exact Ef|]).
  - left. now split.
  - right. now repeat split.
Qed.

(** X15.  For a position in which the game is over, [predict] answers with
    status 500 and the detail "Prediction failed: Game is over" when no
    network is loaded, and also with a network when the position has no legal
    move (checkmate or stalemate): the network path raises, and the fallback
    raises in its turn. *)
Theorem predict_answers_500_on_a_finished_game
    (neural_net : option (Model Logits)) (fuel : nat) (fen : string)
    (start_time end_time : Time) (w : World) (p : Position) :
  from_fen fen = Some p ->
  is_game_over (new_board p) = true ->
  neural_net = None \/ legal_moves (new_board p) = [] ->
  predict Logits py_hash softmax Time milliseconds neural_net fuel fen start_time end_time w
  = Failed (mkHTTPException 500 "Prediction failed: Game is over").
Proof.
  intros Ef Hover Hor.
  destruct (predict_cases neural_net fuel fen start_time end_time w)
    as [Efall|(model & p' & m & v & w' & En & Ef' & Hin & _)].
  - rewrite Efall. unfold predict_minimax.
    now rewrite (get_best_move_on_a_finished_game fuel fen p w Ef Hover).
  - exfalso. destruct Hor as [Enone|El]; [congruence|].
    assert (p' = p) by congruence. subst p'. rewrite El in Hin. exact Hin.
Qed.

(** X16.  With the engine configured at a depth of at least 1, on a position
    that is not over and has legal moves [predict] always answers, with or
    without a network and whether the network raises or not.  The squares and
    the promotion of the response, put together again, are the UCI notation
    of a legal move of the position, the promotion being absent exactly when
    that notation has at most four characters, and the principal variation is
    that move alone.  An answer of the network reports depth 0 and 0 nodes
    and leaves the engine's counter alone; an answer of the engine reports
    the configured depth and the engine's counter. *)
Theorem predict_answers_with_a_legal_move
    (neural_net : option (Model Logits)) (fuel : nat) (fen : string)
    (start_time end_time : Time) (w : World) (p : Position) :
  from_fen fen = Some p ->
  is_game_over (new_board p) = false ->
  legal_moves (new_board p) <> [] ->
  1 <= self_depth w -> (Z.to_nat (self_depth w) <= fuel)%nat ->
  exists m r w',
    In m (legal_moves (new_board p)) /\
    predict Logits py_hash softmax Time milliseconds neural_net fuel fen start_time end_time w
    = Done (r, w') /\
    response_move r = uci m /\
    (response_promotion r = None <-> (String.length (uci m) <= 4)%nat) /\
    response_pv r = [uci m] /\
    response_thinkingTime r = milliseconds start_time end_time /\
    self_depth w' = self_depth w /\
    ((response_depth r = 0 /\ response_nodes r = 0 /\
      self_nodes_searched w' = self_nodes_searched w)
     \/
     (response_depth r = self_depth w /\ response_nodes r = self_nodes_searched w')).
Proof.
  intros Ef Hover Hmoves Hd Hf.
  destruct (predict_cases neural_net fuel fen start_time end_time w)
    as [Efall|(model & p' & m & v & w' & _ & Ef' & Hin & Edone & Hdw & Hnw & _)].
  - pose proof (get_best_move_run fuel fen p w Ef Hover Hmoves Hd Hf) as R.
    cbn zeta in R.
    assert (G : exists m score count w',
               In m (legal_moves (new_board p)) /\
               get_best_move fuel fen w
               = Ok (mkResult (uci m) score (self_depth w) count [uci m], w') /\
               self_depth w' = self_depth w /\
               count = self_nodes_searched w').
    { destruct (fst (root_search (self_depth w) p)) as [[bm|] bs] eqn:E.
      - exists bm. eexists _, _, _. split; [|split; [exact R|split; reflexivity]].
        destruct (root_model_selection_is_enumerated
                    (search_model (Z.to_nat (self_depth w - 1))) (new_board p)
                    (legal_moves (new_board p)) None NegInf NegInf PosInf bm) as [Habs|Hin];
          [unfold root_search in E; now rewrite E|discriminate|exact Hin].
      - destruct (random_choice_ok (legal_moves (new_board p))
                    (after (snd (root_search (self_depth w) p)) (entry_world p w)) Hmoves)
          as (m & Hin & Ec).
        rewrite Ec in R.
        exists m. eexists _, _, _. split; [exact Hin|].
        split; [exact R|split; reflexivity]. }
    destruct G as (m & score & count & w' & Hin & Eg & Hdw & Hcount).
    exists m. eexists _, w'. split; [exact Hin|]. split.
    { rewrite Efall. unfold predict_minimax. rewrite Eg. reflexivity. }
    cbn [move_uci score_pawns depth_reached nodes principal_variation].
    split; [apply response_move_respond|]. split; [apply promotion_of_respond|].
    split; [reflexivity|]. split; [reflexivity|]. split; [exact Hdw|].
    right. now split.
  - assert (p' = p) by congruence. subst p'.
    exists m. eexists _, w'. split; [exact Hin|]. split; [exact Edone|].
    split; [apply response_move_respond|]. split; [apply promotion_of_respond|].
    split; [reflexivity|]. split; [reflexivity|]. split; [exact Hdw|].
    left. now repeat split.
Qed.

End ServiceFacts.

Lemma predict_fails_only_with_status_500_witness :
  status_code (mkHTTPException 500 "Prediction failed: Game is over") = 500 /\
  (@from_fen Endgames MATED_FEN = None \/
   exists p,
     @from_fen Endgames MATED_FEN = Some p /\
     ((@is_game_over Endgames (@new_board Endgames p) = true /\
       detail (mkHTTPException 500 "Prediction failed: Game is over")
       = "Prediction failed: Game is over"%string) \/
      (@is_game_over Endgames (@new_board Endgames p) = false /\
       @legal_moves Endgames (@new_board Endgames p) = [] /\
       detail (mkHTTPException 500 "Prediction failed: Game is over")
       = "Prediction failed: No legal moves available"%string))).
Proof.
  apply (@predict_fails_only_with_status_500 Endgames (list pyfloat) demo_hash as_given
           Z demo_milliseconds None 3 MATED_FEN 0 5 (endgame_world 3)
           (mkHTTPException 500 "Prediction failed: Game is over"));
    [simpl; lia|simpl; lia|vm_compute; reflexivity].
Defined.

Lemma predict_answers_500_on_a_finished_game_witness :
  @predict Endgames (list pyfloat) demo_hash as_given Z demo_milliseconds
           (Some nan_model) 3 MATED_FEN 0 5 (endgame_world 3)
  = Failed (mkHTTPException 500 "Prediction failed: Game is over").
Proof.
  apply (@predict_answers_500_on_a_finished_game Endgames (list pyfloat) demo_hash as_given
           Z demo_milliseconds (Some nan_model) 3 MATED_FEN 0 5 (endgame_world 3)
           mated_reply);
    [reflexivity|reflexivity|right; reflexivity].
Defined.

Lemma predict_answers_with_a_legal_move_witness :
  exists m r w',
    In m (@legal_moves Demo (@new_board Demo STARTING_TREE)) /\
    @predict Demo (list pyfloat) demo_hash as_given Z demo_milliseconds
             (Some demo_model) 3 STARTING_FEN 0 5 (@minimax_engine Demo (demo_world 1))
    = Done (r, w') /\
    response_move r = @uci Demo m /\
    (response_promotion r = None <-> (String.length (@uci Demo m) <= 4)%nat) /\
    response_pv r = [@uci Demo m] /\
    response_thinkingTime r = demo_milliseconds 0 5 /\
    self_depth w' = self_depth (@minimax_engine Demo (demo_world 1)) /\
    ((response_depth r = 0 /\ response_nodes r = 0 /\
      self_nodes_searched w' = self_nodes_searched (@minimax_engine Demo (demo_world 1)))
     \/
     (response_depth r = self_depth (@minimax_engine Demo (demo_world 1)) /\
      response_nodes r = self_nodes_searched w')).
Proof.
  apply (@predict_answers_with_a_legal_move Demo (list pyfloat) demo_hash as_given
           Z demo_milliseconds (Some demo_model) 3 STARTING_FEN 0 5
           (@minimax_engine Demo (demo_world 1)) STARTING_TREE);
    [reflexivity|reflexivity|vm_compute; discriminate|cbn; lia|cbn; lia].
Defined.
